(** * RandomWalkPython: the walker core and the simulation engine

    A shallow embedding of [walker.py] and [simulation.py], and the
    properties of them that the specification states, followed by
    further properties that the code shows.

    - Python numbers (ints, floats, numpy's float64) are the carrier of
      the class [PyNum]; numpy's [np.linalg.norm] and [np.dot] are
      operations of that class, with the three laws of order and norm
      that the proofs use.  IEEE binary64 ([PrimFloat]) is an instance,
      so every definition runs.
    - Python's lists and numpy's arrays are mutable objects: a [store]
      holds them and a reference ([loc]) names them, so that two
      references to one object alias.  [x[:]] of a list is a new list,
      [x[:]] of an array is a view on the same buffer.
    - Exceptions are values of [exn]; a function that can raise returns
      a [result], and a method that changes the walker or the store, or
      draws random numbers, is a computation of the monad [M] over
      [State].  The one loop of the source that may not end, the
      resampling around obstacles, runs on fuel.
    - The calls into [random] and [numpy.random] are the class
      [RandomSource]; a tape of draws is an instance.
    - The read-only methods of Walker are functions of the value of
      [self._path]; [read_path] gives that value for a walker object.
    - Of Simulation the constructor, [run], the getters, [get_avg_path]
      and the statistics over the recorded trajectories are embedded;
      the averages are over an [np.average] that is left abstract.

    The file has the model first, then the two instances, then the
    conditions and invariants that the statements name, then the
    properties, and last the properties applied to concrete walkers. *)

From Stdlib Require Import ZArith List Bool Lia String Floats.
From Stdlib Require Uint63.
From stdpp Require Import base list option.
Import ListNotations.

Local Open Scope Z_scope.

(** ** Exceptions and results *)

Inductive exn : Type :=
| ValueError
| IndexError
| ZeroDivisionError
| TypeError.

Inductive result (A : Type) : Type :=
| Ok (a : A)
| Raise (e : exn).
Arguments Ok {A} a.
Arguments Raise {A} e.

#[global] Instance result_ret : MRet result := fun A a => Ok a.
#[global] Instance result_bind : MBind result :=
  fun A B f m => match m with Ok a => f a | Raise e => Raise e end.

(** [l[i]] for a non-negative index: IndexError when out of range. *)
Definition index {A : Type} (l : list A) (i : nat) : result A :=
  match l !! i with
  | Some a => Ok a
  | None => Raise IndexError
  end.

(** ** Python numbers *)

Class PyNum : Type := {
  num : Type;
  of_int : Z -> num;
  add : num -> num -> num;
  sub : num -> num -> num;
  mul : num -> num -> num;
  div : num -> num -> num;
  opp : num -> num;
  ltb : num -> num -> bool;
  leb : num -> num -> bool;
  eqb : num -> num -> bool;
  (** [np.linalg.norm] and [np.dot] on 1-D arrays of one length *)
  norm : list num -> num;
  dot : list num -> list num -> num;
  ltb_leb : forall x y, ltb x y = true -> leb x y = true;
  ltb_not_leb : forall x y, ltb x y = true -> leb y x = false;
  norm_zeros : forall n, norm (repeat (of_int 0) n) = of_int 0
}.

(** An argument annotated [int]: Python does not enforce the annotation,
    so a caller can pass a float; [type(n) is not int] tells them apart. *)
Inductive pyarg `{PyNum} : Type :=
| AnInt (z : Z)
| NotInt (x : num).

Section Values.
Context `{PyNum}.

Definition zero : num := of_int 0.
Definition one : num := of_int 1.

Definition position : Type := list num.
Definition trajectory : Type := list position.

(** [[0] * n] *)
Definition zeros (n : Z) : position := repeat zero (Z.to_nat n).

(** [n < 0] and [n >= length] for an argument that may not be an int. *)
Definition arg_negative (n : pyarg) : bool :=
  match n with
  | AnInt z => z <? 0
  | NotInt x => ltb x zero
  end.

Definition arg_at_least (n : pyarg) (len : nat) : bool :=
  match n with
  | AnInt z => Z.of_nat len <=? z
  | NotInt x => leb (of_int (Z.of_nat len)) x
  end.

(** numpy's broadcasting of a binary operation over two 1-D arrays. *)
Definition np_broadcast (f : num -> num -> num) (xs ys : list num)
  : result (list num) :=
  if (length xs =? length ys)%nat then Ok (zip_with f xs ys)
  else match xs, ys with
       | [x], _ => Ok (map (f x) ys)
       | _, [y] => Ok (map (fun x => f x y) xs)
       | _, _ => Raise ValueError
       end.

(** The same in place: the left operand keeps its shape. *)
Definition np_inplace (f : num -> num -> num) (xs ys : list num)
  : result (list num) :=
  if (length xs =? length ys)%nat then Ok (zip_with f xs ys)
  else match ys with
       | [y] => Ok (map (fun x => f x y) xs)
       | _ => Raise ValueError
       end.

Definition np_dot (xs ys : list num) : result num :=
  if (length xs =? length ys)%nat then Ok (dot xs ys) else Raise ValueError.

(** *** walker.py: exited_radius *)

Definition exited_radius (position : position) (radius : num) : result bool :=
  if leb radius zero then Raise ValueError
  else if ltb radius (norm position) then Ok true
  else Ok false.

(** *** Walker's read-only methods, as functions of [self._path] *)

Definition dist_from_origin_after (_path : trajectory) (n : pyarg)
  : result num :=
  if arg_negative n then Raise ValueError
  else if arg_at_least n (length _path) then Raise ValueError
  else match n with
       | NotInt _ => Raise ValueError
       | AnInt z => p ← index _path (Z.to_nat z); Ok (norm p)
       end.

(** One test of the loop of [times_crossed_y_axis_after]: the chained
    comparison [a > 0 >= b] reads [b] only when [a > 0] holds. *)
Definition went_down (_path : trajectory) (i : nat) : result bool :=
  p ← index _path i; a ← index p 1%nat;
  if ltb zero a
  then q ← index _path (i + 1)%nat; b ← index q 1%nat; Ok (leb b zero)
  else Ok false.

Definition went_up (_path : trajectory) (i : nat) : result bool :=
  p ← index _path i; a ← index p 1%nat;
  if ltb a zero
  then q ← index _path (i + 1)%nat; b ← index q 1%nat; Ok (leb zero b)
  else Ok false.

Fixpoint crossing_loop (_path : trajectory) (range : list nat) (count : Z)
  : result Z :=
  match range with
  | [] => Ok count
  | i :: range' =>
      down ← went_down _path i;
      if (down : bool) then crossing_loop _path range' (count + 1)
      else up ← went_up _path i;
           if (up : bool) then crossing_loop _path range' (count + 1)
           else crossing_loop _path range' count
  end.

Definition times_crossed_y_axis_after (_path : trajectory) (n : pyarg)
  : result Z :=
  if arg_negative n then Raise ValueError
  else if arg_at_least n (length _path) then Raise ValueError
  else match n with
       | NotInt _ => Raise ValueError
       | AnInt z => crossing_loop _path (seq 0 (Z.to_nat (z - 1))) 0
       end.

Definition dist_from_axis_after (_dim : Z) (_path : trajectory)
    (axis : list num) (n : pyarg) : result num :=
  match n with
  | NotInt _ => Raise ValueError
  | AnInt z =>
      if negb (Z.of_nat (length axis) =? _dim) then Raise ValueError
      else if negb (eqb (norm axis) one) then Raise ValueError
      else if z <? 0 then Raise ValueError
      else if Z.of_nat (length _path) <=? z then Raise ValueError
      else
        vector ← index _path (Z.to_nat z);
        d ← np_dot vector axis;
        let projection := div d (norm axis) in
        let projection_vector :=
          map (fun a => div (mul projection a) (norm axis)) axis in
        diff ← np_broadcast sub vector projection_vector;
        Ok (norm diff)
  end.

Fixpoint exit_loop (points : trajectory) (i : Z) (radius : num) : result Z :=
  match points with
  | [] => Ok 0
  | p :: points' =>
      out ← exited_radius p radius;
      if (out : bool) then Ok i else exit_loop points' (i + 1) radius
  end.

Definition exited_radius_at (_path : trajectory) (radius : num) : result Z :=
  if leb radius zero then Raise ValueError
  else if (length _path =? 0)%nat then Raise ValueError
  else exit_loop _path 0 radius.

(** *** What the specification says [times_crossed_y_axis_after] counts

    A crossing is a pair of consecutive second coordinates that goes from
    strictly positive to [<= 0], or from strictly negative to [>= 0]. *)

Definition crosses (a b : num) : bool :=
  (ltb zero a && leb b zero) || (ltb a zero && leb zero b).

Fixpoint count_crossings (ys : list num) : Z :=
  match ys with
  | a :: (b :: _) as rest =>
      (if crosses a b then 1 else 0) + count_crossings rest
  | _ => 0
  end.

Definition second_coordinates (path : trajectory) : list num :=
  (fun p => nth 1 p zero) <$> path.

(** A valid step index: an int within the trajectory. *)
Definition valid_index (path : trajectory) (n : pyarg) : Prop :=
  match n with
  | AnInt z => 0 <= z < Z.of_nat (length path)
  | NotInt _ => False
  end.

End Values.

(** ** Objects, references and the store *)

Abbreviation loc := nat.

Inductive pyobj `{PyNum} : Type :=
| PyList (xs : list num)      (** a list of numbers *)
| NdArray (xs : list num)     (** the buffer of a 1-D numpy array *)
| PySeq (items : list loc).   (** a list of references to other objects *)

Abbreviation store := (list pyobj).

(** scipy's KDTree over a non-empty list of points of one dimension: the
    constructor copies the points, [m] is their dimension. *)
Record KDTree `{PyNum} : Type := {
  kd_data : list position;
  kd_m : nat
}.

(** The subclass of Walker an object belongs to, with its private fields. *)
Inductive Variant `{PyNum} : Type :=
| RandomAngleWalker (__step_size : num)
| RandomStepWalker (__min_step_size __max_step_size : num)
| RandomGridWalker
| BiasedRandomWalker (__bias_direction : option (list Z))
    (__bias_strength : num) (__step_size : num)
| RandomSearcher (__target : list Z).

Record Walker `{PyNum} : Type := {
  __name : string;
  _restart_chance : num;
  _restart_every : Z;
  _dim : Z;
  _magic_gates_placements : option KDTree;
  _magic_gates_destinations : option loc;
  _obstacles : option KDTree;
  _current_position : loc;
  _path : loc;
  variant : Variant
}.

(** ** Randomness: the calls into [random] and [numpy.random] *)

Class RandomSource `{PyNum} : Type := {
  rng : Type;
  (** [random.random()] *)
  random_random : rng -> num * rng;
  (** [random.uniform(a, b)] *)
  random_uniform : rng -> num -> num -> num * rng;
  (** the integer below [n] that [random.choice] and [random.randint] draw *)
  random_below : rng -> nat -> nat * rng;
  (** [np.random.randn(d)] *)
  np_randn : rng -> nat -> list num * rng;
  random_below_lt : forall g n, (0 < n)%nat -> (fst (random_below g n) < n)%nat;
  np_randn_length : forall g d, length (fst (np_randn g d)) = d
}.

(** ** The state and the monad of methods *)

Section Machine.
Context `{RandomSource}.

Record State : Type := {
  heap : store;
  gen : rng;
  self : Walker
}.

Inductive outcome (A : Type) : Type :=
| Done (a : A) (s : State)
| Throw (e : exn) (s : State)
| OutOfFuel.
Arguments Done {A} a s.
Arguments Throw {A} e s.
Arguments OutOfFuel {A}.

Definition M (A : Type) : Type := State -> outcome A.

#[global] Instance M_ret : MRet M := fun A a s => Done a s.
#[global] Instance M_bind : MBind M :=
  fun A B f m s =>
    match m s with
    | Done a s' => f a s'
    | Throw e s' => Throw e s'
    | OutOfFuel => OutOfFuel
    end.

Definition throw {A : Type} (e : exn) : M A := fun s => Throw e s.

Definition out_of_fuel {A : Type} : M A := fun _ => OutOfFuel.

Definition lift {A : Type} (r : result A) : M A :=
  fun s => match r with Ok a => Done a s | Raise e => Throw e s end.

(** [try: m  except ValueError: handler], then [k] when [m] did not raise *)
Definition try_except_ValueError {A B : Type} (m : M A) (handler : M B)
    (k : A -> M B) : M B :=
  fun s =>
    match m s with
    | Done a s' => k a s'
    | Throw ValueError s' => handler s'
    | Throw e s' => Throw e s'
    | OutOfFuel => OutOfFuel
    end.

Definition getheap : M store := fun s => Done (heap s) s.

Definition getself : M Walker := fun s => Done (self s) s.

Definition setself (w : Walker) : M unit :=
  fun s => Done tt {| heap := heap s; gen := gen s; self := w |}.

Definition draw {A : Type} (f : rng -> A * rng) : M A :=
  fun s => let (a, g) := f (gen s) in
           Done a {| heap := heap s; gen := g; self := self s |}.

(** A new object gets the next free reference. *)
Definition alloc (o : pyobj) : M loc :=
  fun s => Done (length (heap s))
                {| heap := heap s ++ [o]; gen := gen s; self := self s |}.

(** A reference that names no object, or an object of the wrong kind,
    cannot arise in Python; the model raises TypeError there. *)
Definition load (l : loc) : M pyobj :=
  fun s => match heap s !! l with
           | Some o => Done o s
           | None => Throw TypeError s
           end.

Definition load_vec (l : loc) : M (list num) :=
  o ← load l;
  match o with
  | PyList xs | NdArray xs => mret xs
  | PySeq _ => throw TypeError
  end.

Definition load_seq (l : loc) : M (list loc) :=
  o ← load l;
  match o with
  | PySeq items => mret items
  | _ => throw TypeError
  end.

Definition save (l : loc) (o : pyobj) : M unit :=
  fun s => Done tt {| heap := <[l := o]> (heap s); gen := gen s; self := self s |}.

Definition set_position (l : loc) : M unit :=
  w ← getself;
  setself {| __name := __name w; _restart_chance := _restart_chance w;
             _restart_every := _restart_every w; _dim := _dim w;
             _magic_gates_placements := _magic_gates_placements w;
             _magic_gates_destinations := _magic_gates_destinations w;
             _obstacles := _obstacles w;
             _current_position := l; _path := _path w;
             variant := variant w |}.

Definition set_path_ref (l : loc) : M unit :=
  w ← getself;
  setself {| __name := __name w; _restart_chance := _restart_chance w;
             _restart_every := _restart_every w; _dim := _dim w;
             _magic_gates_placements := _magic_gates_placements w;
             _magic_gates_destinations := _magic_gates_destinations w;
             _obstacles := _obstacles w;
             _current_position := _current_position w; _path := l;
             variant := variant w |}.

(** [x[:]]: a new list for a list, a view on the same buffer for an array. *)
Definition slice_all (l : loc) : M loc :=
  o ← load l;
  match o with
  | PyList xs => alloc (PyList xs)
  | NdArray _ => mret l
  | PySeq items => alloc (PySeq items)
  end.

(** [list(x)] of a vector *)
Definition to_list (l : loc) : M loc :=
  xs ← load_vec l; alloc (PyList xs).

(** [random.choice(seq)] and [random.randint(a, b)] *)
Definition random_choice {A : Type} (seq : list A) : M A :=
  match seq with
  | [] => throw IndexError
  | _ => i ← draw (fun g => random_below g (length seq)); lift (index seq i)
  end.

Definition random_randint (a b : Z) : M Z :=
  if b <? a then throw ValueError
  else i ← draw (fun g => random_below g (Z.to_nat (b - a + 1)));
       mret (a + Z.of_nat i).

(** *** Walker: accessors and restarts *)

Definition get_dim : M Z := w ← getself; mret (_dim w).
Definition get_restart_every : M Z := w ← getself; mret (_restart_every w).
Definition get_name : M string := w ← getself; mret (__name w).

Definition get_path : M loc :=
  w ← getself; slice_all (_path w).

Definition get_current_position : M loc :=
  w ← getself; slice_all (_current_position w).

Definition hard_restart : M loc :=
  w ← getself;
  c ← alloc (PyList (zeros (_dim w)));
  set_position c;;
  p ← alloc (PySeq [c]);
  set_path_ref p;;
  slice_all c.

Definition restart : M loc :=
  w ← getself;
  c ← alloc (PyList (zeros (_dim w)));
  set_position c;;
  slice_all c.

Definition set_path (path : loc) : M unit :=
  items ← load_seq path;
  if (length items =? 0)%nat then throw ValueError
  else p ← alloc (PySeq items);
       set_path_ref p;;
       final ← lift (index items (length items - 1)%nat);
       set_position final.

Definition get_basis_vectors (dim : Z) : list (list Z) :=
  map (fun i => <[i := 1]> (repeat 0 (Z.to_nat dim))) (seq 0 (Z.to_nat dim)).

(** *** scipy: KDTree *)

Definition KDTree_new (points : list position) : KDTree :=
  {| kd_data := points;
     kd_m := match points with p :: _ => length p | [] => 0%nat end |}.

(** The indices of the points within distance [r] of [x]; scipy raises
    ValueError when [x] is not of the tree's dimension. *)
Definition query_ball_point (tree : KDTree) (x : position) (r : num)
  : result (list nat) :=
  if negb (length x =? kd_m tree)%nat then Raise ValueError
  else Ok (map fst
             (filter (fun ip => leb (norm (zip_with sub (snd ip) x)) r = true)
                     (imap (fun i p => (i, p)) (kd_data tree)))).

(** *** walker.py: normalize_vector *)

Definition normalize_vector (dimen : Z) : M (list num) :=
  if dimen <=? 1 then throw ValueError
  else direction ← draw (fun g => np_randn g (Z.to_nat dimen));
       mret (map (fun x => div x (norm direction)) direction).

(** [x += v] for an array [v]: a list [x] is added elementwise into a new
    array, to which the name is bound; an array [x] is updated in place. *)
Definition iadd (l : loc) (v : list num) : M loc :=
  o ← load l;
  match o with
  | PyList xs => ys ← lift (np_broadcast add xs v); alloc (NdArray ys)
  | NdArray xs => ys ← lift (np_inplace add xs v); save l (NdArray ys);; mret l
  | PySeq _ => throw TypeError
  end.

(** [x[i] = a] *)
Definition store_item (l : loc) (i : nat) (a : num) : M unit :=
  o ← load l;
  match o with
  | PyList xs =>
      if (i <? length xs)%nat then save l (PyList (<[i := a]> xs))
      else throw IndexError
  | NdArray xs =>
      if (i <? length xs)%nat then save l (NdArray (<[i := a]> xs))
      else throw IndexError
  | PySeq _ => throw TypeError
  end.

(** *** The five [step] methods *)

Definition RandomAngleWalker_step (__step_size : num) : M loc :=
  w ← getself;
  c ← slice_all (_current_position w);
  set_position c;;
  direction ← normalize_vector (_dim w);
  c' ← iadd c (map (fun d => mul d __step_size) direction);
  set_position c';;
  to_list c'.

Definition RandomStepWalker_step (__min_step_size __max_step_size : num)
  : M loc :=
  step_size ← draw (fun g => random_uniform g __min_step_size __max_step_size);
  w ← getself;
  c ← slice_all (_current_position w);
  set_position c;;
  direction ← normalize_vector (_dim w);
  c' ← iadd c (map (fun d => mul d step_size) direction);
  set_position c';;
  to_list c'.

Definition RandomGridWalker_step : M loc :=
  w ← getself;
  c ← slice_all (_current_position w);
  set_position c;;
  let vectors := get_basis_vectors (_dim w) in
  sign ← random_choice [-1; 1];
  direction ← random_randint 0 (_dim w - 1);
  let d := Z.to_nat direction in
  xs ← load_vec c;
  x ← lift (index xs d);
  row ← lift (index vectors d);
  v ← lift (index row d);
  store_item c d (add x (of_int (sign * v)));;
  mret c.

Definition BiasedRandomWalker_step (__bias_direction : option (list Z))
    (__bias_strength __step_size : num) : M loc :=
  w ← getself;
  c ← slice_all (_current_position w);
  set_position c;;
  direction ← normalize_vector (_dim w);
  bias_direction ←
    match __bias_direction with
    | Some (b :: bs) => mret (map of_int (b :: bs))
    | _ => xs ← load_vec c; mret (map opp xs)
    end;
  combined_direction ←
    (if ltb __bias_strength one
     then cd ← lift (np_broadcast add
                       (map (mul (sub one __bias_strength)) direction)
                       (map (mul __bias_strength) bias_direction));
          mret (map (fun x => div x (norm cd)) cd)
     else mret bias_direction);
  c' ← iadd c (map (fun x => mul x __step_size) combined_direction);
  set_position c';;
  to_list c'.

(** [self._current_position == self.__target] on a list cursor; on an
    array cursor the comparison is an array, whose truth value numpy
    refuses with ValueError. *)
Definition RandomSearcher_step (__target : list Z) : M loc :=
  w ← getself;
  o ← load (_current_position w);
  match o with
  | PyList xs =>
      if ((length xs =? length __target)%nat
          && forallb (fun xt => eqb (fst xt) (of_int (snd xt)))
                     (zip xs __target))%bool
      then mret (_current_position w)
      else RandomGridWalker_step
  | NdArray _ => throw ValueError
  | PySeq _ => throw TypeError
  end.

Definition step : M loc :=
  w ← getself;
  match variant w with
  | RandomAngleWalker s => RandomAngleWalker_step s
  | RandomStepWalker lo hi => RandomStepWalker_step lo hi
  | RandomGridWalker => RandomGridWalker_step
  | BiasedRandomWalker b s sz => BiasedRandomWalker_step b s sz
  | RandomSearcher t => RandomSearcher_step t
  end.

(** *** Walker.walk *)

(** [while self._obstacles.query_ball_point(pos_after_step, 1)]: the loop
    can run forever, so it is given fuel. *)
Fixpoint resample (fuel : nat) (tree : KDTree) (pos_after_step : loc) : M loc :=
  xs ← load_vec pos_after_step;
  hits ← lift (query_ball_point tree xs one);
  match hits with
  | [] => mret pos_after_step
  | _ :: _ =>
      match fuel with
      | O => out_of_fuel
      | S fuel' => pos ← step; resample fuel' tree pos
      end
  end.

Definition append_to_path (pos : loc) : M unit :=
  w ← getself;
  items ← load_seq (_path w);
  save (_path w) (PySeq (items ++ [pos])).

(** The three [if] statements of a round of [walk], each from the
    candidate position to the next one. *)
Definition skip_obstacles (fuel : nat) (pos_after_step : loc) : M loc :=
  w ← getself;
  match _obstacles w with
  | Some tree => resample fuel tree pos_after_step
  | None => mret pos_after_step
  end.

Definition pass_gates (pos_after_step : loc) : M loc :=
  w ← getself;
  match _magic_gates_placements w, _magic_gates_destinations w with
  | Some tree, Some d =>
      dests ← load_seq d;
      match dests with
      | [] => mret pos_after_step
      | _ :: _ =>
          xs ← load_vec pos_after_step;
          hits ← lift (query_ball_point tree xs zero);
          match hits with
          | [] => mret pos_after_step
          | _ :: _ => random_choice dests
          end
      end
  | _, _ => mret pos_after_step
  end.

Definition roll_restart (i : Z) (pos_after_step : loc) : M loc :=
  w ← getself;
  if _restart_every w =? 0 then throw ZeroDivisionError
  else if i `mod` _restart_every w =? 0
  then r ← draw random_random;
       if ltb r (_restart_chance w) then restart else mret pos_after_step
  else mret pos_after_step.

(** One round of the loop of [walk], for the counter [i]. *)
Definition walk_body (fuel : nat) (i : Z) : M unit :=
  pos ← step;
  pos ← skip_obstacles fuel pos;
  pos ← pass_gates pos;
  pos ← roll_restart i pos;
  append_to_path pos.

Fixpoint walk_loop (fuel : nat) (range : list Z) : M unit :=
  match range with
  | [] => mret tt
  | i :: range' => walk_body fuel i;; walk_loop fuel range'
  end.

(** [range(n)] *)
Definition range (n : Z) : list Z := map Z.of_nat (seq 0 (Z.to_nat n)).

Definition walk (fuel : nat) (steps : Z) : M unit :=
  if steps <=? 0 then throw ValueError
  else walk_loop fuel (range steps).

(** *** Walker.__init__ and the constructors of the subclasses

    The constructor's list arguments are read in the store [σ]; the
    entries of a vector are numbers by their type, so the [isinstance]
    tests of the source always pass. *)

Definition deref_vec (σ : store) (l : loc) : result position :=
  match σ !! l with
  | Some (PyList xs) | Some (NdArray xs) => Ok xs
  | _ => Raise TypeError
  end.

Definition deref_seq (σ : store) (l : loc) : result (list loc) :=
  match σ !! l with
  | Some (PySeq items) => Ok items
  | _ => Raise TypeError
  end.

Fixpoint deref_all (σ : store) (items : list loc) : result (list position) :=
  match items with
  | [] => Ok []
  | l :: items' => p ← deref_vec σ l; ps ← deref_all σ items'; Ok (p :: ps)
  end.

(** The value of a list of vectors: a trajectory, or a list of gates. *)
Definition deref_trajectory (σ : store) (l : loc) : result trajectory :=
  items ← deref_seq σ l; deref_all σ items.

Definition check (b : bool) : result unit :=
  if b then Ok tt else Raise ValueError.

Definition all_of_dim (n_dim : Z) (vectors : list position) : bool :=
  forallb (fun v => Z.of_nat (length v) =? n_dim) vectors.

Definition validate_name (name : string) : result unit :=
  check (negb (String.eqb name "")).

Definition validate_dimensions (n_dim : Z) : result unit :=
  check (negb (n_dim <=? 1)).

Definition validate_obstacles (n_dim : Z) (obstacles : option (list position))
  : result unit :=
  match obstacles with
  | Some obs => check (all_of_dim n_dim obs)
  | None => Ok tt
  end.

Definition is_not_None {A : Type} (o : option A) : bool :=
  match o with Some _ => true | None => false end.

Definition is_empty_list {A : Type} (o : option (list A)) : bool :=
  match o with Some [] => true | _ => false end.

Definition validate_gates (magic_gates_dests magic_gates_placements
    : option (list position)) (n_dim : Z) : result unit :=
  match magic_gates_placements with
  | Some gates => check (all_of_dim n_dim gates)
  | None => Ok tt
  end;;
  match magic_gates_dests with
  | Some gates => check (all_of_dim n_dim gates)
  | None => Ok tt
  end;;
  check (negb (is_empty_list magic_gates_placements
               && negb (is_empty_list magic_gates_dests)));;
  check (negb (negb (is_empty_list magic_gates_placements)
               && is_empty_list magic_gates_dests));;
  check (negb (negb (is_not_None magic_gates_placements)
               && is_not_None magic_gates_dests));;
  check (negb (is_not_None magic_gates_placements
               && negb (is_not_None magic_gates_dests))).

Definition validate_restart (restart_chance : num) (restart_every : Z)
  : result unit :=
  check (negb (ltb restart_chance zero || ltb one restart_chance));;
  check (negb (restart_every <? 1)).

(** [KDTree(points) if points else None] *)
Definition tree_of (points : option (list position)) : option KDTree :=
  match points with
  | Some (p :: ps) => Some (KDTree_new (p :: ps))
  | _ => None
  end.

Definition Walker_init (variant : Variant) (σ : store) (name : string)
    (n_dim : Z) (magic_gates_placements : option (list position))
    (magic_gates_dests : option loc) (obstacles : option (list position))
    (restart_chance : num) (restart_every : Z) : result (Walker * store) :=
  dests ← match magic_gates_dests with
          | Some d => ps ← deref_trajectory σ d; Ok (Some ps)
          | None => Ok None
          end;
  validate_name name;;
  validate_dimensions n_dim;;
  validate_obstacles n_dim obstacles;;
  validate_gates dests magic_gates_placements n_dim;;
  validate_restart restart_chance restart_every;;
  let c := length σ in
  let p := S (length σ) in
  Ok ({| __name := name;
         _restart_chance := restart_chance;
         _restart_every := restart_every;
         _dim := n_dim;
         _magic_gates_placements := tree_of magic_gates_placements;
         _magic_gates_destinations := magic_gates_dests;
         _obstacles := tree_of obstacles;
         _current_position := c;
         _path := p;
         variant := variant |},
      σ ++ [PyList (zeros n_dim); PySeq [c]]).

Definition RandomAngleWalker_init := Walker_init (RandomAngleWalker one).

Definition RandomGridWalker_init := Walker_init RandomGridWalker.

Definition RandomStepWalker_init (min_step_size max_step_size : num)
    (σ : store) (name : string) (n_dim : Z)
    (magic_gates_placements : option (list position))
    (magic_gates_dests : option loc) (obstacles : option (list position))
    (restart_chance : num) (restart_every : Z) : result (Walker * store) :=
  check (negb (ltb max_step_size min_step_size));;
  check (negb (leb min_step_size zero || leb max_step_size zero));;
  Walker_init (RandomStepWalker min_step_size max_step_size) σ name n_dim
    magic_gates_placements magic_gates_dests obstacles
    restart_chance restart_every.

Definition validate_bias (bias_direction : option (list Z))
    (bias_strength : num) (n_dim : Z) : result unit :=
  match bias_direction with
  | Some (b :: bs) =>
      check (Z.of_nat (length (b :: bs)) =? n_dim);;
      check (eqb (norm (map of_int (b :: bs))) one)
  | _ => Ok tt
  end;;
  check (negb (ltb bias_strength zero || ltb one bias_strength)).

Definition BiasedRandomWalker_init (bias_direction : option (list Z))
    (bias_strength : num) (σ : store) (name : string) (n_dim : Z)
    (magic_gates_placements : option (list position))
    (magic_gates_dests : option loc) (obstacles : option (list position))
    (restart_chance : num) (restart_every : Z) : result (Walker * store) :=
  validate_bias bias_direction bias_strength n_dim;;
  Walker_init (BiasedRandomWalker bias_direction bias_strength one) σ name
    n_dim magic_gates_placements magic_gates_dests obstacles
    restart_chance restart_every.

Definition validate_target (n_dim : Z) (target : list Z) : result unit :=
  check (Z.of_nat (length target) =? n_dim).

Definition RandomSearcher_init (target : list Z) (σ : store) (name : string)
    (n_dim : Z) (magic_gates_placements : option (list position))
    (magic_gates_dests : option loc) (obstacles : option (list position))
    (restart_chance : num) (restart_every : Z) : result (Walker * store) :=
  validate_target n_dim target;;
  Walker_init (RandomSearcher target) σ name n_dim magic_gates_placements
    magic_gates_dests obstacles restart_chance restart_every.

(** *** Walker's read-only methods on the object *)

Definition read_path : M trajectory :=
  σ ← getheap; w ← getself; lift (deref_trajectory σ (_path w)).

Definition Walker_dist_from_origin_after (n : pyarg) : M num :=
  p ← read_path; lift (dist_from_origin_after p n).

Definition Walker_times_crossed_y_axis_after (n : pyarg) : M Z :=
  p ← read_path; lift (times_crossed_y_axis_after p n).

Definition Walker_dist_from_axis_after (axis : list num) (n : pyarg) : M num :=
  w ← getself; p ← read_path; lift (dist_from_axis_after (_dim w) p axis n).

Definition Walker_exited_radius_at (radius : num) : M Z :=
  p ← read_path; lift (exited_radius_at p radius).

(** ** simulation.py

    The walker of a Simulation is the walker of the state ([self]): the
    Simulation keeps a reference to the caller's object, not a copy. *)

Record Simulation : Type := {
  __axis : list num;
  __radius : num;
  __times_to_run : Z;
  __num_of_steps : Z;
  __sims : list loc
}.

Definition Simulation_init (times_to_run num_of_steps : Z) (axis : list num)
    (radius : num) : M Simulation :=
  if times_to_run <=? 0 then throw ValueError
  else if num_of_steps <=? 0 then throw ValueError
  else if leb radius zero then throw ValueError
  else if (length axis =? 0)%nat then throw ValueError
  else
    dim ← get_dim;
    if negb (Z.of_nat (length axis) =? dim) then throw ValueError
    else
      restart_every ← get_restart_every;
      if num_of_steps <? restart_every then throw ValueError
      else mret {| __axis := axis; __radius := radius;
                   __times_to_run := times_to_run;
                   __num_of_steps := num_of_steps; __sims := [] |}.

Definition record_sim (sim : Simulation) (path : loc) : Simulation :=
  {| __axis := __axis sim; __radius := __radius sim;
     __times_to_run := __times_to_run sim;
     __num_of_steps := __num_of_steps sim;
     __sims := __sims sim ++ [path] |}.

(** The loop of [run], for the trials that remain: a ValueError of
    [walk] ends the method, any other exception leaves it. *)
Fixpoint run_loop (fuel : nat) (trials : nat) (sim : Simulation)
  : M Simulation :=
  match trials with
  | O => mret sim
  | S trials' =>
      hard_restart;;
      try_except_ValueError (walk fuel (__num_of_steps sim))
        (mret sim)
        (fun _ => path ← get_path;
                  run_loop fuel trials' (record_sim sim path))
  end.

Definition run (fuel : nat) (sim : Simulation) : M Simulation :=
  run_loop fuel (Z.to_nat (__times_to_run sim)) sim.

Definition get_sims (sim : Simulation) : list loc := __sims sim.

Definition get_num_of_steps (sim : Simulation) : Z := __num_of_steps sim.

Definition get_times_run (sim : Simulation) : Z :=
  Z.of_nat (length (__sims sim)).

Definition is_abstract : M bool := dim ← get_dim; mret (3 <? dim).

(** [for j in range(dim): row[j] += point[j]] *)
Fixpoint add_point (row : list num) (point : position) (js : list nat)
  : result (list num) :=
  match js with
  | [] => Ok row
  | j :: js' =>
      a ← index row j;
      b ← index point j;
      add_point (<[j := add a b]> row) point js'
  end.

(** [for i in range(len(sim)): ...] *)
Fixpoint add_sim (avg_path : list (list num)) (sim : trajectory)
    (rows : list nat) (js : list nat) : result (list (list num)) :=
  match rows with
  | [] => Ok avg_path
  | i :: rows' =>
      row ← index avg_path i;
      point ← index sim i;
      row' ← add_point row point js;
      add_sim (<[i := row']> avg_path) sim rows' js
  end.

(** [for sim in self.__sims: if sim: ...] *)
Fixpoint add_sims (avg_path : list (list num)) (sims : list trajectory)
    (js : list nat) : result (list (list num)) :=
  match sims with
  | [] => Ok avg_path
  | sim :: sims' =>
      avg' ← match sim with
             | [] => Ok avg_path
             | _ :: _ => add_sim avg_path sim (seq 0 (length sim)) js
             end;
      add_sims avg' sims' js
  end.

(** [row[j] /= n] for each j: Python raises ZeroDivisionError for [n = 0]. *)
Fixpoint divide_row (row : list num) (n : Z) (js : list nat)
  : result (list num) :=
  match js with
  | [] => Ok row
  | j :: js' =>
      a ← index row j;
      if n =? 0 then Raise ZeroDivisionError
      else divide_row (<[j := div a (of_int n)]> row) n js'
  end.

Fixpoint divide_rows (avg_path : list (list num)) (n : Z) (rows js : list nat)
  : result (list (list num)) :=
  match rows with
  | [] => Ok avg_path
  | i :: rows' =>
      row ← index avg_path i;
      row' ← divide_row row n js;
      divide_rows (<[i := row']> avg_path) n rows' js
  end.

(** The body of [get_avg_path] after its guard, on the values of the
    recorded trajectories: the two initialisation loops append
    [num_of_steps] rows each. *)
Definition avg_path_of (num_of_steps dim : Z) (sims : list trajectory)
  : result (list (list num)) :=
  let avg_path :=
    repeat (zeros dim) (Z.to_nat num_of_steps)
    ++ repeat (zeros dim) (Z.to_nat num_of_steps) in
  let js := seq 0 (Z.to_nat dim) in
  avg ← add_sims avg_path sims js;
  divide_rows avg (Z.of_nat (length sims)) (seq 0 (length avg)) js.

Fixpoint read_sims (σ : store) (sims : list loc) : result (list trajectory) :=
  match sims with
  | [] => Ok []
  | l :: sims' =>
      t ← deref_trajectory σ l; ts ← read_sims σ sims'; Ok (t :: ts)
  end.

Definition get_avg_path (sim : Simulation) : M (list (list num)) :=
  p ← get_path;
  items ← load_seq p;
  if (length items <=? 1)%nat then throw ValueError
  else
    dim ← get_dim;
    σ ← getheap;
    sims ← lift (read_sims σ (__sims sim));
    lift (avg_path_of (__num_of_steps sim) dim sims).

(** *** Simulation: the statistics over the recorded trajectories *)

(** [for sim in self.__sims: self.__walker.set_path(sim);
    results.append(func())] *)
Fixpoint apply_loop {A : Type} (sims : list loc) (func : M A) : M (list A) :=
  match sims with
  | [] => mret []
  | sim :: sims' =>
      set_path sim;;
      r ← func;
      results ← apply_loop sims' func;
      mret (r :: results)
  end.

Definition _apply_to_sims {A : Type} (sim : Simulation) (func : M A)
  : M (list A) :=
  apply_loop (__sims sim) func.

Definition get_walker_name : M string := get_name.

Definition get_distances_from_origin_after (sim : Simulation) (n : pyarg)
  : M (list num) :=
  _apply_to_sims sim (Walker_dist_from_origin_after n).

Definition get_distances_from_axis_after (sim : Simulation) (n : pyarg)
  : M (list num) :=
  _apply_to_sims sim (Walker_dist_from_axis_after (__axis sim) n).

Definition get_times_crossed_y_axis_after (sim : Simulation) (n : pyarg)
  : M (list Z) :=
  _apply_to_sims sim (Walker_times_crossed_y_axis_after n).

Definition get_step_exited_radius (sim : Simulation) : M (list Z) :=
  steps ← _apply_to_sims sim (Walker_exited_radius_at (__radius sim));
  mret (filter (fun step => step <> 0) steps).

(** The averages, over numpy's [np.average] of a 1-D array. *)
Section Averages.
Variable np_average : list num -> num.

Definition get_avg_dist_from_origin_after (sim : Simulation) (n : pyarg)
  : M num :=
  dists ← _apply_to_sims sim (Walker_dist_from_origin_after n);
  mret (np_average dists).

Definition get_avg_dist_from_axis_after (sim : Simulation) (n : pyarg)
  : M num :=
  dists ← _apply_to_sims sim (Walker_dist_from_axis_after (__axis sim) n);
  mret (np_average dists).

Definition avg_step_exited_radius (sim : Simulation) : M num :=
  steps ← _apply_to_sims sim (Walker_exited_radius_at (__radius sim));
  mret (np_average (map of_int steps)).

Definition avg_times_crossed_y_axis_after (sim : Simulation) (n : pyarg)
  : M num :=
  times ← _apply_to_sims sim (Walker_times_crossed_y_axis_after n);
  mret (np_average (map of_int times)).

End Averages.

End Machine.

Arguments Done {_ _ A} a s.
Arguments Throw {_ _ A} e s.
Arguments OutOfFuel {_ _ A}.

(** * Instances that run

    IEEE binary64 as Python's float, with the norm and the dot product
    computed left to right, and ints embedded in it (exactly, up to
    2^53); and a source of randomness that reads its draws from a
    tape. *)

Module Float64.

Definition f_of_int (z : Z) : float :=
  match z with
  | Z0 => 0%float
  | Zpos _ => PrimFloat.of_uint63 (Uint63.of_Z z)
  | Zneg _ => PrimFloat.opp (PrimFloat.of_uint63 (Uint63.of_Z (- z)))
  end.

Definition f_sum_squares (xs : list float) : float :=
  fold_left (fun acc x => PrimFloat.add acc (PrimFloat.mul x x)) xs 0%float.

Definition f_norm (xs : list float) : float := PrimFloat.sqrt (f_sum_squares xs).

Definition f_dot (xs ys : list float) : float :=
  fold_left PrimFloat.add (zip_with PrimFloat.mul xs ys) 0%float.

Lemma SFcompare_Lt_swap a b :
  SFcompare a b = Some Lt -> SFcompare b a = Some Gt.
Proof.
  destruct a as [sa|sa| |sa ma ea], b as [sb|sb| |sb mb eb]; simpl;
    try congruence; try (destruct sa; try destruct sb; congruence).
  change PosDef.Pos.compare_cont with Pos.compare_cont.
  destruct sa, sb; try congruence;
    rewrite (Z.compare_antisym ea eb); destruct (ea ?= eb)%Z; simpl;
    try congruence;
    change Eq with (CompOpp Eq) at 2;
    rewrite <- (Pos.compare_cont_antisym ma mb Eq);
    destruct (Pos.compare_cont Eq ma mb); simpl; congruence.
Qed.

Lemma f_ltb_leb x y : PrimFloat.ltb x y = true -> PrimFloat.leb x y = true.
Proof.
  rewrite FloatAxioms.ltb_spec, FloatAxioms.leb_spec. unfold SFltb, SFleb.
  destruct (SFcompare _ _) as [[]|]; congruence.
Qed.

Lemma f_ltb_not_leb x y :
  PrimFloat.ltb x y = true -> PrimFloat.leb y x = false.
Proof.
  rewrite FloatAxioms.ltb_spec, FloatAxioms.leb_spec. unfold SFltb, SFleb.
  destruct (SFcompare (Prim2SF x) (Prim2SF y)) as [[]|] eqn:E; try congruence.
  rewrite (SFcompare_Lt_swap _ _ E). reflexivity.
Qed.

Lemma f_sum_squares_zeros n : f_sum_squares (repeat 0%float n) = 0%float.
Proof. unfold f_sum_squares. induction n as [|n IH]; simpl; auto. Qed.

Lemma f_norm_zeros n : f_norm (repeat (f_of_int 0) n) = f_of_int 0.
Proof. unfold f_norm. simpl f_of_int. rewrite f_sum_squares_zeros. reflexivity. Qed.

#[global] Instance float_PyNum : PyNum := {|
  num := float;
  of_int := f_of_int;
  add := PrimFloat.add;
  sub := PrimFloat.sub;
  mul := PrimFloat.mul;
  div := PrimFloat.div;
  opp := PrimFloat.opp;
  ltb := PrimFloat.ltb;
  leb := PrimFloat.leb;
  eqb := PrimFloat.eqb;
  norm := f_norm;
  dot := f_dot;
  ltb_leb := f_ltb_leb;
  ltb_not_leb := f_ltb_not_leb;
  norm_zeros := f_norm_zeros
|}.

End Float64.

Module Tape.
Section Tape.
Context `{PyNum}.

(** The draws still to come; an exhausted tape keeps giving 0. *)
Definition tape : Type := list nat.

Definition next (g : tape) : nat * tape :=
  match g with
  | [] => (0%nat, [])
  | k :: g' => (k, g')
  end.

Definition t_below (g : tape) (n : nat) : nat * tape :=
  let (k, g') := next g in (k `mod` n, g')%nat.

(** A draw [k] stands for [k / 1000] in [[0, 1)]. *)
Definition t_random (g : tape) : num * tape :=
  let (k, g') := next g in
  (div (of_int (Z.of_nat (k `mod` 1000)%nat)) (of_int 1000), g').

Definition t_uniform (g : tape) (a b : num) : num * tape :=
  let (r, g') := t_random g in (add a (mul (sub b a) r), g').

(** A draw [k] stands for the sample [k - 5]. *)
Fixpoint t_randn (g : tape) (d : nat) : list num * tape :=
  match d with
  | O => ([], g)
  | S d' =>
      let (k, g1) := next g in
      let (xs, g2) := t_randn g1 d' in
      (of_int (Z.of_nat k - 5) :: xs, g2)
  end.

Lemma t_below_lt g n : (0 < n)%nat -> (fst (t_below g n) < n)%nat.
Proof.
  intros Hn. unfold t_below. destruct (next g) as [k g']. simpl.
  apply Nat.mod_upper_bound. lia.
Qed.

Lemma t_randn_length g d : length (fst (t_randn g d)) = d.
Proof.
  revert g. induction d as [|d IH]; intros g; simpl; [reflexivity|].
  destruct (next g) as [k g1]. specialize (IH g1).
  destruct (t_randn g1 d) as [xs g2]. simpl in *. congruence.
Qed.

#[global] Instance tape_source : RandomSource := {|
  rng := tape;
  random_random := t_random;
  random_uniform := t_uniform;
  random_below := t_below;
  np_randn := t_randn;
  random_below_lt := t_below_lt;
  np_randn_length := t_randn_length
|}.

End Tape.
End Tape.

(** * What the proofs speak of

    The conditions, invariants and states that the statements below
    name. *)

Section Invariants.
Context `{RandomSource}.

(** The conditions under which the constructor refuses its arguments. *)
Definition init_rejects (s : State) (times_to_run num_of_steps : Z)
    (axis : list num) (radius : num) : Prop :=
  times_to_run <= 0 \/ num_of_steps <= 0 \/ leb radius zero = true
  \/ axis = [] \/ Z.of_nat (length axis) <> _dim (self s)
  \/ _restart_every (self s) > num_of_steps.

(** What the walker holds: the values of its trajectory and cursor. *)
Definition internal (s : State) : result trajectory * result position :=
  (deref_trajectory (heap s) (_path (self s)),
   deref_vec (heap s) (_current_position (self s))).

(** Every row of a table has [d] entries. *)
Definition rows_of (d : nat) (table : list (list num)) : Prop :=
  Forall (fun row => length row = d) table.

(** The settings of a walker: every field but the cursor and the path. *)
Definition settings (w : Walker) :=
  (__name w, _restart_chance w, _restart_every w, _dim w,
   _magic_gates_placements w, _magic_gates_destinations w, _obstacles w,
   variant w).

(** [frame s s']: from [s] to [s'] the walker kept its settings and its
    path object, and no list of references was changed. *)
Record frame (s s' : State) : Prop := {
  frame_seq : forall l items,
    heap s !! l = Some (PySeq items) -> heap s' !! l = Some (PySeq items);
  frame_path : _path (self s') = _path (self s);
  frame_settings : settings (self s') = settings (self s)
}.

Definition frames {A : Type} (m : M A) : Prop :=
  forall s, match m s with
            | Done _ s' | Throw _ s' => frame s s'
            | OutOfFuel => True
            end.

(** What the constructors check, as far as [walk] relies on it. *)
Record valid_walker (w : Walker) : Prop := {
  valid_dim : 1 < _dim w;
  valid_restart_every : 1 <= _restart_every w;
  valid_obstacles : forall tree,
    _obstacles w = Some tree -> kd_m tree = Z.to_nat (_dim w);
  valid_placements : forall tree,
    _magic_gates_placements w = Some tree -> kd_m tree = Z.to_nat (_dim w);
  valid_bias : forall b bs strength size,
    variant w = BiasedRandomWalker (Some (b :: bs)) strength size ->
    length (b :: bs) = Z.to_nat (_dim w)
}.

(** The gate destinations, when given, are a list object. *)
Definition dests_ok (s : State) : Prop :=
  forall d, _magic_gates_destinations (self s) = Some d ->
            exists items, heap s !! d = Some (PySeq items).

Definition is_vec (n : nat) (o : pyobj) : Prop :=
  match o with
  | PyList xs | NdArray xs => length xs = n
  | PySeq _ => False
  end.

Definition vec_at (s : State) (l : loc) : Prop :=
  exists o, heap s !! l = Some o /\ is_vec (Z.to_nat (_dim (self s))) o.

(** The cursor is a vector of the walker's dimension; a searcher's
    cursor is a list, which its own steps and the restarts keep so. *)
Definition cursor_ok (s : State) : Prop :=
  exists o,
    heap s !! _current_position (self s) = Some o
    /\ is_vec (Z.to_nat (_dim (self s))) o
    /\ (forall t, variant (self s) = RandomSearcher t -> exists xs, o = PyList xs).

(** The states that the operations lead to. *)
Definition s_alloc (s : State) (o : pyobj) : State :=
  {| heap := heap s ++ [o]; gen := gen s; self := self s |}.

Definition s_save (s : State) (l : loc) (o : pyobj) : State :=
  {| heap := <[l := o]> (heap s); gen := gen s; self := self s |}.

Definition s_gen (s : State) (g : rng) : State :=
  {| heap := heap s; gen := g; self := self s |}.

Definition s_cursor (s : State) (l : loc) : State :=
  {| heap := heap s; gen := gen s;
     self := {| __name := __name (self s);
                _restart_chance := _restart_chance (self s);
                _restart_every := _restart_every (self s);
                _dim := _dim (self s);
                _magic_gates_placements := _magic_gates_placements (self s);
                _magic_gates_destinations := _magic_gates_destinations (self s);
                _obstacles := _obstacles (self s);
                _current_position := l; _path := _path (self s);
                variant := variant (self s) |} |}.

(** The states in which a round of [walk] starts. *)
Definition ready (s : State) : Prop :=
  valid_walker (self s) /\ dests_ok s /\ cursor_ok s
  /\ exists items, heap s !! _path (self s) = Some (PySeq items).

(** An outcome that is neither an exception nor, without obstacles, a
    lack of fuel. *)
Definition goes_on {A : Type} (s : State) (r : outcome A)
    (post : A -> State -> Prop) : Prop :=
  match r with
  | Done a s' => post a s'
  | Throw _ _ => False
  | OutOfFuel => _obstacles (self s) <> None
  end.

Definition s_path (s : State) (l : loc) : State :=
  {| heap := heap s; gen := gen s;
     self := {| __name := __name (self s);
                _restart_chance := _restart_chance (self s);
                _restart_every := _restart_every (self s);
                _dim := _dim (self s);
                _magic_gates_placements := _magic_gates_placements (self s);
                _magic_gates_destinations := _magic_gates_destinations (self s);
                _obstacles := _obstacles (self s);
                _current_position := _current_position (self s); _path := l;
                variant := variant (self s) |} |}.

(** The state a constructor leaves, for any source of randomness. *)
Definition born (w : Walker) (σ : store) (g : rng) : State :=
  {| heap := σ; gen := g; self := w |}.

(** [same_shape o o']: a list of numbers is as it was, an array has kept
    its length, a list of references is still one. *)
Definition same_shape (o o' : pyobj) : Prop :=
  match o with
  | PyList xs => o' = PyList xs
  | NdArray xs => exists ys, o' = NdArray ys /\ length ys = length xs
  | PySeq _ => exists items, o' = PySeq items
  end.

(** [kept s s']: every object of [s] is in [s'], in the same shape. *)
Definition kept (s s' : State) : Prop :=
  forall l o, heap s !! l = Some o ->
              exists o', heap s' !! l = Some o' /\ same_shape o o'.

Definition keeps {A : Type} (m : M A) : Prop :=
  forall s a s', m s = Done a s' -> kept s s'.

(** The gate destinations, when given, are vectors of the walker's
    dimension: what the constructor checks. *)
Definition gates_ok (s : State) : Prop :=
  forall d, _magic_gates_destinations (self s) = Some d ->
            exists items, heap s !! d = Some (PySeq items)
                          /\ Forall (vec_at s) items.

(** A recorded trial of [steps] steps: a list of [steps + 1] vectors, the
    first of which is the list of zeros. *)
Definition recorded (steps : Z) (s : State) (l : loc) : Prop :=
  exists first rest,
    heap s !! l = Some (PySeq (first :: rest))
    /\ Z.of_nat (length rest) = steps
    /\ heap s !! first = Some (PyList (zeros (_dim (self s))))
    /\ Forall (vec_at s) rest.

End Invariants.

Arguments goes_on {_ _ A} s r post.

(** * The inputs of the examples

    Python floats are binary64 here and the random draws come from a
    tape, so the model runs on them. *)

Module Inputs.
Import Float64 Tape.

(** What a computation returns, when it returns. *)
Definition returned {A : Type} (r : outcome A) : option A :=
  match r with
  | Done a _ => Some a
  | _ => None
  end.

(** [RandomGridWalker("A")] in an empty store *)
Definition walker_A : Walker :=
  {| __name := "A"; _restart_chance := 0%float; _restart_every := 1;
     _dim := 2; _magic_gates_placements := None;
     _magic_gates_destinations := None; _obstacles := None;
     _current_position := 0%nat; _path := 1%nat;
     variant := RandomGridWalker |}.

Definition heap_A : store := [PyList [0%float; 0%float]; PySeq [0%nat]].

(** A path whose second coordinate goes 1, -1, 0, 2. *)
Definition zigzag : trajectory := [[0; 1]; [0; -1]; [0; 0]; [0; 2]]%float.

(** The state after the constructor, with the tape [g] of draws to come. *)
Definition start (g : list nat) : State := born walker_A heap_A (g : tape).

(** [Simulation(2, 3, RandomGridWalker("A"), [0, 1], 10)], its run and
    its average path. *)
Definition average_of_two_trials : M (Z * list (list num)) :=
  sim ← Simulation_init 2 3 [0%float; 1%float] 10%float;
  sim ← run 0 sim;
  avg_path ← get_avg_path sim;
  mret (get_num_of_steps sim, avg_path).

(** A walker that walked before its Simulation was made, and the
    average path asked for before any run. *)
Definition average_before_any_run : M (list (list num)) :=
  walk 0 1;;
  sim ← Simulation_init 2 3 [0%float; 1%float] 10%float;
  get_avg_path sim.

(** [p = w.get_path(); p[0][0] = 5]: the trajectory before and after,
    and the cursor after. *)
Definition write_into_returned_point : M (trajectory * trajectory * position) :=
  before ← read_path;
  p ← get_path;
  items ← load_seq p;
  point ← lift (index items 0%nat);
  store_item point 0%nat 5%float;;
  after ← read_path;
  w ← getself;
  cursor ← load_vec (_current_position w);
  mret (before, after, cursor).

(** [Simulation(2, 3, walker, [0, 1], 10)], as the constructor leaves it *)
Definition trial_sim : Simulation :=
  {| __axis := [0%float; 1%float]; __radius := 10%float;
     __times_to_run := 2; __num_of_steps := 3; __sims := [] |}.

(** [RandomGridWalker("B", obstacles=[[5, 5]])] in an empty store *)
Definition walker_B : Walker :=
  {| __name := "B"; _restart_chance := 0%float; _restart_every := 1;
     _dim := 2; _magic_gates_placements := None;
     _magic_gates_destinations := None;
     _obstacles := Some (KDTree_new [[5%float; 5%float]]);
     _current_position := 0%nat; _path := 1%nat;
     variant := RandomGridWalker |}.

(** [RandomGridWalker("G", magic_gates_placements=[[0, 0]],
    magic_gates_dests=[[3, 3]])]: the store holds the destination and
    the list of destinations before the constructor adds the cursor and
    the path. *)
Definition heap_G : store :=
  [PyList [3%float; 3%float]; PySeq [0%nat];
   PyList [0%float; 0%float]; PySeq [2%nat]].

Definition walker_G : Walker :=
  {| __name := "G"; _restart_chance := 0%float; _restart_every := 1;
     _dim := 2;
     _magic_gates_placements := Some (KDTree_new [[0%float; 0%float]]);
     _magic_gates_destinations := Some 1%nat; _obstacles := None;
     _current_position := 2%nat; _path := 3%nat;
     variant := RandomGridWalker |}.

(** A store in which, besides the new walker A, a trial of one step is
    recorded: from the origin to (1, 0). *)
Definition heap_T : store :=
  heap_A ++ [PyList [1%float; 0%float]; PySeq [0%nat; 2%nat]].

Definition sim_T : Simulation :=
  {| __axis := [0%float; 1%float]; __radius := 10%float;
     __times_to_run := 1; __num_of_steps := 1; __sims := [3%nat] |}.

End Inputs.

(** * Properties of the geometry and of the read-only methods *)

Section ValueProperties.
Context `{PyNum}.

Lemma ltb_irrefl (x : num) : ltb x x = false.
Proof.
  destruct (ltb x x) eqn:E; [|reflexivity].
  pose proof (ltb_leb _ _ E). pose proof (ltb_not_leb _ _ E). congruence.
Qed.

Lemma ltb_asym (x y : num) : ltb x y = true -> ltb y x = false.
Proof.
  intros E. destruct (ltb y x) eqn:E'; [|reflexivity].
  pose proof (ltb_leb _ _ E'). pose proof (ltb_not_leb _ _ E). congruence.
Qed.

Lemma norm_origin (n : Z) : norm (zeros n) = zero.
Proof. apply norm_zeros. Qed.

Lemma exited_radius_ok (p : position) (radius : num) :
  leb radius zero = false -> exited_radius p radius = Ok (ltb radius (norm p)).
Proof.
  intros Hr. unfold exited_radius. rewrite Hr.
  destruct (ltb radius (norm p)); reflexivity.
Qed.

(** C7. [exited_radius(position, radius)] raises ValueError exactly when
    [radius <= 0]; otherwise it returns whether [radius < norm(position)],
    so a point whose norm equals the radius is inside. *)
Theorem exited_radius_strict (position : position) (radius : num) :
  (exited_radius position radius = Raise ValueError <-> leb radius zero = true)
  /\ (leb radius zero = false ->
      exited_radius position radius = Ok (ltb radius (norm position)))
  /\ (leb radius zero = false -> norm position = radius ->
      exited_radius position radius = Ok false).
Proof.
  unfold exited_radius. destruct (leb radius zero) eqn:E.
  - repeat split; intros; congruence.
  - split; [|split].
    + split; [|discriminate]. destruct (ltb radius (norm position)); discriminate.
    + intros _. destruct (ltb radius (norm position)); reflexivity.
    + intros _ ->. rewrite ltb_irrefl. reflexivity.
Qed.

(** The loop of [exited_radius_at] from index [i]: it returns the index
    of the first point that exits, and 0 when none does. *)
Lemma exit_loop_none (points : trajectory) (i : Z) (radius : num) :
  leb radius zero = false ->
  Forall (fun p => exited_radius p radius = Ok false) points ->
  exit_loop points i radius = Ok 0.
Proof.
  intros Hr Hall. revert i. induction Hall as [|p points Hp _ IH]; intros i; simpl.
  - reflexivity.
  - rewrite Hp. simpl. apply IH.
Qed.

Lemma exit_loop_first (points : trajectory) (i : Z) (radius : num)
    (k : nat) (p : position) :
  points !! k = Some p ->
  exited_radius p radius = Ok true ->
  (forall j q, (j < k)%nat -> points !! j = Some q ->
               exited_radius q radius = Ok false) ->
  exit_loop points i radius = Ok (i + Z.of_nat k).
Proof.
  revert i k. induction points as [|q points IH]; intros i k Hk Hp Hbefore.
  - discriminate.
  - destruct k as [|k]; simpl in *.
    + injection Hk as ->. rewrite Hp. simpl. f_equal. lia.
    + rewrite (Hbefore 0%nat q); [|lia|reflexivity]. simpl.
      rewrite (IH (i + 1) k Hk Hp).
      * f_equal. lia.
      * intros j q' Hj Hq'. apply (Hbefore (S j)); [lia|exact Hq'].
Qed.

Lemma exit_loop_total (points : trajectory) (i : Z) (radius : num) :
  leb radius zero = false -> exists k, exit_loop points i radius = Ok k.
Proof.
  intros Hr. revert i. induction points as [|p points IH]; intros i; simpl.
  - eauto.
  - rewrite (exited_radius_ok _ _ Hr). simpl.
    destruct (ltb radius (norm p)); eauto.
Qed.

(** C4. On a non-empty trajectory [exited_radius_at(radius)] raises
    ValueError exactly when [radius <= 0]; otherwise it returns the
    smallest index whose point exits the radius, and 0 when no point
    does. *)
Theorem exited_radius_at_first (path : trajectory) (radius : num) :
  path <> [] ->
  (exited_radius_at path radius = Raise ValueError <-> leb radius zero = true)
  /\ (leb radius zero = false ->
      (exists i, exited_radius_at path radius = Ok i)
      /\ (forall (k : nat) p,
            path !! k = Some p ->
            exited_radius p radius = Ok true ->
            (forall j q, (j < k)%nat -> path !! j = Some q ->
                         exited_radius q radius = Ok false) ->
            exited_radius_at path radius = Ok (Z.of_nat k))
      /\ (Forall (fun p => exited_radius p radius = Ok false) path ->
          exited_radius_at path radius = Ok 0)).
Proof.
  intros Hne. unfold exited_radius_at.
  destruct (leb radius zero) eqn:Hr.
  - split; [tauto|discriminate].
  - destruct path as [|p0 path]; [congruence|].
    change ((length (p0 :: path) =? 0)%nat) with false. cbv iota.
    split.
    + split; [|discriminate].
      destruct (exit_loop_total (p0 :: path) 0 radius Hr) as [k ->]. discriminate.
    + intros _. split; [apply exit_loop_total, Hr|]. split.
      * intros k p Hk Hp Hbefore.
        rewrite (exit_loop_first _ 0 radius k p Hk Hp Hbefore). reflexivity.
      * apply exit_loop_none, Hr.
Qed.

Lemma exit_loop_inv (points : trajectory) (i k : Z) (radius : num) :
  leb radius zero = false ->
  exit_loop points i radius = Ok k ->
  (k = 0 /\ Forall (fun p => ltb radius (norm p) = false) points) \/ i <= k.
Proof.
  intros Hr. revert i. induction points as [|p points IH]; intros i; simpl.
  - intros [= <-]. left. split; [reflexivity|constructor].
  - rewrite (exited_radius_ok _ _ Hr). simpl.
    destruct (ltb radius (norm p)) eqn:Hp.
    + intros [= <-]. right. lia.
    + intros Hk. destruct (IH _ Hk) as [[-> Hall]|Hle].
      * left. split; [reflexivity|]. constructor; assumption.
      * right. lia.
Qed.

(** C10. For a positive radius and a trajectory that starts at the
    origin, [exited_radius_at] returns 0 exactly when no point has a
    norm above the radius; the origin itself never exits. *)
Theorem exited_radius_at_zero_iff_never (n : Z) (rest : trajectory)
    (radius : num) :
  ltb zero radius = true ->
  (exited_radius_at (zeros n :: rest) radius = Ok 0 <->
   Forall (fun p => ltb radius (norm p) = false) (zeros n :: rest))
  /\ exited_radius (zeros n) radius = Ok false.
Proof.
  intros Hpos.
  assert (Hr : leb radius zero = false) by (apply ltb_not_leb, Hpos).
  assert (Horigin : ltb radius (norm (zeros n)) = false).
  { rewrite norm_origin. apply ltb_asym, Hpos. }
  split.
  - unfold exited_radius_at. rewrite Hr. simpl.
    rewrite (exited_radius_ok _ _ Hr), Horigin. simpl. split.
    + intros Hk. destruct (exit_loop_inv _ _ _ _ Hr Hk) as [[_ Hall]|Hle]; [|lia].
      constructor; assumption.
    + intros Hall. apply exit_loop_none; [exact Hr|].
      inversion Hall as [|? ? _ Hrest]; subst.
      revert Hrest. apply Forall_impl.
      intros p Hp. simpl in Hp. rewrite (exited_radius_ok _ _ Hr), Hp. reflexivity.
  - rewrite (exited_radius_ok _ _ Hr), Horigin. reflexivity.
Qed.

(** C6. [dist_from_axis_after(axis, n)] raises ValueError whenever the
    norm of [axis] is not equal to 1, whatever [n] is: the comparison
    with 1 is exact, and it is made before [n] is looked at. *)
Theorem dist_from_axis_after_non_unit (dim : Z) (path : trajectory)
    (axis : list num) (n : pyarg) :
  eqb (norm axis) one = false ->
  dist_from_axis_after dim path axis n = Raise ValueError.
Proof.
  intros Hnorm. unfold dist_from_axis_after. destruct n as [z|x]; [|reflexivity].
  destruct (negb (Z.of_nat (length axis) =? dim)); [reflexivity|].
  rewrite Hnorm. reflexivity.
Qed.

Lemma index_Some {A : Type} (l : list A) (i : nat) (a : A) :
  l !! i = Some a -> index l i = Ok a.
Proof. unfold index. intros ->. reflexivity. Qed.

Lemma second_coordinate (p : position) :
  (2 <= length p)%nat -> index p 1%nat = Ok (nth 1 p zero).
Proof.
  destruct p as [|a [|b p]]; simpl; intros Hlen; try lia. reflexivity.
Qed.

(** One round of the loop adds 1 exactly when the pair crosses. *)
Lemma crossing_loop_step (path : trajectory) (i : nat) (range : list nat)
    (count : Z) (p q : position) :
  path !! i = Some p -> path !! (i + 1)%nat = Some q ->
  (2 <= length p)%nat -> (2 <= length q)%nat ->
  crossing_loop path (i :: range) count =
  crossing_loop path range
    (count + if crosses (nth 1 p zero) (nth 1 q zero) then 1 else 0).
Proof.
  intros Hp Hq Lp Lq. simpl. unfold went_down, went_up, crosses.
  rewrite (index_Some _ _ _ Hp), (index_Some _ _ _ Hq). simpl.
  rewrite (second_coordinate p Lp), (second_coordinate q Lq). simpl.
  destruct (ltb zero (nth 1 p zero)) eqn:Epos; simpl.
  - destruct (leb (nth 1 q zero) zero); simpl; [reflexivity|].
    rewrite (ltb_asym _ _ Epos). simpl. f_equal. lia.
  - destruct (ltb (nth 1 p zero) zero); simpl.
    + destruct (leb zero (nth 1 q zero)); simpl; [reflexivity|f_equal; lia].
    + f_equal. lia.
Qed.

Lemma crossing_loop_counts (path : trajectory) (m k : nat) (count : Z) :
  Forall (fun p => (2 <= length p)%nat) path ->
  (k + m < length path)%nat ->
  crossing_loop path (seq k m) count =
  Ok (count + count_crossings (take (S m) (drop k (second_coordinates path)))).
Proof.
  intros Hdim. revert k count. induction m as [|m IH]; intros k count Hlen.
  - simpl. destruct (drop k (second_coordinates path)) as [|a ys]; simpl;
      f_equal; lia.
  - destruct (lookup_lt_is_Some_2 path k) as [p Hp]; [lia|].
    destruct (lookup_lt_is_Some_2 path (k + 1)) as [q Hq]; [lia|].
    pose proof (proj1 (Forall_lookup _ _) Hdim) as Hall.
    cbn [seq].
    rewrite (crossing_loop_step path k _ count p q Hp Hq (Hall _ _ Hp) (Hall _ _ Hq)).
    rewrite IH by lia.
    assert (Hk : drop k (second_coordinates path)
                 = nth 1 p zero :: drop (S k) (second_coordinates path)).
    { apply drop_S. unfold second_coordinates. rewrite list_lookup_fmap.
      unfold trajectory, position in *. rewrite Hp. reflexivity. }
    assert (Hk1 : drop (S k) (second_coordinates path)
                  = nth 1 q zero :: drop (S (S k)) (second_coordinates path)).
    { apply drop_S. unfold second_coordinates. rewrite list_lookup_fmap.
      replace (S k) with (k + 1)%nat by lia.
      unfold trajectory, position in *. rewrite Hq. reflexivity. }
    rewrite Hk. rewrite Hk1 at 1. rewrite Hk1.
    cbn [take count_crossings]. f_equal. lia.
Qed.

(** C5. For a valid index [n], [times_crossed_y_axis_after(n)] is the
    number of crossings among the first [n] trajectory points; an
    invalid [n] raises ValueError; and a pair that starts at zero is
    never a crossing, so a touch of zero is counted once at most. *)
Theorem times_crossed_y_axis_after_counts (path : trajectory) (n : pyarg) :
  Forall (fun p => (2 <= length p)%nat) path ->
  (forall z, n = AnInt z -> valid_index path n ->
     times_crossed_y_axis_after path n =
     Ok (count_crossings (take (Z.to_nat z) (second_coordinates path))))
  /\ (~ valid_index path n ->
      times_crossed_y_axis_after path n = Raise ValueError)
  /\ (forall b, crosses zero b = false).
Proof.
  intros Hdim. split; [|split].
  - intros z -> [Hlo Hhi]. unfold times_crossed_y_axis_after. simpl.
    destruct (Z.ltb_spec z 0); [lia|].
    destruct (Z.leb_spec (Z.of_nat (length path)) z); [lia|].
    destruct (Z.eq_dec z 0) as [->|Hz]; [reflexivity|].
    rewrite (crossing_loop_counts path (Z.to_nat (z - 1)) 0 0 Hdim) by lia.
    rewrite drop_0. replace (S (Z.to_nat (z - 1))) with (Z.to_nat z) by lia.
    reflexivity.
  - intros Hbad. unfold times_crossed_y_axis_after.
    destruct n as [z|x]; simpl in *.
    + destruct (Z.ltb_spec z 0); [reflexivity|].
      destruct (Z.leb_spec (Z.of_nat (length path)) z); [reflexivity|lia].
    + destruct (ltb x zero); [reflexivity|].
      destruct (leb _ x); reflexivity.
  - intros b. unfold crosses. rewrite ltb_irrefl. reflexivity.
Qed.

End ValueProperties.


(** * Properties of the walker object and of the simulation *)

Section MachineProperties.
Context `{RandomSource}.

(** ** Running a computation step by step *)

Lemma bind_done {A B : Type} (m : M A) (k : A -> M B) s a s' :
  m s = Done a s' -> (m ≫= k) s = k a s'.
Proof. unfold mbind, M_bind. intros ->. reflexivity. Qed.

Lemma bind_inv {A B : Type} (m : M A) (k : A -> M B) s b s' :
  (m ≫= k) s = Done b s' -> exists a s1, m s = Done a s1 /\ k a s1 = Done b s'.
Proof.
  unfold mbind, M_bind. destruct (m s) as [a s1|e s1|]; try discriminate. eauto.
Qed.

Lemma bind_getself {B : Type} (k : Walker -> M B) s :
  (getself ≫= k) s = k (self s) s.
Proof. reflexivity. Qed.

Lemma load_done s l o : heap s !! l = Some o -> load l s = Done o s.
Proof. unfold load. intros ->. reflexivity. Qed.

Lemma load_vec_list s l xs :
  heap s !! l = Some (PyList xs) -> load_vec l s = Done xs s.
Proof. intros E. unfold load_vec. rewrite (bind_done _ _ _ _ _ (load_done _ _ _ E)). reflexivity. Qed.

Lemma load_vec_array s l xs :
  heap s !! l = Some (NdArray xs) -> load_vec l s = Done xs s.
Proof. intros E. unfold load_vec. rewrite (bind_done _ _ _ _ _ (load_done _ _ _ E)). reflexivity. Qed.

Lemma load_seq_done s l items :
  heap s !! l = Some (PySeq items) -> load_seq l s = Done items s.
Proof. intros E. unfold load_seq. rewrite (bind_done _ _ _ _ _ (load_done _ _ _ E)). reflexivity. Qed.

Lemma load_seq_inv s l items s' :
  load_seq l s = Done items s' -> s' = s /\ heap s !! l = Some (PySeq items).
Proof.
  unfold load_seq, load, mbind, M_bind.
  destruct (heap s !! l) as [[xs|xs|its]|]; try discriminate.
  intros [= -> ->]. auto.
Qed.

(** ** The read-only methods on a walker object

    On a walker whose path object holds the points [p], each method is
    its function of [self._path] at [p]; the state stays. *)

Lemma read_path_done s p :
  deref_trajectory (heap s) (_path (self s)) = Ok p -> read_path s = Done p s.
Proof.
  intros E. unfold read_path, getheap. unfold mbind at 1, M_bind at 1.
  rewrite bind_getself. unfold lift. rewrite E. reflexivity.
Qed.

Lemma Walker_exited_radius_at_eq s p radius :
  deref_trajectory (heap s) (_path (self s)) = Ok p ->
  Walker_exited_radius_at radius s = lift (exited_radius_at p radius) s.
Proof.
  intros E. unfold Walker_exited_radius_at.
  rewrite (bind_done _ _ _ _ _ (read_path_done _ _ E)). reflexivity.
Qed.

Lemma Walker_times_crossed_y_axis_after_eq s p n :
  deref_trajectory (heap s) (_path (self s)) = Ok p ->
  Walker_times_crossed_y_axis_after n s
  = lift (times_crossed_y_axis_after p n) s.
Proof.
  intros E. unfold Walker_times_crossed_y_axis_after.
  rewrite (bind_done _ _ _ _ _ (read_path_done _ _ E)). reflexivity.
Qed.

Lemma Walker_dist_from_origin_after_eq s p n :
  deref_trajectory (heap s) (_path (self s)) = Ok p ->
  Walker_dist_from_origin_after n s = lift (dist_from_origin_after p n) s.
Proof.
  intros E. unfold Walker_dist_from_origin_after.
  rewrite (bind_done _ _ _ _ _ (read_path_done _ _ E)). reflexivity.
Qed.

Lemma Walker_dist_from_axis_after_eq s p axis n :
  deref_trajectory (heap s) (_path (self s)) = Ok p ->
  Walker_dist_from_axis_after axis n s
  = lift (dist_from_axis_after (_dim (self s)) p axis n) s.
Proof.
  intros E. unfold Walker_dist_from_axis_after. rewrite bind_getself.
  rewrite (bind_done _ _ _ _ _ (read_path_done _ _ E)). reflexivity.
Qed.

(** ** Simulation.__init__ *)

(** The constructor either refuses its arguments with ValueError, or
    returns a Simulation with nothing recorded; the state stays. *)
Lemma Simulation_init_cases (s : State) (times_to_run num_of_steps : Z)
    (axis : list num) (radius : num) :
  (init_rejects s times_to_run num_of_steps axis radius
   /\ Simulation_init times_to_run num_of_steps axis radius s
      = Throw ValueError s)
  \/ (~ init_rejects s times_to_run num_of_steps axis radius
      /\ Simulation_init times_to_run num_of_steps axis radius s =
         Done {| __axis := axis; __radius := radius;
                 __times_to_run := times_to_run;
                 __num_of_steps := num_of_steps; __sims := [] |} s).
Proof.
  unfold init_rejects, Simulation_init.
  destruct (Z.leb_spec times_to_run 0) as [Ht|Ht]; [left; auto|].
  destruct (Z.leb_spec num_of_steps 0) as [Hs|Hs]; [left; auto|].
  destruct (leb radius zero) eqn:Hr; [left; auto|].
  destruct axis as [|a axis]; [left; auto 6|].
  change ((length (a :: axis) =? 0)%nat) with false. cbv iota.
  unfold get_dim, get_restart_every, getself, mbind, M_bind, mret, M_ret, throw.
  destruct (Z.eqb_spec (Z.of_nat (length (a :: axis))) (_dim (self s))) as [Hd|Hd];
    cbn [negb]; [|left; auto 7].
  destruct (Z.ltb_spec num_of_steps (_restart_every (self s))) as [He|He].
  { left. split; [do 5 right; lia|reflexivity]. }
  right. split; [|reflexivity].
  intros [?|[?|[?|[?|[?|?]]]]]; try lia; congruence.
Qed.

(** C8. The constructor raises ValueError exactly when [times_to_run <= 0],
    [steps <= 0], [radius <= 0], the axis is empty, its length is not the
    walker's dimension, or the walker's restart_every exceeds [steps];
    otherwise it returns a Simulation with no recorded trajectory, and
    the state is as before. *)
Theorem Simulation_init_checks (s : State) (times_to_run num_of_steps : Z)
    (axis : list num) (radius : num) :
  (Simulation_init times_to_run num_of_steps axis radius s = Throw ValueError s
   <-> init_rejects s times_to_run num_of_steps axis radius)
  /\ (~ init_rejects s times_to_run num_of_steps axis radius ->
      Simulation_init times_to_run num_of_steps axis radius s =
      Done {| __axis := axis; __radius := radius;
              __times_to_run := times_to_run;
              __num_of_steps := num_of_steps; __sims := [] |} s).
Proof.
  destruct (Simulation_init_cases s times_to_run num_of_steps axis radius)
    as [[Hrej E]|[Hok E]]; rewrite E.
  - split; [split; auto|]. intros Hn. destruct (Hn Hrej).
  - split; [|reflexivity]. split; [discriminate|]. intros Hrej. destruct (Hok Hrej).
Qed.

(** ** get_path and get_current_position *)

Lemma deref_vec_app (σ σ' : store) l v :
  deref_vec σ l = Ok v -> deref_vec (σ ++ σ') l = Ok v.
Proof.
  unfold deref_vec. destruct (σ !! l) as [o|] eqn:E; [|discriminate].
  rewrite (lookup_app_l_Some _ _ _ _ E). auto.
Qed.

Lemma deref_all_app (σ σ' : store) items ps :
  deref_all σ items = Ok ps -> deref_all (σ ++ σ') items = Ok ps.
Proof.
  revert ps. induction items as [|l items IH]; intros ps; simpl; [auto|].
  destruct (deref_vec σ l) as [v|] eqn:Ev; [|discriminate].
  rewrite (deref_vec_app _ σ' _ _ Ev). simpl.
  destruct (deref_all σ items) as [vs|]; [|discriminate].
  rewrite (IH vs eq_refl). auto.
Qed.

Lemma deref_trajectory_inv (σ : store) l t :
  deref_trajectory σ l = Ok t ->
  exists items, σ !! l = Some (PySeq items) /\ deref_all σ items = Ok t.
Proof.
  unfold deref_trajectory, deref_seq.
  destruct (σ !! l) as [[xs|xs|items]|]; try discriminate. simpl. eauto.
Qed.

Lemma deref_trajectory_intro (σ : store) l items t :
  σ !! l = Some (PySeq items) -> deref_all σ items = Ok t ->
  deref_trajectory σ l = Ok t.
Proof. unfold deref_trajectory, deref_seq. intros -> E. exact E. Qed.

Lemma deref_trajectory_app (σ σ' : store) l t :
  deref_trajectory σ l = Ok t -> deref_trajectory (σ ++ σ') l = Ok t.
Proof.
  intros (items & El & Et)%deref_trajectory_inv.
  apply (deref_trajectory_intro _ _ items).
  - apply lookup_app_l_Some, El.
  - apply deref_all_app, Et.
Qed.

Lemma internal_app (s s' : State) (σ' : store) t c :
  internal s = (Ok t, Ok c) ->
  heap s' = heap s ++ σ' -> self s' = self s ->
  internal s' = (Ok t, Ok c).
Proof.
  unfold internal. intros [= Et Ec] -> ->.
  rewrite (deref_trajectory_app _ σ' _ _ Et), (deref_vec_app _ σ' _ _ Ec).
  reflexivity.
Qed.

(** Writing to the newest object is writing to the end of the store. *)
Lemma save_last (s s' : State) (σ : store) (x o : pyobj) :
  heap s = σ ++ [x] -> save (length σ) o s = Done tt s' ->
  heap s' = σ ++ [o] /\ self s' = self s.
Proof.
  unfold save. intros E [= <-]. cbn [heap self]. rewrite E.
  split; [|reflexivity].
  rewrite insert_app_r_alt by lia. rewrite Nat.sub_diag. reflexivity.
Qed.

Lemma slice_all_seq s l items :
  heap s !! l = Some (PySeq items) ->
  slice_all l s =
  Done (length (heap s))
       {| heap := heap s ++ [PySeq items]; gen := gen s; self := self s |}.
Proof.
  intros E. unfold slice_all. rewrite (bind_done _ _ _ _ _ (load_done _ _ _ E)).
  reflexivity.
Qed.

Lemma slice_all_list s l xs :
  heap s !! l = Some (PyList xs) ->
  slice_all l s =
  Done (length (heap s))
       {| heap := heap s ++ [PyList xs]; gen := gen s; self := self s |}.
Proof.
  intros E. unfold slice_all. rewrite (bind_done _ _ _ _ _ (load_done _ _ _ E)).
  reflexivity.
Qed.

Lemma slice_all_array s l xs :
  heap s !! l = Some (NdArray xs) -> slice_all l s = Done l s.
Proof.
  intros E. unfold slice_all. rewrite (bind_done _ _ _ _ _ (load_done _ _ _ E)).
  reflexivity.
Qed.

(** C2, as the code has it. [get_path()] returns a new outer list that
    holds the walker's own point objects: two calls give sequences of
    equal value, and whatever is written to the returned list object
    leaves the walker's trajectory and cursor as they were.
    [get_current_position()] of a list cursor returns a new list of
    equal value, and writing to it leaves the walker as it was. *)
Theorem get_path_shallow_copy (s : State) (t : trajectory) (c : position) :
  internal s = (Ok t, Ok c) ->
  exists p s1 p' s2,
    get_path s = Done p s1 /\ get_path s1 = Done p' s2
    /\ p <> p'
    /\ deref_trajectory (heap s2) p = Ok t
    /\ deref_trajectory (heap s2) p' = Ok t
    /\ internal s1 = (Ok t, Ok c)
    /\ (forall o s3, save p o s1 = Done tt s3 -> internal s3 = (Ok t, Ok c))
    /\ (forall xs, heap s !! _current_position (self s) = Some (PyList xs) ->
        exists q s4,
          get_current_position s = Done q s4
          /\ deref_vec (heap s4) q = Ok c
          /\ forall o s5, save q o s4 = Done tt s5 ->
                          internal s5 = (Ok t, Ok c)).
Proof.
  intros Hint. pose proof Hint as [= Et Ec].
  destruct (deref_trajectory_inv _ _ _ Et) as (items & El & Eall).
  set (s1 := {| heap := heap s ++ [PySeq items]; gen := gen s; self := self s |}).
  set (s2 := {| heap := heap s1 ++ [PySeq items]; gen := gen s1; self := self s1 |}).
  assert (E1 : get_path s = Done (length (heap s)) s1).
  { unfold get_path. rewrite bind_getself.
    apply slice_all_seq, El. }
  assert (El1 : heap s1 !! _path (self s1) = Some (PySeq items)).
  { simpl. apply lookup_app_l_Some, El. }
  assert (E2 : get_path s1 = Done (length (heap s1)) s2).
  { unfold get_path. rewrite bind_getself.
    apply slice_all_seq, El1. }
  exists (length (heap s)), s1, (length (heap s1)), s2.
  split; [exact E1|]. split; [exact E2|].
  split; [simpl; rewrite length_app; simpl; lia|].
  split.
  { apply (deref_trajectory_intro _ _ items).
    - simpl. rewrite <- app_assoc. apply list_lookup_middle. reflexivity.
    - simpl. rewrite <- app_assoc. apply deref_all_app, Eall. }
  split.
  { apply (deref_trajectory_intro _ _ items).
    - simpl. apply list_lookup_middle. reflexivity.
    - simpl. rewrite <- app_assoc. apply deref_all_app, Eall. }
  split; [apply (internal_app s _ [PySeq items] _ _ Hint); reflexivity|].
  split.
  { intros o s3 Hs3.
    destruct (save_last s1 s3 (heap s) (PySeq items) o eq_refl Hs3) as [Eh Es].
    apply (internal_app s _ [o] _ _ Hint); assumption. }
  intros xs Ecur.
  set (s4 := {| heap := heap s ++ [PyList xs]; gen := gen s; self := self s |}).
  exists (length (heap s)), s4.
  assert (Exs : xs = c).
  { unfold deref_vec in Ec. rewrite Ecur in Ec. congruence. }
  split.
  { unfold get_current_position. rewrite bind_getself.
    apply slice_all_list, Ecur. }
  split.
  { unfold deref_vec. cbn [heap s4].
    rewrite list_lookup_middle by reflexivity. rewrite Exs. reflexivity. }
  intros o s5 Hs5.
  destruct (save_last s4 s5 (heap s) (PyList xs) o eq_refl Hs5) as [Eh Es].
  apply (internal_app s _ [o] _ _ Hint); assumption.
Qed.

(** The cursor of an angle, step or biased walker that has stepped is a
    numpy array, and [x[:]] of an array is a view: there the caller gets
    the walker's own buffer. *)
Lemma get_current_position_view (s : State) (xs : list num) :
  heap s !! _current_position (self s) = Some (NdArray xs) ->
  get_current_position s = Done (_current_position (self s)) s.
Proof.
  intros E. unfold get_current_position.
  rewrite bind_getself. apply slice_all_array with xs, E.
Qed.

(** ** get_avg_path *)

Lemma bind_ok_inv {A B : Type} (r : result A) (k : A -> result B) b :
  r ≫= k = Ok b -> exists a, r = Ok a /\ k a = Ok b.
Proof. destruct r as [a|e]; [eauto|discriminate]. Qed.

Lemma index_inv {A : Type} (l : list A) i a : index l i = Ok a -> l !! i = Some a.
Proof. unfold index. destruct (l !! i); congruence. Qed.

Lemma Forall_repeat_intro {A : Type} (P : A -> Prop) (x : A) (n : nat) :
  P x -> Forall P (repeat x n).
Proof. intros Hx. induction n; simpl; constructor; assumption. Qed.

Lemma add_point_length row point js row' :
  add_point row point js = Ok row' -> length row' = length row.
Proof.
  revert row. induction js as [|j js IH]; intros row; simpl.
  - congruence.
  - intros (a & _ & (b & _ & E)%bind_ok_inv)%bind_ok_inv.
    rewrite (IH _ E). apply length_insert.
Qed.

Lemma rows_of_insert d table i row :
  rows_of d table -> length row = d -> rows_of d (<[i := row]> table).
Proof. intros Ht Hr. apply Forall_insert; assumption. Qed.

Lemma add_sim_shape d avg sim rows js avg' :
  add_sim avg sim rows js = Ok avg' -> rows_of d avg ->
  length avg' = length avg /\ rows_of d avg'.
Proof.
  revert avg. induction rows as [|i rows IH]; intros avg; simpl.
  - intros [= <-]. auto.
  - intros (row & Er%index_inv & (pt & _ & (row' & Ep & E)%bind_ok_inv)%bind_ok_inv)%bind_ok_inv Hd.
    destruct (IH _ E) as [Hlen Hrows].
    + apply rows_of_insert; [exact Hd|].
      rewrite (add_point_length _ _ _ _ Ep).
      exact (proj1 (Forall_lookup _ _) Hd _ _ Er).
    + rewrite Hlen, length_insert. auto.
Qed.

Lemma add_sims_shape d avg sims js avg' :
  add_sims avg sims js = Ok avg' -> rows_of d avg ->
  length avg' = length avg /\ rows_of d avg'.
Proof.
  revert avg. induction sims as [|sim sims IH]; intros avg; simpl.
  - intros [= <-]. auto.
  - intros (avg1 & E1 & E)%bind_ok_inv Hd.
    assert (H1 : length avg1 = length avg /\ rows_of d avg1).
    { destruct sim as [|pt sim]; [injection E1 as <-; auto|].
      eapply add_sim_shape; eassumption. }
    destruct H1 as [Hlen1 Hd1]. destruct (IH _ E Hd1) as [Hlen Hrows].
    split; [congruence|assumption].
Qed.

Lemma divide_row_length row n js row' :
  divide_row row n js = Ok row' -> length row' = length row.
Proof.
  revert row. induction js as [|j js IH]; intros row; simpl.
  - congruence.
  - intros (a & _ & E)%bind_ok_inv. destruct (n =? 0); [discriminate|].
    rewrite (IH _ E). apply length_insert.
Qed.

Lemma divide_rows_shape d avg n rows js avg' :
  divide_rows avg n rows js = Ok avg' -> rows_of d avg ->
  length avg' = length avg /\ rows_of d avg'.
Proof.
  revert avg. induction rows as [|i rows IH]; intros avg; simpl.
  - intros [= <-]. auto.
  - intros (row & Er%index_inv & (row' & Ep & E)%bind_ok_inv)%bind_ok_inv Hd.
    destruct (IH _ E) as [Hlen Hrows].
    + apply rows_of_insert; [exact Hd|].
      rewrite (divide_row_length _ _ _ _ Ep).
      exact (proj1 (Forall_lookup _ _) Hd _ _ Er).
    + rewrite Hlen, length_insert. auto.
Qed.

(** Whatever was recorded, the average path has twice [num_of_steps]
    points, each of [dim] coordinates. *)
Lemma avg_path_of_shape (num_of_steps dim : Z) (sims : list trajectory) avg :
  avg_path_of num_of_steps dim sims = Ok avg ->
  Z.of_nat (length avg) = 2 * Z.max 0 num_of_steps
  /\ rows_of (Z.to_nat dim) avg.
Proof.
  unfold avg_path_of. intros (avg1 & E1 & E2)%bind_ok_inv.
  assert (Hz : rows_of (Z.to_nat dim)
                 (repeat (zeros dim) (Z.to_nat num_of_steps)
                  ++ repeat (zeros dim) (Z.to_nat num_of_steps))).
  { apply Forall_app. split; apply Forall_repeat_intro; apply repeat_length. }
  destruct (add_sims_shape _ _ _ _ _ E1 Hz) as [L1 D1].
  destruct (divide_rows_shape _ _ _ _ _ _ E2 D1) as [L2 D2].
  split; [|exact D2].
  rewrite L2, L1, length_app, !repeat_length. lia.
Qed.

Lemma get_avg_path_shape (sim : Simulation) s avg s' :
  get_avg_path sim s = Done avg s' ->
  Z.of_nat (length avg) = 2 * Z.max 0 (__num_of_steps sim)
  /\ rows_of (Z.to_nat (_dim (self s))) avg.
Proof.
  unfold get_avg_path.
  intros (p & s1 & E1 & (items & s2 & E2 & E)%bind_inv)%bind_inv.
  destruct (length items <=? 1)%nat; [discriminate|].
  apply bind_inv in E as (dim & s3 & Ed & E).
  unfold get_dim in Ed. rewrite bind_getself in Ed. injection Ed as <- <-.
  apply bind_inv in E as (σ & s4 & Eσ & E). injection Eσ as <- <-.
  apply bind_inv in E as (sims & s5 & Esims & E). unfold lift in Esims, E.
  destruct (read_sims (heap s2) (__sims sim)) as [ts|]; [|discriminate].
  injection Esims as -> <-.
  destruct (avg_path_of _ _ sims) as [avg'|] eqn:Ea; [|discriminate].
  injection E as <- <-.
  assert (Es : self s2 = self s).
  { apply load_seq_inv in E2 as [-> _].
    unfold get_path in E1. rewrite bind_getself in E1. unfold slice_all in E1.
    apply bind_inv in E1 as (o & s0 & El & E1). unfold load in El.
    destruct (heap s !! _path (self s)) as [o'|]; [|discriminate].
    injection El as <- <-.
    destruct o'; injection E1 as <- <-; reflexivity. }
  rewrite <- Es. apply avg_path_of_shape with sims, Ea.
Qed.

Lemma lookup_alloc s o : heap (s_alloc s o) !! length (heap s) = Some o.
Proof. simpl. apply list_lookup_middle. reflexivity. Qed.

Lemma get_path_done s items :
  heap s !! _path (self s) = Some (PySeq items) ->
  get_path s = Done (length (heap s)) (s_alloc s (PySeq items)).
Proof.
  intros E. unfold get_path. rewrite bind_getself. apply slice_all_seq, E.
Qed.

(** On a walker whose path holds one point at most, as after the
    constructor, [get_avg_path()] raises ValueError. *)
Lemma get_avg_path_before_walk (sim : Simulation) s items :
  heap s !! _path (self s) = Some (PySeq items) -> (length items <= 1)%nat ->
  get_avg_path sim s = Throw ValueError (s_alloc s (PySeq items)).
Proof.
  intros E Hlen. unfold get_avg_path.
  rewrite (bind_done _ _ _ _ _ (get_path_done _ _ E)).
  assert (Ecopy : heap (s_alloc s (PySeq items)) !! length (heap s)
                  = Some (PySeq items)) by apply lookup_alloc.
  rewrite (bind_done _ _ _ _ _ (load_seq_done _ _ _ Ecopy)).
  destruct (Nat.leb_spec (length items) 1); [reflexivity|lia].
Qed.

(** ** What a step leaves alone *)

Lemma frame_refl s : frame s s.
Proof. split; auto. Qed.

Lemma frame_trans s1 s2 s3 : frame s1 s2 -> frame s2 s3 -> frame s1 s3.
Proof.
  intros [Q1 P1 C1] [Q2 P2 C2]. split; [auto|congruence|congruence].
Qed.

Lemma frames_ret {A : Type} (a : A) : frames (mret a).
Proof. intros s. apply frame_refl. Qed.

Lemma frames_throw {A : Type} (e : exn) : frames (@throw _ _ A e).
Proof. intros s. apply frame_refl. Qed.

Lemma frames_out_of_fuel {A : Type} : frames (@out_of_fuel _ _ A).
Proof. intros s. exact I. Qed.

Lemma frames_lift {A : Type} (r : result A) : frames (lift r).
Proof. intros s. unfold lift. destruct r; apply frame_refl. Qed.

Lemma frames_bind {A B : Type} (m : M A) (k : A -> M B) :
  frames m -> (forall a, frames (k a)) -> frames (m ≫= k).
Proof.
  intros Hm Hk s. specialize (Hm s). unfold mbind, M_bind.
  destruct (m s) as [a s1|e s1|]; [|exact Hm|exact I].
  specialize (Hk a s1). destruct (k a s1) as [b s2|e s2|]; [| |exact I];
    eapply frame_trans; eassumption.
Qed.

Lemma frames_getself : frames getself.
Proof. intros s. apply frame_refl. Qed.

Lemma frames_draw {A : Type} (f : rng -> A * rng) : frames (draw f).
Proof. intros s. unfold draw. destruct (f (gen s)). split; auto. Qed.

Lemma frames_alloc (o : pyobj) : frames (alloc o).
Proof.
  intros s. split; simpl; auto. intros l items E. apply lookup_app_l_Some, E.
Qed.

Lemma frames_load (l : loc) : frames (load l).
Proof. intros s. unfold load. destruct (heap s !! l); apply frame_refl. Qed.

Lemma frames_set_position (l : loc) : frames (set_position l).
Proof. intros s. split; simpl; auto. Qed.

(** Writing a vector where a vector was keeps every list of references. *)
Lemma frame_save_vec s l (old new : pyobj) :
  heap s !! l = Some old ->
  (forall items, old <> PySeq items) ->
  frame s {| heap := <[l := new]> (heap s); gen := gen s; self := self s |}.
Proof.
  intros Eold Hold. split; simpl; auto. intros l' items E.
  destruct (decide (l = l')) as [<-|Hne].
  - rewrite Eold in E. injection E as ->. destruct (Hold items eq_refl).
  - rewrite list_lookup_insert_ne by assumption. exact E.
Qed.

Create HintDb frames.
#[local] Hint Resolve frames_ret frames_throw frames_lift frames_getself
  frames_draw frames_alloc frames_load frames_set_position
  frames_out_of_fuel : frames.

(** Goes through a computation bind by bind, and by cases on what it
    branches on. *)
Ltac frames_auto :=
  repeat first
    [ progress auto with frames
    | apply frames_bind; [|intros]
    | match goal with
      | |- frames (match ?x with _ => _ end) => destruct x
      | |- frames (if ?b then _ else _) => destruct b
      end ].

Lemma frames_load_vec l : frames (load_vec l).
Proof. unfold load_vec. frames_auto. Qed.

Lemma frames_load_seq l : frames (load_seq l).
Proof. unfold load_seq. frames_auto. Qed.

Lemma frames_slice_all l : frames (slice_all l).
Proof. unfold slice_all. frames_auto. Qed.

#[local] Hint Resolve frames_load_vec frames_load_seq frames_slice_all : frames.

Lemma frames_to_list l : frames (to_list l).
Proof. unfold to_list. frames_auto. Qed.

Lemma frames_iadd l v : frames (iadd l v).
Proof.
  intros s. unfold iadd, load, mbind, M_bind.
  destruct (heap s !! l) as [[xs|xs|items]|] eqn:E; try apply frame_refl.
  - unfold lift. destruct (np_broadcast add xs v); [|apply frame_refl].
    apply frames_alloc.
  - unfold lift. destruct (np_inplace add xs v); [|apply frame_refl].
    simpl. apply (frame_save_vec s l _ _ E). discriminate.
Qed.

Lemma frames_store_item l i a : frames (store_item l i a).
Proof.
  intros s. unfold store_item, load, mbind, M_bind.
  destruct (heap s !! l) as [[xs|xs|items]|] eqn:E; try apply frame_refl.
  - destruct (i <? length xs)%nat; [|apply frame_refl].
    apply (frame_save_vec s l _ _ E). discriminate.
  - destruct (i <? length xs)%nat; [|apply frame_refl].
    apply (frame_save_vec s l _ _ E). discriminate.
Qed.

Lemma frames_normalize_vector d : frames (normalize_vector d).
Proof. unfold normalize_vector. frames_auto. Qed.

Lemma frames_random_choice {A : Type} (seq : list A) : frames (random_choice seq).
Proof. unfold random_choice. frames_auto. Qed.

Lemma frames_random_randint a b : frames (random_randint a b).
Proof. unfold random_randint. frames_auto. Qed.

Lemma frames_restart : frames restart.
Proof. unfold restart. frames_auto. Qed.

#[local] Hint Resolve frames_to_list frames_iadd frames_store_item
  frames_normalize_vector frames_random_choice frames_random_randint
  frames_restart : frames.

Lemma frames_RandomGridWalker_step : frames RandomGridWalker_step.
Proof. unfold RandomGridWalker_step. frames_auto. Qed.

#[local] Hint Resolve frames_RandomGridWalker_step : frames.

Lemma frames_step : frames step.
Proof.
  unfold step, RandomAngleWalker_step, RandomStepWalker_step,
    BiasedRandomWalker_step, RandomSearcher_step.
  frames_auto.
Qed.

#[local] Hint Resolve frames_step : frames.

Lemma frames_resample fuel tree pos : frames (resample fuel tree pos).
Proof.
  revert pos. induction fuel as [|fuel IH]; intros pos; simpl; frames_auto.
Qed.

#[local] Hint Resolve frames_resample : frames.

Lemma frames_skip_obstacles fuel pos : frames (skip_obstacles fuel pos).
Proof. unfold skip_obstacles. frames_auto. Qed.

Lemma frames_pass_gates pos : frames (pass_gates pos).
Proof. unfold pass_gates. frames_auto. Qed.

Lemma frames_roll_restart i pos : frames (roll_restart i pos).
Proof. unfold roll_restart. frames_auto. Qed.

(** ** Walker.walk: one point per step *)

Lemma frames_done {A : Type} (m : M A) s a s' :
  frames m -> m s = Done a s' -> frame s s'.
Proof. intros Hm E. specialize (Hm s). rewrite E in Hm. exact Hm. Qed.

Lemma append_to_path_done pos s items :
  heap s !! _path (self s) = Some (PySeq items) ->
  append_to_path pos s =
  Done tt {| heap := <[_path (self s) := PySeq (items ++ [pos])]> (heap s);
             gen := gen s; self := self s |}.
Proof.
  intros E. unfold append_to_path. rewrite bind_getself.
  rewrite (bind_done _ _ _ _ _ (load_seq_done _ _ _ E)). reflexivity.
Qed.

Lemma append_to_path_inv pos s s' :
  append_to_path pos s = Done tt s' ->
  exists items,
    heap s !! _path (self s) = Some (PySeq items)
    /\ s' = {| heap := <[_path (self s) := PySeq (items ++ [pos])]> (heap s);
               gen := gen s; self := self s |}.
Proof.
  unfold append_to_path. rewrite bind_getself.
  intros (items & s1 & [-> E]%load_seq_inv & Es)%bind_inv.
  exists items. split; [exact E|]. injection Es as <-. reflexivity.
Qed.

(** The candidate position of a round is computed without touching the
    path; then it is appended. *)
Lemma walk_body_appends fuel i s s' items :
  heap s !! _path (self s) = Some (PySeq items) ->
  walk_body fuel i s = Done tt s' ->
  exists pos,
    heap s' !! _path (self s') = Some (PySeq (items ++ [pos]))
    /\ _path (self s') = _path (self s).
Proof.
  intros Epath. unfold walk_body.
  intros (pos1 & s1 & E1 & E)%bind_inv.
  pose proof (frames_done _ _ _ _ frames_step E1) as F1.
  apply bind_inv in E as (pos2 & s2 & E2 & E).
  pose proof (frames_done _ _ _ _ (frames_skip_obstacles _ _) E2) as F2.
  apply bind_inv in E as (pos3 & s3 & E3 & E).
  pose proof (frames_done _ _ _ _ (frames_pass_gates _) E3) as F3.
  apply bind_inv in E as (pos4 & s4 & E4 & E).
  pose proof (frames_done _ _ _ _ (frames_roll_restart _ _) E4) as F4.
  pose proof (frame_trans _ _ _ (frame_trans _ _ _ (frame_trans _ _ _ F1 F2) F3) F4)
    as [Fseq Fpath _].
  apply append_to_path_inv in E as (items' & Eitems & ->).
  pose proof (Fseq _ _ Epath) as Eitems'. rewrite Fpath in Eitems.
  pose proof (eq_trans (eq_sym Eitems) Eitems') as [= ->].
  exists pos4. cbn [heap self]. split; [|exact Fpath].
  apply list_lookup_insert_eq. apply lookup_lt_is_Some. rewrite Fpath. eauto.
Qed.

Lemma walk_loop_appends fuel range s s' items :
  heap s !! _path (self s) = Some (PySeq items) ->
  walk_loop fuel range s = Done tt s' ->
  exists added,
    heap s' !! _path (self s') = Some (PySeq (items ++ added))
    /\ length added = length range
    /\ _path (self s') = _path (self s).
Proof.
  revert s items. induction range as [|i range IH]; intros s items Epath; simpl.
  - intros [= <-]. exists []. rewrite app_nil_r. auto.
  - intros ([] & s1 & E1 & E)%bind_inv.
    destruct (walk_body_appends _ _ _ _ _ Epath E1) as (pos & Epath1 & P1).
    destruct (IH _ _ Epath1 E) as (added & Epath' & Hlen & P').
    exists (pos :: added). rewrite <- app_assoc in Epath'.
    split; [exact Epath'|]. split; [simpl; lia|congruence].
Qed.

Lemma length_range (n : Z) : Z.of_nat (length (range n)) = Z.max 0 n.
Proof. unfold range. rewrite length_map, length_seq. lia. Qed.

(** C3. [walk(steps)] raises ValueError when [steps <= 0]; and for
    [steps >= 1], whenever it returns, the path object is the one it
    was and holds its previous points followed by exactly [steps] new
    ones. *)
Theorem walk_appends_steps (fuel : nat) (steps : Z) (s : State) :
  (steps <= 0 -> walk fuel steps s = Throw ValueError s)
  /\ (1 <= steps ->
      forall items s',
        heap s !! _path (self s) = Some (PySeq items) ->
        walk fuel steps s = Done tt s' ->
        exists added,
          heap s' !! _path (self s') = Some (PySeq (items ++ added))
          /\ Z.of_nat (length (items ++ added)) = Z.of_nat (length items) + steps
          /\ _path (self s') = _path (self s)).
Proof.
  unfold walk. split.
  - intros Hle. destruct (Z.leb_spec steps 0); [reflexivity|lia].
  - intros Hge items s' Epath. destruct (Z.leb_spec steps 0); [lia|].
    intros E.
    destruct (walk_loop_appends _ _ _ _ _ Epath E) as (added & Epath' & Hlen & P).
    exists added. split; [exact Epath'|]. split; [|exact P].
    rewrite length_app, Nat2Z.inj_add, Hlen, length_range. lia.
Qed.

(** ** A constructed walker never fails to step *)

Lemma set_position_done l s : set_position l s = Done tt (s_cursor s l).
Proof. reflexivity. Qed.

Lemma alloc_done o s : alloc o s = Done (length (heap s)) (s_alloc s o).
Proof. reflexivity. Qed.

Lemma draw_done {A : Type} (f : rng -> A * rng) s :
  draw f s = Done (fst (f (gen s))) (s_gen s (snd (f (gen s)))).
Proof. unfold draw. destruct (f (gen s)). reflexivity. Qed.

Lemma lookup_alloc_old s o l x :
  heap s !! l = Some x -> heap (s_alloc s o) !! l = Some x.
Proof. simpl. apply lookup_app_l_Some. Qed.

Lemma lookup_save s l o x :
  heap s !! l = Some x -> heap (s_save s l o) !! l = Some o.
Proof.
  intros E. simpl. apply list_lookup_insert_eq. apply lookup_lt_is_Some. eauto.
Qed.

Lemma normalize_vector_done d s :
  1 < d ->
  exists v g, normalize_vector d s = Done v (s_gen s g)
              /\ length v = Z.to_nat d.
Proof.
  intros Hd. unfold normalize_vector. destruct (Z.leb_spec d 1); [lia|].
  rewrite (bind_done _ _ _ _ _ (draw_done _ s)).
  eexists _, _. split; [reflexivity|].
  rewrite length_map. apply np_randn_length.
Qed.

Lemma np_broadcast_same f xs ys :
  length xs = length ys -> np_broadcast f xs ys = Ok (zip_with f xs ys).
Proof. intros E. unfold np_broadcast. rewrite E, Nat.eqb_refl. reflexivity. Qed.

Lemma np_inplace_same f xs ys :
  length xs = length ys -> np_inplace f xs ys = Ok (zip_with f xs ys).
Proof. intros E. unfold np_inplace. rewrite E, Nat.eqb_refl. reflexivity. Qed.

Lemma length_zip_with_same {A B C : Type} (f : A -> B -> C) xs ys :
  length xs = length ys -> length (zip_with f xs ys) = length xs.
Proof. intros E. rewrite length_zip_with. lia. Qed.

Lemma iadd_list s l xs v :
  heap s !! l = Some (PyList xs) -> length xs = length v ->
  iadd l v s = Done (length (heap s)) (s_alloc s (NdArray (zip_with add xs v))).
Proof.
  intros E Hlen. unfold iadd. rewrite (bind_done _ _ _ _ _ (load_done _ _ _ E)).
  rewrite (np_broadcast_same _ _ _ Hlen). reflexivity.
Qed.

Lemma iadd_array s l xs v :
  heap s !! l = Some (NdArray xs) -> length xs = length v ->
  iadd l v s = Done l (s_save s l (NdArray (zip_with add xs v))).
Proof.
  intros E Hlen. unfold iadd. rewrite (bind_done _ _ _ _ _ (load_done _ _ _ E)).
  rewrite (np_inplace_same _ _ _ Hlen). reflexivity.
Qed.

Lemma to_list_array s l xs :
  heap s !! l = Some (NdArray xs) ->
  to_list l s = Done (length (heap s)) (s_alloc s (PyList xs)).
Proof.
  intros E. unfold to_list. rewrite (bind_done _ _ _ _ _ (load_vec_array _ _ _ E)).
  reflexivity.
Qed.

(** The common end of the angle, step and biased steps: add an array of
    the walker's dimension to the cursor, return a list of the sum. *)
Lemma add_to_cursor_ok s c o v :
  heap s !! c = Some o -> is_vec (Z.to_nat (_dim (self s))) o ->
  length v = Z.to_nat (_dim (self s)) ->
  (forall t, variant (self s) <> RandomSearcher t) ->
  exists pos s',
    (c' ← iadd c v; set_position c';; to_list c') s = Done pos s'
    /\ cursor_ok s' /\ vec_at s' pos.
Proof.
  intros E Hvec Hv Hvar. destruct o as [xs|xs|items]; [| |destruct Hvec];
    simpl in Hvec.
  - rewrite (bind_done _ _ _ _ _ (iadd_list _ _ _ _ E (eq_trans Hvec (eq_sym Hv)))).
    set (ys := zip_with add xs v).
    assert (Hys : length ys = Z.to_nat (_dim (self s))).
    { unfold ys. rewrite length_zip_with_same; congruence. }
    rewrite (bind_done _ _ _ _ _ (set_position_done _ _)).
    set (s2 := s_cursor (s_alloc s (NdArray ys)) (length (heap s))).
    assert (E2 : heap s2 !! length (heap s) = Some (NdArray ys))
      by apply lookup_alloc.
    rewrite (to_list_array _ _ _ E2).
    eexists _, _. split; [reflexivity|]. split.
    + exists (NdArray ys). split; [apply lookup_alloc_old, E2|].
      split; [exact Hys|]. intros t Ht. destruct (Hvar _ Ht).
    + exists (PyList ys). split; [apply lookup_alloc|exact Hys].
  - rewrite (bind_done _ _ _ _ _ (iadd_array _ _ _ _ E (eq_trans Hvec (eq_sym Hv)))).
    set (ys := zip_with add xs v).
    assert (Hys : length ys = Z.to_nat (_dim (self s))).
    { unfold ys. rewrite length_zip_with_same; congruence. }
    rewrite (bind_done _ _ _ _ _ (set_position_done _ _)).
    set (s2 := s_cursor (s_save s c (NdArray ys)) c).
    assert (E2 : heap s2 !! c = Some (NdArray ys))
      by apply (lookup_save s c _ _ E).
    rewrite (to_list_array _ _ _ E2).
    eexists _, _. split; [reflexivity|]. split.
    + exists (NdArray ys). split; [apply lookup_alloc_old, E2|].
      split; [exact Hys|]. intros t Ht. destruct (Hvar _ Ht).
    + exists (PyList ys). split; [apply lookup_alloc|exact Hys].
Qed.

(** [self._current_position = self._current_position[:]]: the cursor is
    again a vector of the walker's dimension, of the kind it was. *)
Lemma slice_cursor_ok s :
  cursor_ok s ->
  exists c s1 o,
    (c ← slice_all (_current_position (self s)); set_position c;; mret c) s
    = Done c s1
    /\ _current_position (self s1) = c
    /\ heap s1 !! c = Some o
    /\ is_vec (Z.to_nat (_dim (self s))) o
    /\ (forall t, variant (self s) = RandomSearcher t -> exists xs, o = PyList xs)
    /\ settings (self s1) = settings (self s)
    /\ gen s1 = gen s.
Proof.
  intros (o & E & Hvec & Hlist).
  destruct o as [xs|xs|items]; [| |destruct Hvec].
  - rewrite (bind_done _ _ _ _ _ (slice_all_list _ _ _ E)).
    rewrite (bind_done _ _ _ _ _ (set_position_done _ _)).
    eexists _, _, (PyList xs). split; [reflexivity|].
    split; [reflexivity|]. split; [apply lookup_alloc|]. auto.
  - rewrite (bind_done _ _ _ _ _ (slice_all_array _ _ _ E)).
    rewrite (bind_done _ _ _ _ _ (set_position_done _ _)).
    eexists _, _, (NdArray xs). split; [reflexivity|].
    split; [reflexivity|]. split; [exact E|]. auto.
Qed.

Lemma dim_of_settings w w' : settings w' = settings w -> _dim w' = _dim w.
Proof. unfold settings. congruence. Qed.

Lemma variant_of_settings w w' :
  settings w' = settings w -> variant w' = variant w.
Proof. unfold settings. congruence. Qed.

Lemma RandomAngleWalker_step_ok size s :
  valid_walker (self s) -> cursor_ok s ->
  (forall t, variant (self s) <> RandomSearcher t) ->
  exists pos s', RandomAngleWalker_step size s = Done pos s'
                 /\ cursor_ok s' /\ vec_at s' pos.
Proof.
  intros Hv Hc Hvar. unfold RandomAngleWalker_step. rewrite bind_getself.
  destruct (slice_cursor_ok s Hc) as (c & s1 & o & E1 & _ & Eo & Hvec & _ & Hset & _).
  apply bind_inv in E1 as (c0 & s0 & Eslice & E1).
  rewrite (bind_done _ _ _ _ _ Eslice).
  apply bind_inv in E1 as ([] & s0' & Epos & [= -> ->]).
  rewrite (bind_done _ _ _ _ _ Epos).
  destruct (normalize_vector_done (_dim (self s)) s1 (valid_dim _ Hv))
    as (v & g & En & Hlen).
  rewrite (bind_done _ _ _ _ _ En).
  apply (add_to_cursor_ok (s_gen s1 g) c o); cbn [heap self s_gen].
  - exact Eo.
  - rewrite (dim_of_settings _ _ Hset). exact Hvec.
  - rewrite length_map, Hlen, (dim_of_settings _ _ Hset). reflexivity.
  - rewrite (variant_of_settings _ _ Hset). exact Hvar.
Qed.

Lemma RandomStepWalker_step_ok lo hi s :
  valid_walker (self s) -> cursor_ok s ->
  (forall t, variant (self s) <> RandomSearcher t) ->
  exists pos s', RandomStepWalker_step lo hi s = Done pos s'
                 /\ cursor_ok s' /\ vec_at s' pos.
Proof.
  intros Hv Hc Hvar. unfold RandomStepWalker_step.
  rewrite (bind_done _ _ _ _ _ (draw_done _ s)).
  set (s0 := s_gen s _). set (size := fst _).
  apply (RandomAngleWalker_step_ok size s0); assumption.
Qed.

(** Runs the first two statements of a step on a good cursor. *)
Ltac slice_cursor Hc c s1 o Ecur Eo Hvec Hlist Hset :=
  let E1 := fresh "E" in
  let c0 := fresh "c" in
  let s0 := fresh "s" in
  let s0' := fresh "s" in
  let Eslice := fresh "Eslice" in
  let Epos := fresh "Epos" in
  destruct (slice_cursor_ok _ Hc)
    as (c & s1 & o & E1 & Ecur & Eo & Hvec & Hlist & Hset & _);
  apply bind_inv in E1 as (c0 & s0 & Eslice & E1);
  rewrite (bind_done _ _ _ _ _ Eslice);
  apply bind_inv in E1 as ([] & s0' & Epos & E1);
  injection E1 as -> ->;
  rewrite (bind_done _ _ _ _ _ Epos).

Lemma load_vec_done s l o n :
  heap s !! l = Some o -> is_vec n o ->
  exists xs, load_vec l s = Done xs s /\ length xs = n.
Proof.
  intros E Hvec. destruct o as [xs|xs|items]; [| |destruct Hvec]; exists xs.
  - split; [apply load_vec_list, E|exact Hvec].
  - split; [apply load_vec_array, E|exact Hvec].
Qed.

Lemma BiasedRandomWalker_step_ok bias strength size s :
  valid_walker (self s) -> cursor_ok s ->
  variant (self s) = BiasedRandomWalker bias strength size ->
  exists pos s', BiasedRandomWalker_step bias strength size s = Done pos s'
                 /\ cursor_ok s' /\ vec_at s' pos.
Proof.
  intros Hv Hc Hvar. unfold BiasedRandomWalker_step. rewrite bind_getself.
  slice_cursor Hc c s1 o Ecur1 Eo Hvec Hlist Hset.
  destruct (normalize_vector_done (_dim (self s)) s1 (valid_dim _ Hv))
    as (v & g & En & Hlen).
  rewrite (bind_done _ _ _ _ _ En).
  set (s2 := s_gen s1 g).
  assert (Eo2 : heap s2 !! c = Some o) by exact Eo.
  assert (Hdim2 : _dim (self s2) = _dim (self s))
    by (apply dim_of_settings, Hset).
  assert (Hbias : exists b,
             match bias with
             | Some (b :: bs) => mret (map of_int (b :: bs))
             | _ => xs ← load_vec c; mret (map opp xs)
             end s2 = Done b s2
             /\ length b = Z.to_nat (_dim (self s))).
  { destruct (load_vec_done s2 c o _ Eo2 Hvec) as (xs & Exs & Hxs).
    assert (Hcur : exists b, (xs ← load_vec c; mret (map opp xs)) s2 = Done b s2
                             /\ length b = Z.to_nat (_dim (self s))).
    { rewrite (bind_done _ _ _ _ _ Exs). eexists. split; [reflexivity|].
      rewrite length_map. exact Hxs. }
    destruct bias as [[|b bs]|]; try exact Hcur.
    eexists. split; [reflexivity|]. rewrite length_map.
    eapply valid_bias; eassumption. }
  destruct Hbias as (b & Eb & Hb). rewrite (bind_done _ _ _ _ _ Eb).
  assert (Hcomb : exists cd,
             (if ltb strength one
              then cd ← lift (np_broadcast add
                                (map (mul (sub one strength)) v)
                                (map (mul strength) b));
                   mret (map (fun x => div x (norm cd)) cd)
              else mret b) s2 = Done cd s2
             /\ length cd = Z.to_nat (_dim (self s))).
  { destruct (ltb strength one).
    - rewrite np_broadcast_same by (rewrite !length_map; congruence).
      eexists. split; [reflexivity|].
      rewrite length_map, length_zip_with_same; rewrite !length_map; congruence.
    - eexists. split; [reflexivity|exact Hb]. }
  destruct Hcomb as (cd & Ecd & Hcd). rewrite (bind_done _ _ _ _ _ Ecd).
  apply (add_to_cursor_ok s2 c o).
  - exact Eo2.
  - rewrite Hdim2. exact Hvec.
  - rewrite length_map, Hcd, Hdim2. reflexivity.
  - intros t. unfold s2. cbn [self s_gen].
    rewrite (variant_of_settings _ _ Hset), Hvar. discriminate.
Qed.

Lemma random_choice_done {A : Type} (seq : list A) s :
  seq <> [] -> exists a g, random_choice seq s = Done a (s_gen s g).
Proof.
  intros Hne. unfold random_choice. destruct seq as [|a0 seq]; [congruence|].
  rewrite (bind_done _ _ _ _ _ (draw_done _ s)).
  set (i := fst _).
  destruct (lookup_lt_is_Some_2 (a0 :: seq) i) as [a Ea].
  { apply random_below_lt. simpl. lia. }
  exists a, (snd (random_below (gen s) (length (a0 :: seq)))).
  unfold lift. rewrite (index_Some _ _ _ Ea). reflexivity.
Qed.

Lemma random_randint_done a b s :
  a <= b ->
  exists z g, random_randint a b s = Done z (s_gen s g) /\ a <= z <= b.
Proof.
  intros Hab. unfold random_randint. destruct (Z.ltb_spec b a); [lia|].
  rewrite (bind_done _ _ _ _ _ (draw_done _ s)).
  eexists _, _. split; [reflexivity|].
  pose proof (random_below_lt (gen s) (Z.to_nat (b - a + 1))). lia.
Qed.

Lemma lookup_map_seq {A : Type} (f : nat -> A) (a n d : nat) :
  (d < n)%nat -> map f (seq a n) !! d = Some (f (a + d)%nat).
Proof.
  revert a d. induction n as [|n IH]; intros a d Hd; [lia|].
  destruct d as [|d]; simpl.
  - f_equal. f_equal. lia.
  - rewrite IH by lia. f_equal. f_equal. lia.
Qed.

(** [vectors[d][d]] is there for every direction that can be drawn. *)
Lemma basis_entry (dim : Z) (d : nat) :
  (d < Z.to_nat dim)%nat ->
  exists row, index (get_basis_vectors dim) d = Ok row /\ index row d = Ok 1.
Proof.
  intros Hd. unfold get_basis_vectors.
  exists (<[d := 1]> (repeat 0 (Z.to_nat dim))). split.
  - apply index_Some. rewrite lookup_map_seq by assumption. reflexivity.
  - apply index_Some. apply list_lookup_insert_eq. rewrite repeat_length. exact Hd.
Qed.

Lemma store_item_done s l o n i a :
  heap s !! l = Some o -> is_vec n o -> (i < n)%nat ->
  exists o', store_item l i a s = Done tt (s_save s l o')
             /\ is_vec n o'
             /\ ((exists xs, o = PyList xs) -> exists xs', o' = PyList xs').
Proof.
  intros E Hvec Hi. unfold store_item.
  rewrite (bind_done _ _ _ _ _ (load_done _ _ _ E)).
  destruct o as [xs|xs|items]; [| |destruct Hvec]; simpl in Hvec;
    (destruct (Nat.ltb_spec i (length xs)); [|lia]);
    eexists; (split; [reflexivity|]); (split; [simpl; rewrite length_insert; exact Hvec|]).
  - eauto.
  - intros [xs' [=]].
Qed.

Lemma RandomGridWalker_step_ok s :
  valid_walker (self s) -> cursor_ok s ->
  exists pos s', RandomGridWalker_step s = Done pos s'
                 /\ cursor_ok s' /\ vec_at s' pos.
Proof.
  intros Hv Hc. unfold RandomGridWalker_step. rewrite bind_getself.
  slice_cursor Hc c s1 o Ecur1 Eo Hvec Hlist Hset.
  destruct (random_choice_done [-1; 1] s1 ltac:(discriminate)) as (sign & g1 & Esign).
  rewrite (bind_done _ _ _ _ _ Esign).
  pose proof (valid_dim _ Hv) as Hdim.
  destruct (random_randint_done 0 (_dim (self s) - 1) (s_gen s1 g1) ltac:(lia))
    as (z & g2 & Ez & Hz).
  rewrite (bind_done _ _ _ _ _ Ez). cbv zeta.
  set (s3 := s_gen (s_gen s1 g1) g2).
  assert (Eo3 : heap s3 !! c = Some o) by exact Eo.
  destruct (load_vec_done s3 c o _ Eo3 Hvec) as (xs & Exs & Hxs).
  rewrite (bind_done _ _ _ _ _ Exs).
  destruct (lookup_lt_is_Some_2 xs (Z.to_nat z)) as [x Ex]; [lia|].
  unfold lift at 1. rewrite (index_Some _ _ _ Ex).
  destruct (basis_entry (_dim (self s)) (Z.to_nat z)) as (row & Erow & Ev); [lia|].
  unfold mbind at 1, M_bind at 1.
  unfold lift at 1. rewrite Erow. unfold mbind at 1, M_bind at 1.
  unfold lift at 1. rewrite Ev. unfold mbind at 1, M_bind at 1.
  destruct (store_item_done s3 c o _ (Z.to_nat z) (add x (of_int (sign * 1)))
              Eo3 Hvec ltac:(lia)) as (o' & Estore & Hvec' & Hlist').
  rewrite (bind_done _ _ _ _ _ Estore).
  eexists _, _. split; [reflexivity|].
  assert (Eo' : heap (s_save s3 c o') !! c = Some o')
    by (apply (lookup_save s3 c _ _ Eo3)).
  assert (Hdim' : _dim (self (s_save s3 c o')) = _dim (self s))
    by (apply dim_of_settings, Hset).
  assert (Ecur : _current_position (self (s_save s3 c o')) = c)
    by exact Ecur1.
  split.
  - exists o'. rewrite Ecur, Hdim'. split; [exact Eo'|]. split; [exact Hvec'|].
    intros t Ht. apply Hlist'. apply (Hlist t).
    rewrite <- (variant_of_settings _ _ Hset). exact Ht.
  - exists o'. rewrite Hdim'. split; [exact Eo'|exact Hvec'].
Qed.

Lemma RandomSearcher_step_ok target s :
  valid_walker (self s) -> cursor_ok s ->
  variant (self s) = RandomSearcher target ->
  exists pos s', RandomSearcher_step target s = Done pos s'
                 /\ cursor_ok s' /\ vec_at s' pos.
Proof.
  intros Hv Hc Hvar. unfold RandomSearcher_step. rewrite bind_getself.
  pose proof Hc as (o & Eo & Hvec & Hlist).
  rewrite (bind_done _ _ _ _ _ (load_done _ _ _ Eo)).
  destruct (Hlist _ Hvar) as [xs ->].
  destruct (_ && _).
  - eexists _, _. split; [reflexivity|]. split; [exact Hc|].
    exists (PyList xs). auto.
  - apply RandomGridWalker_step_ok; assumption.
Qed.

(** Whatever the subclass, [step()] on a valid walker with a good cursor
    returns a vector of the walker's dimension and leaves a good
    cursor. *)
Lemma step_ok s :
  valid_walker (self s) -> cursor_ok s ->
  exists pos s', step s = Done pos s' /\ cursor_ok s' /\ vec_at s' pos.
Proof.
  intros Hv Hc. unfold step. rewrite bind_getself.
  destruct (variant (self s)) as [size|lo hi| |bias strength size|target] eqn:Hvar.
  - apply RandomAngleWalker_step_ok; try assumption. rewrite Hvar. discriminate.
  - apply RandomStepWalker_step_ok; try assumption. rewrite Hvar. discriminate.
  - apply RandomGridWalker_step_ok; assumption.
  - apply BiasedRandomWalker_step_ok; assumption.
  - apply RandomSearcher_step_ok; assumption.
Qed.

Lemma valid_walker_settings w w' :
  settings w' = settings w -> valid_walker w -> valid_walker w'.
Proof.
  unfold settings. intros [= E1 E2 E3 E4 E5 E6 E7 E8] [V1 V2 V3 V4 V5].
  split; rewrite ?E3, ?E4, ?E5, ?E7, ?E8; assumption.
Qed.

Lemma valid_walker_frame s s' :
  frame s s' -> valid_walker (self s) -> valid_walker (self s').
Proof. intros [_ _ E]. apply valid_walker_settings, E. Qed.

Lemma dests_ok_frame s s' : frame s s' -> dests_ok s -> dests_ok s'.
Proof.
  intros [Fseq _ E] Hd d Ed.
  assert (Ed' : _magic_gates_destinations (self s) = Some d).
  { unfold settings in E. congruence. }
  destruct (Hd d Ed') as [items Ei]. exists items. apply Fseq, Ei.
Qed.

Lemma query_ball_point_done tree xs r :
  length xs = kd_m tree -> exists hits, query_ball_point tree xs r = Ok hits.
Proof.
  intros E. unfold query_ball_point. rewrite E, Nat.eqb_refl. simpl. eauto.
Qed.

Lemma resample_ok fuel tree pos s :
  valid_walker (self s) -> cursor_ok s -> vec_at s pos ->
  _obstacles (self s) = Some tree ->
  match resample fuel tree pos s with
  | Done pos' s' => cursor_ok s' /\ vec_at s' pos'
  | Throw _ _ => False
  | OutOfFuel => True
  end.
Proof.
  revert pos s. induction fuel as [|fuel IH]; intros pos s Hv Hc (o & Eo & Hvec) Hobs;
    simpl;
    destruct (load_vec_done s pos o _ Eo Hvec) as (xs & Exs & Hxs);
    rewrite (bind_done _ _ _ _ _ Exs);
    (destruct (query_ball_point_done tree xs one) as [hits Eh];
      [rewrite (valid_obstacles _ Hv _ Hobs); exact Hxs|]);
    unfold lift at 1; rewrite Eh; unfold mbind at 1, M_bind at 1;
    (destruct hits as [|h hits]; [split; [exact Hc|exists o; auto]|]).
  - exact I.
  - destruct (step_ok s Hv Hc) as (pos' & s' & Estep & Hc' & Hpos').
    rewrite (bind_done _ _ _ _ _ Estep).
    pose proof (frames_done _ _ _ _ frames_step Estep) as F.
    apply IH; try assumption.
    + apply (valid_walker_frame _ _ F Hv).
    + destruct F as [_ _ E]. unfold settings in E. congruence.
Qed.

Lemma skip_obstacles_ok fuel pos s :
  valid_walker (self s) -> cursor_ok s -> vec_at s pos ->
  goes_on s (skip_obstacles fuel pos s)
    (fun pos' s' => cursor_ok s' /\ vec_at s' pos').
Proof.
  intros Hv Hc Hpos. unfold skip_obstacles. rewrite bind_getself.
  destruct (_obstacles (self s)) as [tree|] eqn:Hobs.
  - pose proof (resample_ok fuel tree pos s Hv Hc Hpos Hobs) as Hr.
    unfold goes_on. destruct (resample fuel tree pos s); [exact Hr|exact Hr|].
    rewrite Hobs. discriminate.
  - simpl. auto.
Qed.

(** A gate only swaps the candidate: the store and the walker stay. *)
Lemma pass_gates_ok pos s :
  valid_walker (self s) -> dests_ok s -> vec_at s pos ->
  exists pos' g, pass_gates pos s = Done pos' (s_gen s g).
Proof.
  intros Hv Hd (o & Eo & Hvec). unfold pass_gates. rewrite bind_getself.
  assert (Hsame : exists pos' g, (mret pos : M loc) s = Done pos' (s_gen s g)).
  { exists pos, (gen s). destruct s. reflexivity. }
  destruct (_magic_gates_placements (self s)) as [tree|] eqn:Hpl; [|exact Hsame].
  destruct (_magic_gates_destinations (self s)) as [d|] eqn:Hds; [|exact Hsame].
  destruct (Hd d Hds) as [dests Edests].
  rewrite (bind_done _ _ _ _ _ (load_seq_done _ _ _ Edests)).
  destruct dests as [|d0 dests]; [exact Hsame|].
  destruct (load_vec_done s pos o _ Eo Hvec) as (xs & Exs & Hxs).
  rewrite (bind_done _ _ _ _ _ Exs).
  destruct (query_ball_point_done tree xs zero) as [hits Eh].
  { rewrite (valid_placements _ Hv _ Hpl). exact Hxs. }
  unfold lift at 1. rewrite Eh. unfold mbind at 1, M_bind at 1.
  destruct hits as [|h hits]; [exact Hsame|].
  apply random_choice_done. discriminate.
Qed.

Lemma restart_ok s :
  valid_walker (self s) ->
  exists q s', restart s = Done q s' /\ cursor_ok s'.
Proof.
  intros Hv. unfold restart. rewrite bind_getself.
  rewrite (bind_done _ _ _ _ _ (alloc_done _ s)).
  rewrite (bind_done _ _ _ _ _ (set_position_done _ _)).
  set (s2 := s_cursor _ _).
  assert (E2 : heap s2 !! length (heap s) = Some (PyList (zeros (_dim (self s)))))
    by apply lookup_alloc.
  rewrite (slice_all_list _ _ _ E2).
  eexists _, _. split; [reflexivity|].
  exists (PyList (zeros (_dim (self s)))). split; [apply lookup_alloc_old, E2|].
  split; [apply repeat_length|eauto].
Qed.

Lemma roll_restart_ok i pos s :
  valid_walker (self s) -> cursor_ok s ->
  exists pos' s', roll_restart i pos s = Done pos' s' /\ cursor_ok s'.
Proof.
  intros Hv Hc. unfold roll_restart. rewrite bind_getself.
  pose proof (valid_restart_every _ Hv) as He.
  destruct (Z.eqb_spec (_restart_every (self s)) 0); [lia|].
  destruct (_ `mod` _ =? 0).
  - rewrite (bind_done _ _ _ _ _ (draw_done _ s)).
    destruct (ltb _ _).
    + apply (restart_ok (s_gen s _)). exact Hv.
    + eexists _, _. split; [reflexivity|]. exact Hc.
  - eexists _, _. split; [reflexivity|]. exact Hc.
Qed.

Lemma vec_not_seq n o items : is_vec n o -> o <> PySeq items.
Proof. destruct o; simpl; [discriminate|discriminate|tauto]. Qed.

(** A round of [walk] from a ready state ends in a ready state: it
    raises nothing. *)
Lemma walk_body_ok fuel i s :
  ready s -> goes_on s (walk_body fuel i s) (fun _ s' => ready s').
Proof.
  intros (Hv & Hd & Hc & items & Epath). unfold walk_body.
  destruct (step_ok s Hv Hc) as (pos1 & s1 & E1 & Hc1 & Hpos1).
  rewrite (bind_done _ _ _ _ _ E1).
  pose proof (frames_done _ _ _ _ frames_step E1) as F1.
  pose proof (valid_walker_frame _ _ F1 Hv) as Hv1.
  assert (Hobs1 : _obstacles (self s1) = _obstacles (self s)).
  { destruct F1 as [_ _ E]. unfold settings in E. congruence. }
  pose proof (skip_obstacles_ok fuel pos1 s1 Hv1 Hc1 Hpos1) as H2.
  pose proof (frames_skip_obstacles fuel pos1 s1) as F2.
  unfold mbind at 1, M_bind at 1.
  destruct (skip_obstacles fuel pos1 s1) as [pos2 s2|e s2|];
    [|destruct H2|simpl in *; congruence].
  destruct H2 as [Hc2 Hpos2].
  pose proof (frame_trans _ _ _ F1 F2) as F12.
  pose proof (valid_walker_frame _ _ F12 Hv) as Hv2.
  pose proof (dests_ok_frame _ _ F12 Hd) as Hd2.
  destruct (pass_gates_ok pos2 s2 Hv2 Hd2 Hpos2) as (pos3 & g3 & E3).
  rewrite (bind_done _ _ _ _ _ E3).
  destruct (roll_restart_ok i pos3 (s_gen s2 g3) Hv2 Hc2) as (pos4 & s4 & E4 & Hc4).
  rewrite (bind_done _ _ _ _ _ E4).
  pose proof (frames_done _ _ _ _ (frames_roll_restart _ _) E4) as F4.
  assert (F3 : frame s2 (s_gen s2 g3)) by (split; auto).
  pose proof (frame_trans _ _ _ F12 (frame_trans _ _ _ F3 F4)) as F.
  pose proof (frame_seq _ _ F _ _ Epath) as Epath4.
  rewrite <- (frame_path _ _ F) in Epath4.
  rewrite (append_to_path_done _ _ _ Epath4). simpl.
  split; [|split; [|split]]; cbn [self heap].
  - apply (valid_walker_frame _ _ F Hv).
  - intros d Ed. destruct (dests_ok_frame _ _ F Hd d Ed) as [ds Eds].
    cbn [heap self].
    destruct (decide (_path (self s4) = d)) as [<-|Hne].
    + eexists. apply list_lookup_insert_eq, lookup_lt_is_Some. eauto.
    + exists ds. rewrite list_lookup_insert_ne by assumption. exact Eds.
  - destruct Hc4 as (o & Eo & Hvec & Hlist). exists o.
    split; [|auto]. cbn [heap self].
    rewrite list_lookup_insert_ne; [exact Eo|].
    intros Heq. rewrite Heq in Epath4.
    pose proof (eq_trans (eq_sym Eo) Epath4) as [= ->]. exact Hvec.
  - eexists. cbn [heap self].
    apply list_lookup_insert_eq, lookup_lt_is_Some. eauto.
Qed.

Lemma frames_append_settings pos s s' :
  append_to_path pos s = Done tt s' -> self s' = self s.
Proof. intros (items & _ & ->)%append_to_path_inv. reflexivity. Qed.

Lemma walk_body_settings fuel i s s' :
  walk_body fuel i s = Done tt s' -> settings (self s') = settings (self s).
Proof.
  unfold walk_body.
  intros (pos1 & s1 & E1 & E)%bind_inv.
  apply bind_inv in E as (pos2 & s2 & E2 & E).
  apply bind_inv in E as (pos3 & s3 & E3 & E).
  apply bind_inv in E as (pos4 & s4 & E4 & E).
  rewrite (frames_append_settings _ _ _ E).
  rewrite (frame_settings _ _ (frames_done _ _ _ _ (frames_roll_restart _ _) E4)).
  rewrite (frame_settings _ _ (frames_done _ _ _ _ (frames_pass_gates _) E3)).
  rewrite (frame_settings _ _ (frames_done _ _ _ _ (frames_skip_obstacles _ _) E2)).
  apply (frame_settings _ _ (frames_done _ _ _ _ frames_step E1)).
Qed.

Lemma walk_loop_ok fuel range s :
  ready s -> goes_on s (walk_loop fuel range s) (fun _ s' => ready s').
Proof.
  revert s. induction range as [|i range IH]; intros s Hs; simpl; [exact Hs|].
  pose proof (walk_body_ok fuel i s Hs) as Hb.
  unfold mbind at 1, M_bind at 1.
  destruct (walk_body fuel i s) as [[] s1|e s1|] eqn:E1; [|exact Hb|exact Hb].
  simpl in Hb. pose proof (IH s1 Hb) as Hl.
  assert (Hobs : _obstacles (self s1) = _obstacles (self s)).
  { pose proof (walk_body_settings _ _ _ _ E1) as E. unfold settings in E.
    congruence. }
  destruct (walk_loop fuel range s1); simpl in *; [exact Hl|exact Hl|congruence].
Qed.

(** On a ready state [walk(steps)] raises only for [steps <= 0]. *)
Lemma walk_ok fuel steps s :
  1 <= steps -> ready s ->
  goes_on s (walk fuel steps s) (fun _ s' => ready s').
Proof.
  intros Hsteps Hs. unfold walk. destruct (Z.leb_spec steps 0); [lia|].
  apply walk_loop_ok, Hs.
Qed.

(** ** Simulation.run *)

Lemma set_path_ref_done l s : set_path_ref l s = Done tt (s_path s l).
Proof. reflexivity. Qed.

(** [hard_restart()] makes any valid walker ready. *)
Lemma hard_restart_ok s :
  valid_walker (self s) -> dests_ok s ->
  exists q s',
    hard_restart s = Done q s' /\ ready s'
    /\ settings (self s') = settings (self s).
Proof.
  intros Hv Hd. unfold hard_restart. rewrite bind_getself.
  rewrite (bind_done _ _ _ _ _ (alloc_done _ s)).
  rewrite (bind_done _ _ _ _ _ (set_position_done _ _)).
  set (c := length (heap s)).
  set (s2 := s_cursor (s_alloc s (PyList (zeros (_dim (self s))))) c).
  rewrite (bind_done _ _ _ _ _ (alloc_done _ s2)).
  rewrite (bind_done _ _ _ _ _ (set_path_ref_done _ _)).
  set (s4 := s_path (s_alloc s2 (PySeq [c])) (length (heap s2))).
  assert (Ec : heap s4 !! c = Some (PyList (zeros (_dim (self s))))).
  { apply lookup_alloc_old. apply lookup_alloc. }
  rewrite (slice_all_list _ _ _ Ec).
  eexists _, _. split; [reflexivity|]. split; [|reflexivity].
  split; [|split; [|split]].
  - apply (valid_walker_settings (self s)); [reflexivity|exact Hv].
  - intros d Ed. destruct (Hd d Ed) as [items Ei]. exists items.
    apply lookup_alloc_old, lookup_alloc_old, lookup_alloc_old, Ei.
  - exists (PyList (zeros (_dim (self s)))).
    split; [apply lookup_alloc_old, Ec|]. split; [apply repeat_length|eauto].
  - exists [c]. apply lookup_alloc_old. apply (lookup_alloc s2).
Qed.

(** From a valid walker the loop of [run] never raises, never takes the
    [except] branch, and records one trajectory per trial. *)
Lemma run_loop_ok fuel trials sim s :
  1 <= __num_of_steps sim ->
  valid_walker (self s) -> dests_ok s ->
  goes_on s (run_loop fuel trials sim s)
    (fun sim' s' =>
       length (__sims sim') = (length (__sims sim) + trials)%nat
       /\ __times_to_run sim' = __times_to_run sim
       /\ __num_of_steps sim' = __num_of_steps sim).
Proof.
  intros Hsteps. revert sim s Hsteps.
  induction trials as [|trials IH]; intros sim s Hsteps Hv Hd; simpl.
  - split; [lia|auto].
  - destruct (hard_restart_ok s Hv Hd) as (q & s1 & E1 & Hs1 & Hset1).
    rewrite (bind_done _ _ _ _ _ E1).
    assert (Hobs1 : _obstacles (self s1) = _obstacles (self s)).
    { unfold settings in Hset1. congruence. }
    pose proof (walk_ok fuel _ s1 Hsteps Hs1) as Hw.
    unfold try_except_ValueError.
    destruct (walk fuel (__num_of_steps sim) s1) as [[] s2|e s2|] eqn:E2;
      [|destruct Hw|simpl in *; congruence].
    destruct Hw as (Hv2 & Hd2 & Hc2 & items & Epath2).
    rewrite (bind_done _ _ _ _ _ (get_path_done _ _ Epath2)).
    assert (Hd3 : dests_ok (s_alloc s2 (PySeq items))).
    { intros d Ed. destruct (Hd2 d Ed) as [ds Eds]. exists ds.
      apply lookup_alloc_old, Eds. }
    pose proof (IH (record_sim sim (length (heap s2)))
                   (s_alloc s2 (PySeq items)) Hsteps Hv2 Hd3) as Hrest.
    assert (Hobs2 : _obstacles (self s2) = _obstacles (self s)).
    { unfold walk in E2. destruct (__num_of_steps sim <=? 0); [discriminate|].
      rewrite <- Hobs1. clear -E2.
      revert s1 E2. induction (range (__num_of_steps sim)) as [|i r IHr];
        intros s1 E2; simpl in E2.
      - injection E2 as <-. reflexivity.
      - apply bind_inv in E2 as ([] & s1' & Eb & E2).
        rewrite (IHr _ E2).
        pose proof (walk_body_settings _ _ _ _ Eb) as E. unfold settings in E.
        congruence. }
    destruct (run_loop fuel trials _ _) as [sim' s'|e s'|]; simpl in *.
    + destruct Hrest as (Hlen & Ht & Hn). rewrite Hlen, length_app. simpl.
      split; [lia|auto].
    + exact Hrest.
    + congruence.
Qed.


(** ** The constructors establish validity *)

Lemma check_inv b : check b = Ok tt -> b = true.
Proof. destruct b; [reflexivity|discriminate]. Qed.

Lemma seq_ok_inv {B : Type} (r : result unit) (k : result B) b :
  r ≫= (fun _ => k) = Ok b -> r = Ok tt /\ k = Ok b.
Proof. destruct r as [[]|e]; [auto|discriminate]. Qed.

Lemma tree_of_dim n_dim points tree :
  match points with Some ps => check (all_of_dim n_dim ps) | None => Ok tt end
  = Ok tt ->
  tree_of points = Some tree -> kd_m tree = Z.to_nat n_dim.
Proof.
  destruct points as [[|p ps]|]; simpl; try discriminate.
  intros Hall%check_inv [= <-]. simpl.
  apply andb_prop in Hall as [Hp _]. apply Z.eqb_eq in Hp. lia.
Qed.

Lemma Walker_init_ready variant σ name n_dim placements dests obstacles
    chance every w σ' g :
  Walker_init variant σ name n_dim placements dests obstacles chance every
  = Ok (w, σ') ->
  (forall b bs strength size,
     variant = BiasedRandomWalker (Some (b :: bs)) strength size ->
     length (b :: bs) = Z.to_nat n_dim) ->
  ready (born w σ' g).
Proof.
  unfold Walker_init. intros E Hbias.
  apply bind_ok_inv in E as (ds & Eds & E).
  apply seq_ok_inv in E as [_ E].
  apply seq_ok_inv in E as [Hdim%check_inv E].
  apply seq_ok_inv in E as [Hobs E].
  apply seq_ok_inv in E as [Hgates E].
  apply seq_ok_inv in E as [Hrestart E].
  injection E as <- <-.
  unfold validate_gates in Hgates. apply seq_ok_inv in Hgates as [Hpl _].
  unfold validate_restart in Hrestart.
  apply seq_ok_inv in Hrestart as [_ Hevery%check_inv].
  apply negb_true_iff in Hdim, Hevery.
  apply Z.leb_gt in Hdim. apply Z.ltb_ge in Hevery.
  split; [|split; [|split]].
  - split; cbn; try assumption.
    + intros tree. apply tree_of_dim. exact Hobs.
    + intros tree. apply tree_of_dim. exact Hpl.
  - intros d Ed. cbn in Ed. subst dests.
    apply bind_ok_inv in Eds as (ps & (items & Ei & _)%deref_trajectory_inv & _).
    exists items. cbn. apply lookup_app_l_Some, Ei.
  - exists (PyList (zeros n_dim)). cbn. split; [|split].
    + apply list_lookup_middle. reflexivity.
    + apply repeat_length.
    + eauto.
  - exists [length σ]. cbn.
    change (σ ++ [PyList (zeros n_dim); PySeq [length σ]])
      with (σ ++ [PyList (zeros n_dim)] ++ [PySeq [length σ]]).
    rewrite app_assoc. apply list_lookup_middle.
    rewrite length_app. simpl. lia.
Qed.

Lemma RandomGridWalker_init_ready σ name n_dim placements dests obstacles
    chance every w σ' g :
  RandomGridWalker_init σ name n_dim placements dests obstacles chance every
  = Ok (w, σ') ->
  ready (born w σ' g).
Proof. intros E. eapply Walker_init_ready; [exact E|discriminate]. Qed.

Lemma RandomAngleWalker_init_ready σ name n_dim placements dests obstacles
    chance every w σ' g :
  RandomAngleWalker_init σ name n_dim placements dests obstacles chance every
  = Ok (w, σ') ->
  ready (born w σ' g).
Proof. intros E. eapply Walker_init_ready; [exact E|discriminate]. Qed.

Lemma RandomStepWalker_init_ready lo hi σ name n_dim placements dests
    obstacles chance every w σ' g :
  RandomStepWalker_init lo hi σ name n_dim placements dests obstacles
    chance every = Ok (w, σ') ->
  ready (born w σ' g).
Proof.
  unfold RandomStepWalker_init.
  intros [_ [_ E]%seq_ok_inv]%seq_ok_inv.
  eapply Walker_init_ready; [exact E|discriminate].
Qed.

Lemma RandomSearcher_init_ready target σ name n_dim placements dests
    obstacles chance every w σ' g :
  RandomSearcher_init target σ name n_dim placements dests obstacles
    chance every = Ok (w, σ') ->
  ready (born w σ' g).
Proof.
  unfold RandomSearcher_init. intros [_ E]%seq_ok_inv.
  eapply Walker_init_ready; [exact E|discriminate].
Qed.

Lemma BiasedRandomWalker_init_ready bias strength σ name n_dim placements
    dests obstacles chance every w σ' g :
  BiasedRandomWalker_init bias strength σ name n_dim placements dests
    obstacles chance every = Ok (w, σ') ->
  ready (born w σ' g).
Proof.
  unfold BiasedRandomWalker_init. intros [Hb E]%seq_ok_inv.
  eapply Walker_init_ready; [exact E|].
  intros b bs st sz [= -> _ _]. unfold validate_bias in Hb.
  apply seq_ok_inv in Hb as [Hb _].
  apply seq_ok_inv in Hb as [Hlen%check_inv _].
  apply Z.eqb_eq in Hlen. lia.
Qed.

(** Without obstacles [walk(steps)] returns for every [steps >= 1],
    whatever the fuel. *)
Lemma walk_returns fuel steps s :
  1 <= steps -> ready s -> _obstacles (self s) = None ->
  exists s', walk fuel steps s = Done tt s' /\ ready s'.
Proof.
  intros Hsteps Hs Hobs. pose proof (walk_ok fuel steps s Hsteps Hs) as Hw.
  destruct (walk fuel steps s) as [[] s'|e s'|]; simpl in Hw;
    [eauto|destruct Hw|congruence].
Qed.

(** ** What a walk leaves of the store *)

Lemma same_shape_refl o : same_shape o o.
Proof. destruct o; simpl; eauto. Qed.

Lemma same_shape_trans o1 o2 o3 :
  same_shape o1 o2 -> same_shape o2 o3 -> same_shape o1 o3.
Proof.
  destruct o1 as [xs|xs|items]; simpl.
  - intros ->. auto.
  - intros (ys & -> & E1). simpl. intros (zs & -> & E2).
    exists zs. split; [reflexivity|congruence].
  - intros (its & ->). auto.
Qed.

Lemma kept_refl s : kept s s.
Proof. intros l o E. exists o. split; [exact E|apply same_shape_refl]. Qed.

Lemma kept_trans s1 s2 s3 : kept s1 s2 -> kept s2 s3 -> kept s1 s3.
Proof.
  intros K1 K2 l o E. destruct (K1 l o E) as (o2 & E2 & S2).
  destruct (K2 l o2 E2) as (o3 & E3 & S3). exists o3. split; [exact E3|].
  eapply same_shape_trans; eassumption.
Qed.

Lemma kept_app s s' extra : heap s' = heap s ++ extra -> kept s s'.
Proof.
  intros E l o El. exists o. rewrite E.
  split; [apply lookup_app_l_Some, El|apply same_shape_refl].
Qed.

Lemma kept_same_heap s s' : heap s' = heap s -> kept s s'.
Proof. intros E. apply (kept_app s s' []). rewrite app_nil_r. exact E. Qed.

Lemma kept_save s l o o' :
  heap s !! l = Some o -> same_shape o o' -> kept s (s_save s l o').
Proof.
  intros El Hs l' o0 E0. simpl. destruct (decide (l = l')) as [<-|Hne].
  - exists o'. split; [apply list_lookup_insert_eq, lookup_lt_is_Some; eauto|].
    rewrite El in E0. injection E0 as <-. exact Hs.
  - exists o0. rewrite list_lookup_insert_ne by assumption.
    split; [exact E0|apply same_shape_refl].
Qed.

Lemma kept_vec_at s s' l :
  kept s s' -> _dim (self s') = _dim (self s) -> vec_at s l -> vec_at s' l.
Proof.
  intros K Hdim (o & E & Hvec). destruct (K l o E) as (o' & E' & Hs).
  exists o'. split; [exact E'|]. rewrite Hdim.
  destruct o as [xs|xs|items]; simpl in *.
  - subst o'. exact Hvec.
  - destruct Hs as (ys & -> & Hlen). simpl. congruence.
  - destruct Hvec.
Qed.

Lemma keeps_ret {A : Type} (a : A) : keeps (mret a).
Proof. intros s a' s' [= <- <-]. apply kept_refl. Qed.

Lemma keeps_throw {A : Type} (e : exn) : keeps (@throw _ _ A e).
Proof. intros s a s' [=]. Qed.

Lemma keeps_out_of_fuel {A : Type} : keeps (@out_of_fuel _ _ A).
Proof. intros s a s' [=]. Qed.

Lemma keeps_lift {A : Type} (r : result A) : keeps (lift r).
Proof.
  intros s a s'. unfold lift. destruct r; [|discriminate].
  intros [= <- <-]. apply kept_refl.
Qed.

Lemma keeps_bind {A B : Type} (m : M A) (k : A -> M B) :
  keeps m -> (forall a, keeps (k a)) -> keeps (m ≫= k).
Proof.
  intros Hm Hk s b s' (a & s1 & E1 & E2)%bind_inv.
  exact (kept_trans _ _ _ (Hm _ _ _ E1) (Hk _ _ _ _ E2)).
Qed.

Lemma keeps_getself : keeps getself.
Proof. intros s a s' [= <- <-]. apply kept_refl. Qed.

Lemma keeps_draw {A : Type} (f : rng -> A * rng) : keeps (draw f).
Proof.
  intros s a s'. unfold draw. destruct (f (gen s)).
  intros [= <- <-]. apply kept_same_heap. reflexivity.
Qed.

Lemma keeps_alloc (o : pyobj) : keeps (alloc o).
Proof. intros s a s' [= <- <-]. apply (kept_app _ _ [o]). reflexivity. Qed.

Lemma keeps_load (l : loc) : keeps (load l).
Proof.
  intros s a s'. unfold load. destruct (heap s !! l); [|discriminate].
  intros [= <- <-]. apply kept_refl.
Qed.

Lemma keeps_set_position (l : loc) : keeps (set_position l).
Proof. intros s [] s' [= <-]. apply kept_same_heap. reflexivity. Qed.

Create HintDb keeps.
#[local] Hint Resolve keeps_ret keeps_throw keeps_lift keeps_getself
  keeps_draw keeps_alloc keeps_load keeps_set_position
  keeps_out_of_fuel : keeps.

Ltac keeps_auto :=
  repeat first
    [ progress auto with keeps
    | apply keeps_bind; [|intros]
    | match goal with
      | |- keeps (match ?x with _ => _ end) => destruct x
      | |- keeps (if ?b then _ else _) => destruct b
      end ].

Lemma keeps_load_vec l : keeps (load_vec l).
Proof. unfold load_vec. keeps_auto. Qed.

Lemma keeps_load_seq l : keeps (load_seq l).
Proof. unfold load_seq. keeps_auto. Qed.

Lemma keeps_slice_all l : keeps (slice_all l).
Proof. unfold slice_all. keeps_auto. Qed.

#[local] Hint Resolve keeps_load_vec keeps_load_seq keeps_slice_all : keeps.

Lemma keeps_to_list l : keeps (to_list l).
Proof. unfold to_list. keeps_auto. Qed.

Lemma np_inplace_length f xs v ys :
  np_inplace f xs v = Ok ys -> length ys = length xs.
Proof.
  unfold np_inplace. destruct (Nat.eqb_spec (length xs) (length v)) as [E|_].
  - intros [= <-]. apply length_zip_with_same, E.
  - destruct v as [|y [|y' v]]; try discriminate.
    intros [= <-]. apply length_map.
Qed.

(** [x += v] writes only to an array, and keeps its length. *)
Lemma keeps_iadd l v : keeps (iadd l v).
Proof.
  intros s a s'. unfold iadd, load, mbind, M_bind.
  destruct (heap s !! l) as [[xs|xs|items]|] eqn:El; try discriminate.
  - unfold lift. destruct (np_broadcast add xs v); [|discriminate].
    apply keeps_alloc.
  - unfold lift. destruct (np_inplace add xs v) as [ys|] eqn:Ey; [|discriminate].
    simpl. intros [= <- <-]. apply (kept_save s l _ _ El).
    exists ys. split; [reflexivity|apply (np_inplace_length _ _ _ _ Ey)].
Qed.

Lemma keeps_normalize_vector d : keeps (normalize_vector d).
Proof. unfold normalize_vector. keeps_auto. Qed.

Lemma keeps_random_choice {A : Type} (seq : list A) : keeps (random_choice seq).
Proof. unfold random_choice. keeps_auto. Qed.

Lemma keeps_random_randint a b : keeps (random_randint a b).
Proof. unfold random_randint. keeps_auto. Qed.

Lemma keeps_restart : keeps restart.
Proof. unfold restart. keeps_auto. Qed.

#[local] Hint Resolve keeps_to_list keeps_iadd keeps_normalize_vector
  keeps_random_choice keeps_random_randint keeps_restart : keeps.

Lemma slice_all_inv l s c s1 :
  slice_all l s = Done c s1 ->
  c = length (heap s)
  \/ (c = l /\ s1 = s /\ exists xs, heap s !! l = Some (NdArray xs)).
Proof.
  unfold slice_all, load, mbind, M_bind.
  destruct (heap s !! l) as [[xs|xs|items]|]; try discriminate.
  - intros [= <- <-]. auto.
  - intros [= <- <-]. eauto.
  - intros [= <- <-]. auto.
Qed.

Lemma store_item_inv l i a s s' :
  store_item l i a s = Done tt s' ->
  exists o o',
    heap s !! l = Some o /\ s' = s_save s l o'
    /\ match o with
       | PyList xs => o' = PyList (<[i := a]> xs)
       | NdArray xs => o' = NdArray (<[i := a]> xs)
       | PySeq _ => False
       end.
Proof.
  unfold store_item, load, mbind, M_bind.
  destruct (heap s !! l) as [[xs|xs|items]|]; try discriminate;
    (destruct (i <? length xs)%nat; [|discriminate]);
    intros [= <-]; eexists _, _; (split; [reflexivity|]);
    (split; [reflexivity|]); reflexivity.
Qed.

(** The grid step writes into the copy it has just made of a list cursor,
    or into the array that the cursor is. *)
Lemma keeps_RandomGridWalker_step : keeps RandomGridWalker_step.
Proof.
  intros s a s' E. unfold RandomGridWalker_step in E. rewrite bind_getself in E.
  apply bind_inv in E as (c & s1 & E1 & E).
  pose proof (keeps_slice_all _ _ _ _ E1) as K1.
  apply bind_inv in E as ([] & s2 & E2 & E).
  pose proof (keeps_set_position _ _ _ _ E2) as K2.
  apply bind_inv in E as (sign & s3 & E3 & E).
  pose proof (keeps_random_choice _ _ _ _ E3) as K3.
  cbv zeta in E.
  apply bind_inv in E as (z & s4 & E4 & E).
  pose proof (keeps_random_randint _ _ _ _ _ E4) as K4.
  apply bind_inv in E as (xs & s5 & E5 & E).
  pose proof (keeps_load_vec _ _ _ _ E5) as K5.
  apply bind_inv in E as (x & s6 & E6 & E).
  pose proof (keeps_lift _ _ _ _ E6) as K6.
  apply bind_inv in E as (row & s7 & E7 & E).
  pose proof (keeps_lift _ _ _ _ E7) as K7.
  apply bind_inv in E as (v & s8 & E8 & E).
  pose proof (keeps_lift _ _ _ _ E8) as K8.
  apply bind_inv in E as ([] & s9 & E9 & E).
  injection E as <- <-.
  assert (K : kept s s8) by eauto 10 using kept_trans.
  apply store_item_inv in E9 as (o8 & o9 & Eo8 & -> & Ho9).
  intros l o El. destruct (K l o El) as (o' & El' & Hs).
  destruct (decide (c = l)) as [<-|Hne].
  - destruct (slice_all_inv _ _ _ _ E1) as [Hc|(_ & _ & xs0 & Exs0)].
    + apply lookup_lt_Some in El. lia.
    + exists o9. split; [apply (lookup_save _ _ _ _ Eo8)|].
      pose proof (eq_trans (eq_sym El') Eo8) as [= ->].
      destruct (slice_all_inv _ _ _ _ E1) as [Hc|(Hcl & _ & xs1 & Exs1)].
      * apply lookup_lt_Some in El. lia.
      * rewrite Hcl in El. rewrite Exs1 in El. injection El as <-.
        simpl in Hs. destruct Hs as (ys & -> & Hlen). subst o9.
        exists (<[Z.to_nat z := add x (of_int (sign * v))]> ys).
        split; [reflexivity|]. rewrite length_insert. exact Hlen.
  - exists o'. split; [|exact Hs]. simpl.
    rewrite list_lookup_insert_ne by assumption. exact El'.
Qed.

#[local] Hint Resolve keeps_RandomGridWalker_step : keeps.

Lemma keeps_step : keeps step.
Proof.
  unfold step, RandomAngleWalker_step, RandomStepWalker_step,
    BiasedRandomWalker_step, RandomSearcher_step.
  keeps_auto.
Qed.

#[local] Hint Resolve keeps_step : keeps.

Lemma keeps_resample fuel tree pos : keeps (resample fuel tree pos).
Proof.
  revert pos. induction fuel as [|fuel IH]; intros pos; simpl; keeps_auto.
Qed.

#[local] Hint Resolve keeps_resample : keeps.

Lemma keeps_skip_obstacles fuel pos : keeps (skip_obstacles fuel pos).
Proof. unfold skip_obstacles. keeps_auto. Qed.

Lemma keeps_pass_gates pos : keeps (pass_gates pos).
Proof. unfold pass_gates. keeps_auto. Qed.

Lemma keeps_roll_restart i pos : keeps (roll_restart i pos).
Proof. unfold roll_restart. keeps_auto. Qed.

(** ** The points that a walk appends *)

Lemma gates_ok_dests_ok s : gates_ok s -> dests_ok s.
Proof. intros Hg d Ed. destruct (Hg d Ed) as (items & E & _). eauto. Qed.

Lemma gates_ok_kept s s' : frame s s' -> kept s s' -> gates_ok s -> gates_ok s'.
Proof.
  intros [Fseq _ E] K Hg d Ed.
  assert (Ed' : _magic_gates_destinations (self s) = Some d).
  { unfold settings in E. congruence. }
  destruct (Hg d Ed') as (items & Ei & Hvec). exists items.
  split; [apply Fseq, Ei|].
  revert Hvec. apply Forall_impl. intros l. apply kept_vec_at; [exact K|].
  unfold settings in E. congruence.
Qed.

Lemma vec_at_same s s' l :
  heap s' = heap s -> self s' = self s -> vec_at s l -> vec_at s' l.
Proof. unfold vec_at. intros -> ->. auto. Qed.

Lemma cursor_ok_same s s' :
  heap s' = heap s -> self s' = self s -> cursor_ok s -> cursor_ok s'.
Proof. unfold cursor_ok. intros -> ->. auto. Qed.

Lemma load_vec_inv s l xs s' :
  load_vec l s = Done xs s' -> s' = s /\ deref_vec (heap s) l = Ok xs.
Proof.
  unfold load_vec, load, deref_vec, mbind, M_bind.
  destruct (heap s !! l) as [[ys|ys|its]|]; try discriminate;
    intros [= -> ->]; auto.
Qed.

Lemma random_choice_inv {A : Type} (seq : list A) s a s' :
  random_choice seq s = Done a s' -> a ∈ seq /\ exists g, s' = s_gen s g.
Proof.
  unfold random_choice. destruct seq as [|a0 seq]; [discriminate|].
  unfold draw, mbind, M_bind.
  destruct (random_below (gen s) (length (a0 :: seq))) as [i g].
  unfold lift. destruct (index (a0 :: seq) i) as [a'|] eqn:Ei; [|discriminate].
  intros [= <- <-]. split; [|eexists; reflexivity].
  apply index_inv in Ei. apply (list_elem_of_lookup_2 _ _ _ Ei).
Qed.

(** A gate only swaps the candidate for one of the destination objects. *)
Lemma pass_gates_inv pos s pos' s' :
  pass_gates pos s = Done pos' s' ->
  heap s' = heap s /\ self s' = self s
  /\ (pos' = pos
      \/ exists d dests,
           _magic_gates_destinations (self s) = Some d
           /\ heap s !! d = Some (PySeq dests) /\ pos' ∈ dests).
Proof.
  unfold pass_gates. rewrite bind_getself.
  destruct (_magic_gates_placements (self s)) as [tree|];
    [|intros [= <- <-]; auto].
  destruct (_magic_gates_destinations (self s)) as [d|];
    [|intros [= <- <-]; auto].
  intros (dests & s1 & [-> Ed]%load_seq_inv & E)%bind_inv.
  destruct dests as [|d0 dests]; [injection E as <- <-; auto|].
  apply bind_inv in E as (xs & s2 & [-> Exs]%load_vec_inv & E).
  apply bind_inv in E as (hits & s3 & E3 & E).
  unfold lift in E3.
  destruct (query_ball_point tree xs zero) as [found|]; [|discriminate].
  injection E3 as <- <-.
  destruct found; [injection E as <- <-; auto|].
  apply random_choice_inv in E as [Hin [g ->]].
  split; [reflexivity|]. split; [reflexivity|]. right. eauto.
Qed.

Lemma roll_restart_vec i pos s pos' s' :
  roll_restart i pos s = Done pos' s' -> vec_at s pos -> vec_at s' pos'.
Proof.
  intros E Hpos.
  pose proof (keeps_roll_restart _ _ _ _ _ E) as K.
  pose proof (frame_settings _ _ (frames_done _ _ _ _ (frames_roll_restart _ _) E))
    as Hset.
  assert (Hdim : _dim (self s') = _dim (self s))
    by (unfold settings in Hset; congruence).
  unfold roll_restart in E. rewrite bind_getself in E.
  destruct (_restart_every (self s) =? 0); [discriminate|].
  destruct (_ `mod` _ =? 0).
  - apply bind_inv in E as (r & s1 & E1 & E).
    destruct (ltb r _).
    + unfold restart in E. rewrite bind_getself in E.
      rewrite (bind_done _ _ _ _ _ (alloc_done _ s1)) in E.
      rewrite (bind_done _ _ _ _ _ (set_position_done _ _)) in E.
      rewrite (slice_all_list _ _ (zeros (_dim (self s1)))) in E
        by apply lookup_alloc.
      injection E as <- <-.
      exists (PyList (zeros (_dim (self s1)))). cbn [heap self _dim].
      split; [apply list_lookup_middle; reflexivity|]. apply repeat_length.
    + injection E as <- <-. apply (kept_vec_at s); assumption.
  - injection E as <- <-. exact Hpos.
Qed.

(** One round: the point appended is a vector, the lists of numbers of
    the store and the other lists of references are as they were. *)
Lemma walk_body_trace fuel i s s' items :
  valid_walker (self s) -> gates_ok s -> cursor_ok s ->
  heap s !! _path (self s) = Some (PySeq items) ->
  walk_body fuel i s = Done tt s' ->
  exists pos,
    heap s' !! _path (self s') = Some (PySeq (items ++ [pos]))
    /\ vec_at s' pos /\ kept s s'
    /\ (forall l its, l <> _path (self s) ->
                      heap s !! l = Some (PySeq its) ->
                      heap s' !! l = Some (PySeq its))
    /\ _path (self s') = _path (self s)
    /\ settings (self s') = settings (self s)
    /\ gates_ok s' /\ cursor_ok s'.
Proof.
  intros Hv Hg Hc Epath. unfold walk_body.
  intros (pos1 & s1 & E1 & E)%bind_inv.
  destruct (step_ok s Hv Hc) as (pos1' & s1' & E1' & Hc1 & Hpos1).
  rewrite E1 in E1'. injection E1' as <- <-.
  pose proof (frames_done _ _ _ _ frames_step E1) as F1.
  pose proof (keeps_step _ _ _ E1) as K1.
  pose proof (valid_walker_frame _ _ F1 Hv) as Hv1.
  apply bind_inv in E as (pos2 & s2 & E2 & E).
  pose proof (skip_obstacles_ok fuel pos1 s1 Hv1 Hc1 Hpos1) as H2.
  rewrite E2 in H2. destruct H2 as [Hc2 Hpos2].
  pose proof (frames_done _ _ _ _ (frames_skip_obstacles _ _) E2) as F2.
  pose proof (keeps_skip_obstacles _ _ _ _ _ E2) as K2.
  pose proof (frame_trans _ _ _ F1 F2) as F12.
  pose proof (kept_trans _ _ _ K1 K2) as K12.
  pose proof (gates_ok_kept _ _ F12 K12 Hg) as Hg2.
  pose proof (valid_walker_frame _ _ F12 Hv) as Hv2.
  apply bind_inv in E as (pos3 & s3 & E3 & E).
  pose proof (frames_done _ _ _ _ (frames_pass_gates _) E3) as F3.
  pose proof (keeps_pass_gates _ _ _ _ E3) as K3.
  destruct (pass_gates_inv _ _ _ _ E3) as (Hheap3 & Hself3 & Hcase).
  assert (Hpos3 : vec_at s3 pos3).
  { apply (vec_at_same s2); try assumption.
    destruct Hcase as [->|(d & dests & Ed & Eds & Hin)]; [exact Hpos2|].
    destruct (Hg2 d Ed) as (dests' & Eds' & Hall).
    pose proof (eq_trans (eq_sym Eds) Eds') as [= <-].
    rewrite list.Forall_forall in Hall. apply Hall, Hin. }
  pose proof (cursor_ok_same _ _ Hheap3 Hself3 Hc2) as Hc3.
  pose proof (valid_walker_frame _ _ F3 Hv2) as Hv3.
  apply bind_inv in E as (pos4 & s4 & E4 & E).
  pose proof (frames_done _ _ _ _ (frames_roll_restart _ _) E4) as F4.
  pose proof (keeps_roll_restart _ _ _ _ _ E4) as K4.
  pose proof (roll_restart_vec _ _ _ _ _ E4 Hpos3) as Hpos4.
  destruct (roll_restart_ok i pos3 s3 Hv3 Hc3) as (pos4' & s4' & E4' & Hc4).
  rewrite E4 in E4'. injection E4' as <- <-.
  pose proof (frame_trans _ _ _ F12 (frame_trans _ _ _ F3 F4)) as F.
  pose proof (kept_trans _ _ _ K12 (kept_trans _ _ _ K3 K4)) as K.
  pose proof (gates_ok_kept _ _ F K Hg) as Hg4.
  apply append_to_path_inv in E as (items' & Eitems & ->).
  pose proof (frame_seq _ _ F _ _ Epath) as Eitems'.
  rewrite <- (frame_path _ _ F) in Eitems'.
  pose proof (eq_trans (eq_sym Eitems) Eitems') as [= ->].
  set (s5 := {| heap := _ |}).
  assert (K5 : kept s4 s5).
  { apply (kept_save s4 _ _ _ Eitems). simpl. eauto. }
  assert (Hlast : heap s5 !! _path (self s4) = Some (PySeq (items ++ [pos4]))).
  { apply list_lookup_insert_eq, lookup_lt_is_Some. eauto. }
  exists pos4. change (self s5) with (self s4).
  split; [exact Hlast|].
  split; [apply (kept_vec_at s4); [exact K5|reflexivity|exact Hpos4]|].
  split; [exact (kept_trans _ _ _ K K5)|].
  split.
  { intros l its Hne El. unfold s5. cbn [heap].
    rewrite list_lookup_insert_ne by (rewrite (frame_path _ _ F); auto).
    apply (frame_seq _ _ F), El. }
  split; [exact (frame_path _ _ F)|].
  split; [exact (frame_settings _ _ F)|].
  split.
  - intros d Ed. change (self s5) with (self s4) in Ed.
    destruct (Hg4 d Ed) as (ds & Eds & Hall).
    assert (Hall5 : Forall (vec_at s5) ds).
    { revert Hall. apply Forall_impl. intros l.
      apply kept_vec_at; [exact K5|reflexivity]. }
    destruct (decide (_path (self s4) = d)) as [<-|Hne].
    + pose proof (eq_trans (eq_sym Eitems) Eds) as [= <-].
      exists (items ++ [pos4]). split; [exact Hlast|].
      apply Forall_app. split; [exact Hall5|]. constructor; [|constructor].
      apply (kept_vec_at s4); [exact K5|reflexivity|exact Hpos4].
    + exists ds. split; [|exact Hall5]. unfold s5. cbn [heap].
      rewrite list_lookup_insert_ne by assumption. exact Eds.
  - destruct Hc4 as (o & Eo & Hvec & Hlist). exists o.
    split; [|auto]. unfold s5. cbn [heap self].
    rewrite list_lookup_insert_ne; [exact Eo|].
    intros Heq. rewrite Heq in Eitems.
    pose proof (eq_trans (eq_sym Eo) Eitems) as [= ->]. exact Hvec.
Qed.

Lemma walk_loop_trace fuel range s s' items :
  valid_walker (self s) -> gates_ok s -> cursor_ok s ->
  heap s !! _path (self s) = Some (PySeq items) ->
  walk_loop fuel range s = Done tt s' ->
  exists added,
    heap s' !! _path (self s') = Some (PySeq (items ++ added))
    /\ length added = length range
    /\ Forall (vec_at s') added /\ kept s s'
    /\ (forall l its, l <> _path (self s) ->
                      heap s !! l = Some (PySeq its) ->
                      heap s' !! l = Some (PySeq its))
    /\ _path (self s') = _path (self s)
    /\ settings (self s') = settings (self s)
    /\ gates_ok s' /\ cursor_ok s'.
Proof.
  revert s items. induction range as [|i range IH];
    intros s items Hv Hg Hc Epath; simpl.
  - intros [= <-]. exists []. rewrite app_nil_r.
    split; [exact Epath|]. split; [reflexivity|]. split; [constructor|].
    split; [apply kept_refl|]. auto.
  - intros ([] & s1 & E1 & E)%bind_inv.
    destruct (walk_body_trace _ _ _ _ _ Hv Hg Hc Epath E1)
      as (pos & Epath1 & Hpos & K1 & Q1 & P1 & S1 & Hg1 & Hc1).
    pose proof (valid_walker_settings _ _ S1 Hv) as Hv1.
    destruct (IH _ _ Hv1 Hg1 Hc1 Epath1 E)
      as (added & Epath' & Hlen & Hadded & K' & Q' & P' & S' & Hg' & Hc').
    exists (pos :: added). rewrite <- app_assoc in Epath'.
    split; [exact Epath'|]. split; [simpl; lia|].
    split.
    { constructor; [|exact Hadded].
      apply (kept_vec_at s1); [exact K'| |exact Hpos].
      unfold settings in S'. congruence. }
    split; [exact (kept_trans _ _ _ K1 K')|].
    split.
    { intros l its Hne El. apply Q'; [congruence|]. apply Q1; assumption. }
    split; [congruence|]. split; [congruence|]. auto.
Qed.

(** ** The values of the recorded points *)

Lemma deref_all_vec s items :
  Forall (vec_at s) items ->
  exists t, deref_all (heap s) items = Ok t
            /\ length t = length items
            /\ Forall (fun p => length p = Z.to_nat (_dim (self s))) t.
Proof.
  induction 1 as [|l items (o & El & Hvec) _ (t & Et & Hlen & Hall)]; simpl.
  - exists []. auto.
  - unfold deref_vec. rewrite El.
    destruct o as [xs|xs|its]; [| |destruct Hvec]; simpl; rewrite Et;
      exists (xs :: t); (split; [reflexivity|]); simpl;
      (split; [congruence|]); constructor; assumption.
Qed.

Lemma deref_all_concat σ items items' t t' :
  deref_all σ items = Ok t -> deref_all σ items' = Ok t' ->
  deref_all σ (items ++ items') = Ok (t ++ t').
Proof.
  revert t. induction items as [|l items IH]; intros t; simpl.
  - intros [= <-]. auto.
  - destruct (deref_vec σ l) as [p|]; [|discriminate]. simpl.
    destruct (deref_all σ items) as [ps|]; [|discriminate].
    intros [= <-] E'. rewrite (IH ps eq_refl E'). reflexivity.
Qed.

Lemma lists_kept s s' items (t : trajectory) :
  kept s s' ->
  Forall2 (fun l p => heap s !! l = Some (PyList p)) items t ->
  Forall2 (fun l p => heap s' !! l = Some (PyList p)) items t.
Proof.
  intros K. apply Forall2_impl. intros l p El.
  destruct (K l _ El) as (o' & El' & Hs). simpl in Hs. congruence.
Qed.

Lemma recorded_mono steps s s' l :
  recorded steps s l -> kept s s' ->
  (forall its, heap s !! l = Some (PySeq its) -> heap s' !! l = Some (PySeq its)) ->
  _dim (self s') = _dim (self s) ->
  recorded steps s' l.
Proof.
  intros (first & rest & El & Hlen & Ef & Hrest) K Hseq Hdim.
  exists first, rest. split; [apply Hseq, El|]. split; [exact Hlen|]. split.
  - destruct (K _ _ Ef) as (o' & Ef' & Hs). simpl in Hs. rewrite Hdim. congruence.
  - revert Hrest. apply Forall_impl. intros p. apply kept_vec_at; assumption.
Qed.

Lemma recorded_value steps s l :
  recorded steps s l ->
  exists t,
    deref_trajectory (heap s) l = Ok (zeros (_dim (self s)) :: t)
    /\ Z.of_nat (length t) = steps
    /\ Forall (fun p => length p = Z.to_nat (_dim (self s))) t.
Proof.
  intros (first & rest & El & Hlen & Ef & Hrest).
  destruct (deref_all_vec s rest Hrest) as (t & Et & Hlent & Hall).
  exists t. split; [|split; [congruence|exact Hall]].
  apply (deref_trajectory_intro _ _ (first :: rest)); [exact El|].
  simpl. unfold deref_vec. rewrite Ef. simpl. rewrite Et. reflexivity.
Qed.

Lemma hard_restart_fresh s :
  exists q s1 c,
    hard_restart s = Done q s1
    /\ (exists extra, heap s1 = heap s ++ extra)
    /\ settings (self s1) = settings (self s)
    /\ (length (heap s) <= _path (self s1))%nat
    /\ heap s1 !! _path (self s1) = Some (PySeq [c])
    /\ heap s1 !! c = Some (PyList (zeros (_dim (self s))))
    /\ _current_position (self s1) = c.
Proof.
  unfold hard_restart. rewrite bind_getself.
  rewrite (bind_done _ _ _ _ _ (alloc_done _ s)).
  rewrite (bind_done _ _ _ _ _ (set_position_done _ _)).
  set (c := length (heap s)).
  set (s2 := s_cursor (s_alloc s (PyList (zeros (_dim (self s))))) c).
  rewrite (bind_done _ _ _ _ _ (alloc_done _ s2)).
  rewrite (bind_done _ _ _ _ _ (set_path_ref_done _ _)).
  set (s4 := s_path (s_alloc s2 (PySeq [c])) (length (heap s2))).
  assert (Ec : heap s4 !! c = Some (PyList (zeros (_dim (self s))))).
  { apply lookup_alloc_old. apply lookup_alloc. }
  rewrite (slice_all_list _ _ _ Ec).
  eexists _, _, c. split; [reflexivity|]. cbn [heap self _path _current_position].
  split.
  { eexists. unfold s4, s2. cbn [heap s_path s_alloc s_cursor].
    rewrite <- !app_assoc. reflexivity. }
  split; [reflexivity|].
  split.
  { change (_path (self s4)) with (length (heap s ++ [PyList (zeros (_dim (self s)))])).
    rewrite length_app. unfold c. lia. }
  split.
  { apply lookup_app_l_Some. apply (lookup_alloc s2). }
  split; [apply lookup_app_l_Some, Ec|reflexivity].
Qed.

(** The trials of [run]: each leaves a list of [steps + 1] vectors that
    starts at the origin, and the later trials leave it alone. *)
Lemma run_loop_trace fuel trials sim s sim' s' :
  1 <= __num_of_steps sim ->
  valid_walker (self s) -> gates_ok s ->
  Forall (recorded (__num_of_steps sim) s) (__sims sim) ->
  run_loop fuel trials sim s = Done sim' s' ->
  Forall (recorded (__num_of_steps sim) s') (__sims sim')
  /\ length (__sims sim') = (length (__sims sim) + trials)%nat
  /\ (exists new, __sims sim' = __sims sim ++ new)
  /\ __num_of_steps sim' = __num_of_steps sim
  /\ __times_to_run sim' = __times_to_run sim
  /\ __axis sim' = __axis sim
  /\ __radius sim' = __radius sim
  /\ settings (self s') = settings (self s)
  /\ kept s s'
  /\ (trials <> 0%nat ->
      exists items, heap s' !! _path (self s') = Some (PySeq items)
                    /\ Z.of_nat (length items) = __num_of_steps sim + 1)
  /\ gates_ok s'.
Proof.
  intros Hsteps. revert sim s Hsteps.
  induction trials as [|trials IH]; intros sim s Hsteps Hv Hg Hrec; simpl.
  - intros [= <- <-]. split; [exact Hrec|]. split; [lia|].
    split; [exists []; rewrite app_nil_r; reflexivity|].
    repeat (split; [reflexivity|]). split; [apply kept_refl|].
    split; [congruence|exact Hg].
  - intros (q0 & s1 & E1 & E)%bind_inv.
    destruct (hard_restart_fresh s)
      as (q & s1' & c & E1' & [extra Hheap1] & Hset1 & Hfresh & Epath1 & Ec1 & Ecur1).
    rewrite E1 in E1'. injection E1' as <- <-.
    destruct (hard_restart_ok s Hv (gates_ok_dests_ok _ Hg))
      as (q' & s1' & E1' & Hs1 & _).
    rewrite E1 in E1'. injection E1' as <- <-.
    destruct Hs1 as (Hv1 & _ & Hc1 & _).
    assert (Hdim1 : _dim (self s1) = _dim (self s))
      by (unfold settings in Hset1; congruence).
    assert (K1 : kept s s1) by (apply (kept_app _ _ extra), Hheap1).
    assert (Hg1 : gates_ok s1).
    { intros d Ed.
      assert (Ed' : _magic_gates_destinations (self s) = Some d)
        by (unfold settings in Hset1; congruence).
      destruct (Hg d Ed') as (items & Ei & Hall). exists items.
      split; [rewrite Hheap1; apply lookup_app_l_Some, Ei|].
      revert Hall. apply Forall_impl. intros l. apply kept_vec_at; assumption. }
    unfold try_except_ValueError in E.
    pose proof (walk_ok fuel _ s1 Hsteps
                  (conj Hv1 (conj (gates_ok_dests_ok _ Hg1)
                     (conj Hc1 (ex_intro _ _ Epath1))))) as Hw.
    destruct (walk fuel (__num_of_steps sim) s1) as [[] s2|e s2|] eqn:E2;
      [|destruct Hw|discriminate].
    clear Hw. unfold walk in E2.
    destruct (Z.leb_spec (__num_of_steps sim) 0); [lia|].
    destruct (walk_loop_trace _ _ _ _ _ Hv1 Hg1 Hc1 Epath1 E2)
      as (added & Epath2 & Hlen & Hadded & K2 & Q2 & P2 & S2 & Hg2 & Hc2).
    assert (Hdim2 : _dim (self s2) = _dim (self s))
      by (unfold settings in S2; congruence).
    apply bind_inv in E as (p & s3 & E3 & E).
    rewrite (get_path_done _ _ Epath2) in E3. injection E3 as <- <-.
    set (s3 := s_alloc s2 (PySeq ([c] ++ added))) in *.
    assert (K3 : kept s2 s3) by (apply (kept_app _ _ [PySeq ([c] ++ added)]); reflexivity).
    assert (Hrec3 : Forall (recorded (__num_of_steps sim) s3)
                      (__sims sim ++ [length (heap s2)])).
    { apply Forall_app. split.
      - revert Hrec. apply Forall_impl. intros l Hl.
        assert (Hlt : (l < length (heap s))%nat).
        { destruct Hl as (first & rest & El & _). apply lookup_lt_Some in El. exact El. }
        apply (recorded_mono _ s); [exact Hl| | |exact Hdim2].
        + exact (kept_trans _ _ _ K1 (kept_trans _ _ _ K2 K3)).
        + intros its El. apply lookup_alloc_old. apply Q2; [lia|].
          rewrite Hheap1. apply lookup_app_l_Some, El.
      - constructor; [|constructor]. exists c, added.
        split; [apply lookup_alloc|]. split; [rewrite Hlen, length_range; lia|].
        split.
        + apply lookup_alloc_old. destruct (K2 _ _ Ec1) as (o' & Ec2 & Hs).
          simpl in Hs. change (self s3) with (self s2). rewrite Hdim2. congruence.
        + revert Hadded. apply Forall_impl. intros l.
          apply kept_vec_at; [exact K3|reflexivity]. }
    assert (Hg3 : gates_ok s3).
    { intros d Ed. destruct (Hg2 d Ed) as (items & Ei & Hall). exists items.
      split; [apply lookup_alloc_old, Ei|].
      revert Hall. apply Forall_impl. intros l.
      apply kept_vec_at; [exact K3|reflexivity]. }
    destruct (IH (record_sim sim (length (heap s2))) s3 Hsteps
                 (valid_walker_settings _ _ S2 Hv1) Hg3 Hrec3 E)
      as (Hrec' & Hlen' & [new Hnew] & Hn & Ht & Ha & Hr & Hset' & K' & Hpath'
          & Hg').
    cbn [record_sim __sims __num_of_steps __times_to_run __axis __radius] in *.
    split; [exact Hrec'|]. split; [rewrite Hlen', length_app; simpl; lia|].
    split; [exists (length (heap s2) :: new); rewrite Hnew, <- app_assoc; reflexivity|].
    repeat (split; [assumption|]).
    split; [change (self s3) with (self s2) in Hset'; congruence|].
    split;
      [exact (kept_trans _ _ _ K1 (kept_trans _ _ _ K2 (kept_trans _ _ _ K3 K')))|].
    split; [|exact Hg'].
    intros _. destruct trials as [|trials]; [|apply Hpath'; discriminate].
    simpl in E. injection E as <- <-. exists ([c] ++ added).
    split; [apply lookup_alloc_old; exact Epath2|].
    rewrite length_app, Hlen. simpl.
    pose proof (length_range (__num_of_steps sim)). lia.
Qed.

(** What a run leaves, for a Simulation made over a valid walker. *)
Lemma run_recorded fuel s times_to_run num_of_steps axis radius sim sim' s' :
  valid_walker (self s) -> gates_ok s ->
  Simulation_init times_to_run num_of_steps axis radius s = Done sim s ->
  run fuel sim s = Done sim' s' ->
  Forall (recorded num_of_steps s') (__sims sim')
  /\ length (__sims sim') = Z.to_nat times_to_run
  /\ 1 <= times_to_run /\ 1 <= num_of_steps
  /\ leb radius zero = false
  /\ __radius sim' = radius /\ __axis sim' = axis
  /\ __num_of_steps sim' = num_of_steps
  /\ settings (self s') = settings (self s)
  /\ Z.of_nat (length axis) = _dim (self s)
  /\ exists items, heap s' !! _path (self s') = Some (PySeq items)
                   /\ Z.of_nat (length items) = num_of_steps + 1.
Proof.
  intros Hv Hg Einit Erun.
  destruct (Simulation_init_cases s times_to_run num_of_steps axis radius)
    as [[_ Ei]|[Hok Ei]]; rewrite Ei in Einit; [discriminate|].
  injection Einit as <-. clear Ei.
  assert (Hsteps : 1 <= num_of_steps) by (unfold init_rejects in Hok; lia).
  assert (Htimes : 1 <= times_to_run) by (unfold init_rejects in Hok; lia).
  assert (Haxis : Z.of_nat (length axis) = _dim (self s)).
  { unfold init_rejects in Hok.
    destruct (Z.eq_dec (Z.of_nat (length axis)) (_dim (self s))); [assumption|].
    exfalso. apply Hok. auto 6. }
  assert (Hrad : leb radius zero = false).
  { unfold init_rejects in Hok. destruct (leb radius zero); [|reflexivity].
    exfalso. apply Hok. auto. }
  unfold run in Erun. cbn [__times_to_run] in Erun.
  set (sim := {| __axis := axis; __radius := radius;
                 __times_to_run := times_to_run;
                 __num_of_steps := num_of_steps; __sims := [] |}) in *.
  destruct (run_loop_trace _ _ sim _ _ _ Hsteps Hv Hg (Forall_nil _) Erun)
    as (Hrec & Hlen & _ & Hn & _ & Ha & Hr & Hset & _ & Hpath & _).
  cbn [__sims __num_of_steps __axis __radius] in *.
  repeat (split; [assumption|]). apply Hpath. lia.
Qed.

(** * Further properties of the walker and of the simulation *)

(** ** Geometry and the read-only methods *)

Lemma exit_loop_sound (points : trajectory) (i k : Z) (radius : num) :
  leb radius zero = false ->
  exit_loop points i radius = Ok k ->
  (k = 0 /\ Forall (fun p => ltb radius (norm p) = false) points)
  \/ (exists (d : nat) p,
        k = i + Z.of_nat d /\ points !! d = Some p
        /\ ltb radius (norm p) = true
        /\ forall j q, (j < d)%nat -> points !! j = Some q ->
                       ltb radius (norm q) = false).
Proof.
  intros Hr. revert i. induction points as [|p points IH]; intros i; simpl.
  - intros [= <-]. left. split; [reflexivity|constructor].
  - rewrite (exited_radius_ok _ _ Hr). simpl.
    destruct (ltb radius (norm p)) eqn:Hp.
    + intros [= <-]. right. exists 0%nat, p.
      split; [lia|]. split; [reflexivity|]. split; [exact Hp|]. intros j q Hj. lia.
    + intros Hk. destruct (IH _ Hk) as [[-> Hall]|(d & q & -> & Hq & Hout & Hbefore)].
      * left. split; [reflexivity|]. constructor; assumption.
      * right. exists (S d), q. split; [lia|]. split; [exact Hq|].
        split; [exact Hout|]. intros [|j] q' Hj Hq'.
        -- injection Hq' as <-. exact Hp.
        -- apply (Hbefore j); [lia|exact Hq'].
Qed.

(** X1. For a positive radius, whatever [exited_radius_at] returns is an
    index of the path; a result other than 0 is the index of a point
    that is outside the radius, with every earlier point inside; and
    the result 0 means that no point is outside or that the first is. *)
Theorem exited_radius_at_sound (path : trajectory) (radius : num) (k : Z) :
  leb radius zero = false ->
  exited_radius_at path radius = Ok k ->
  0 <= k < Z.of_nat (length path)
  /\ (k <> 0 ->
      exists p, path !! Z.to_nat k = Some p
                /\ ltb radius (norm p) = true
                /\ forall j q, (j < Z.to_nat k)%nat -> path !! j = Some q ->
                               ltb radius (norm q) = false)
  /\ (k = 0 ->
      Forall (fun p => ltb radius (norm p) = false) path
      \/ exists p, path !! 0%nat = Some p /\ ltb radius (norm p) = true).
Proof.
  intros Hr. unfold exited_radius_at. rewrite Hr.
  destruct path as [|p0 path]; [discriminate|].
  change ((length (p0 :: path) =? 0)%nat) with false. cbv iota. intros Hk.
  destruct (exit_loop_sound _ _ _ _ Hr Hk)
    as [[-> Hall]|(d & p & -> & Hp & Hout & Hbefore)].
  - split; [simpl; lia|]. split; [congruence|]. auto.
  - pose proof (lookup_lt_Some _ _ _ Hp) as Hd.
    unfold trajectory, position in *.
    split; [lia|]. rewrite Z.add_0_l, Nat2Z.id. split.
    + intros _. exists p. auto.
    + intros Hz. assert (d = 0%nat) as -> by lia. right. exists p. auto.
Qed.

Lemma count_crossings_bounds (ys : list num) :
  0 <= count_crossings ys <= Z.of_nat (length ys) - 1 \/
  (ys = [] /\ count_crossings ys = 0).
Proof.
  induction ys as [|a ys IH]; [right; auto|]. left.
  destruct ys as [|b ys]; [simpl; lia|].
  destruct IH as [IH|[[=] _]].
  change (count_crossings (a :: b :: ys))
    with ((if crosses a b then 1 else 0) + count_crossings (b :: ys)).
  change (length (a :: b :: ys)) with (S (length (b :: ys))).
  destruct (crosses a b); lia.
Qed.

Lemma count_crossings_take_mono (ys : list num) (n : nat) :
  count_crossings (take n ys) <= count_crossings (take (S n) ys).
Proof.
  revert n. induction ys as [|a ys IH]; intros n; [destruct n; simpl; lia|].
  destruct n as [|n]; [simpl; lia|].
  destruct ys as [|b ys]; [destruct n; simpl; lia|].
  destruct n as [|n].
  - change (take 1 (a :: b :: ys)) with [a].
    change (take 2 (a :: b :: ys)) with [a; b].
    simpl. destruct (crosses a b); lia.
  - specialize (IH (S n)).
    change (take (S (S n)) (a :: b :: ys)) with (a :: take (S n) (b :: ys)).
    change (take (S (S (S n))) (a :: b :: ys))
      with (a :: take (S (S n)) (b :: ys)).
    change (take (S n) (b :: ys)) with (b :: take n ys) in *.
    change (take (S (S n)) (b :: ys)) with (b :: take (S n) ys) in *.
    change (count_crossings (a :: b :: take n ys))
      with ((if crosses a b then 1 else 0) + count_crossings (b :: take n ys)).
    change (count_crossings (a :: b :: take (S n) ys))
      with ((if crosses a b then 1 else 0) + count_crossings (b :: take (S n) ys)).
    lia.
Qed.

Lemma times_crossed_value (path : trajectory) (z : Z) :
  Forall (fun p => (2 <= length p)%nat) path ->
  0 <= z < Z.of_nat (length path) ->
  times_crossed_y_axis_after path (AnInt z)
  = Ok (count_crossings (take (Z.to_nat z) (second_coordinates path))).
Proof.
  intros Hdim [Hlo Hhi]. unfold times_crossed_y_axis_after. simpl.
  destruct (Z.ltb_spec z 0); [lia|].
  destruct (Z.leb_spec (Z.of_nat (length path)) z); [lia|].
  destruct (Z.eq_dec z 0) as [->|Hz]; [reflexivity|].
  rewrite (crossing_loop_counts path (Z.to_nat (z - 1)) 0 0 Hdim) by lia.
  rewrite drop_0. replace (S (Z.to_nat (z - 1))) with (Z.to_nat z) by lia.
  reflexivity.
Qed.

(** X2. On points of two coordinates or more, the number of crossings
    after [n] steps is between 0 and [n - 1] (0 for [n = 0]), and it
    does not decrease when [n] grows by one. *)
Theorem times_crossed_y_axis_after_bounds (path : trajectory) (z : Z) :
  Forall (fun p => (2 <= length p)%nat) path ->
  0 <= z < Z.of_nat (length path) ->
  exists c,
    times_crossed_y_axis_after path (AnInt z) = Ok c
    /\ 0 <= c <= Z.max 0 (z - 1)
    /\ (z + 1 < Z.of_nat (length path) ->
        exists c', times_crossed_y_axis_after path (AnInt (z + 1)) = Ok c'
                   /\ c <= c').
Proof.
  intros Hdim Hz. eexists. split; [apply times_crossed_value; assumption|].
  set (ys := second_coordinates path).
  assert (Hlen : length ys = length path)
    by (unfold ys, second_coordinates; apply length_fmap).
  split.
  - destruct (count_crossings_bounds (take (Z.to_nat z) ys)) as [Hb|[_ ->]]; [|lia].
    rewrite length_take in Hb. lia.
  - intros Hnext. eexists. split; [apply times_crossed_value; [assumption|lia]|].
    replace (Z.to_nat (z + 1)) with (S (Z.to_nat z)) by lia.
    apply count_crossings_take_mono.
Qed.

Lemma lookup_repeat {A : Type} (x : A) (n j : nat) :
  (j < n)%nat -> repeat x n !! j = Some x.
Proof.
  revert j. induction n as [|n IH]; intros j Hj; [lia|].
  destruct j as [|j]; [reflexivity|]. simpl. apply IH. lia.
Qed.

(** X3. [get_basis_vectors()] is the identity matrix of the walker's
    dimension: [dim] rows of [dim] entries, 1 on the diagonal and 0
    elsewhere. *)
Theorem get_basis_vectors_identity (dim : Z) :
  length (get_basis_vectors dim) = Z.to_nat dim
  /\ forall i j : nat,
       (i < Z.to_nat dim)%nat -> (j < Z.to_nat dim)%nat ->
       exists row,
         get_basis_vectors dim !! i = Some row
         /\ length row = Z.to_nat dim
         /\ row !! j = Some (if decide (i = j) then 1 else 0).
Proof.
  unfold get_basis_vectors. split; [rewrite length_map, length_seq; reflexivity|].
  intros i j Hi Hj. eexists. split; [apply lookup_map_seq, Hi|]. simpl.
  split; [rewrite length_insert; apply repeat_length|].
  destruct (decide (i = j)) as [<-|Hne].
  - apply list_lookup_insert_eq. rewrite repeat_length. exact Hi.
  - rewrite list_lookup_insert_ne by assumption. apply lookup_repeat, Hj.
Qed.

(** X4. [validate_gates] accepts exactly three shapes of arguments: no
    placements and no destinations; two empty lists; or two non-empty
    lists whose vectors all have the walker's dimension (the two lists
    need not have the same length).  Everything else is a ValueError. *)
Theorem validate_gates_accepts (dests placements : option (list position))
    (n_dim : Z) :
  (validate_gates dests placements n_dim = Ok tt
   \/ validate_gates dests placements n_dim = Raise ValueError)
  /\ (validate_gates dests placements n_dim = Ok tt <->
      (placements = None /\ dests = None)
      \/ (placements = Some [] /\ dests = Some [])
      \/ (exists p ps d ds,
            placements = Some (p :: ps) /\ dests = Some (d :: ds)
            /\ all_of_dim n_dim (p :: ps) = true
            /\ all_of_dim n_dim (d :: ds) = true)).
Proof.
  unfold validate_gates.
  destruct placements as [[|p ps]|], dests as [[|d ds]|];
    try (destruct (all_of_dim n_dim (p :: ps)) eqn:Hp);
    try (destruct (all_of_dim n_dim (d :: ds)) eqn:Hd);
    cbn; (split; [auto|]);
    (split; [try discriminate; intros _; eauto 12|]).
  all: intros [[? ?]|[[? ?]|(p' & ps' & d' & ds' & ? & ? & ? & ?)]];
    try discriminate; try reflexivity.
  all: simplify_eq; unfold all_of_dim in *; cbn in *; congruence.
Qed.

(** ** Construction, restarts and set_path *)

Lemma deref_all_lists (σ : store) (items : list loc) (t : trajectory) :
  Forall2 (fun l p => σ !! l = Some (PyList p)) items t ->
  deref_all σ items = Ok t.
Proof.
  induction 1 as [|l p items t Hl _ IH]; simpl; [reflexivity|].
  unfold deref_vec. rewrite Hl. simpl. rewrite IH. reflexivity.
Qed.

(** X5. A constructor that succeeds leaves every object of the store as
    it was and adds the walker's own: the trajectory is the one-point
    sequence of the origin of dimension [n_dim], the cursor is the
    origin, and the first point of the path is the cursor object
    itself. *)
Theorem Walker_init_origin (variant : Variant) (σ : store) (name : string)
    (n_dim : Z) (placements : option (list position)) (dests : option loc)
    (obstacles : option (list position)) (chance : num) (every : Z)
    (w : Walker) (σ' : store) :
  Walker_init variant σ name n_dim placements dests obstacles chance every
  = Ok (w, σ') ->
  (forall g, internal (born w σ' g) = (Ok [zeros n_dim], Ok (zeros n_dim)))
  /\ σ' !! _path w = Some (PySeq [_current_position w])
  /\ (forall l o, σ !! l = Some o -> σ' !! l = Some o)
  /\ _dim w = n_dim /\ 1 < n_dim /\ __name w = name /\ name <> EmptyString.
Proof.
  unfold Walker_init. intros E.
  apply bind_ok_inv in E as (ds & _ & E).
  apply seq_ok_inv in E as [Hname%check_inv E].
  apply seq_ok_inv in E as [Hdim%check_inv E].
  apply seq_ok_inv in E as [_ E].
  apply seq_ok_inv in E as [_ E].
  apply seq_ok_inv in E as [_ E].
  injection E as <- <-. cbn [_path _current_position _dim __name].
  assert (Ec : (σ ++ [PyList (zeros n_dim); PySeq [length σ]]) !! length σ
               = Some (PyList (zeros n_dim))).
  { apply list_lookup_middle. reflexivity. }
  assert (Ep : (σ ++ [PyList (zeros n_dim); PySeq [length σ]]) !! S (length σ)
               = Some (PySeq [length σ])).
  { change (σ ++ [PyList (zeros n_dim); PySeq [length σ]])
      with (σ ++ [PyList (zeros n_dim)] ++ [PySeq [length σ]]).
    rewrite app_assoc. apply list_lookup_middle. rewrite length_app. simpl. lia. }
  split; [|split; [exact Ep|split; [|split; [reflexivity|split; [|split]]]]].
  - intros g. unfold internal, born. cbn [heap self _path _current_position].
    rewrite (deref_trajectory_intro _ _ [length σ] [zeros n_dim] Ep).
    + unfold deref_vec. rewrite Ec. reflexivity.
    + apply deref_all_lists. repeat constructor. exact Ec.
  - intros l o. apply lookup_app_l_Some.
  - apply negb_true_iff, Z.leb_gt in Hdim. exact Hdim.
  - reflexivity.
  - apply negb_true_iff in Hname. intros ->. discriminate.
Qed.

(** X6. [hard_restart()] works in every state: afterwards the trajectory
    is the one-point sequence of the origin and the cursor is the
    origin, whatever was walked before; the returned list is a copy,
    not the cursor; the settings and every older object are as they
    were. *)
Theorem hard_restart_resets (s : State) :
  exists q s',
    hard_restart s = Done q s'
    /\ internal s' = (Ok [zeros (_dim (self s))], Ok (zeros (_dim (self s))))
    /\ deref_vec (heap s') q = Ok (zeros (_dim (self s)))
    /\ q <> _current_position (self s')
    /\ settings (self s') = settings (self s)
    /\ (forall l o, heap s !! l = Some o -> heap s' !! l = Some o).
Proof.
  unfold hard_restart. rewrite bind_getself.
  rewrite (bind_done _ _ _ _ _ (alloc_done _ s)).
  rewrite (bind_done _ _ _ _ _ (set_position_done _ _)).
  set (c := length (heap s)).
  set (s2 := s_cursor (s_alloc s (PyList (zeros (_dim (self s))))) c).
  rewrite (bind_done _ _ _ _ _ (alloc_done _ s2)).
  rewrite (bind_done _ _ _ _ _ (set_path_ref_done _ _)).
  set (s4 := s_path (s_alloc s2 (PySeq [c])) (length (heap s2))).
  assert (Ec : heap s4 !! c = Some (PyList (zeros (_dim (self s))))).
  { apply lookup_alloc_old. apply lookup_alloc. }
  rewrite (slice_all_list _ _ _ Ec).
  set (s5 := {| heap := heap s4 ++ _ |}).
  assert (Ec5 : heap s5 !! c = Some (PyList (zeros (_dim (self s)))))
    by (apply lookup_app_l_Some, Ec).
  assert (Ep5 : heap s5 !! length (heap s2) = Some (PySeq [c])).
  { apply lookup_app_l_Some. apply (lookup_alloc s2). }
  eexists _, _. split; [reflexivity|].
  split; [|split; [|split; [|split; [reflexivity|]]]].
  - unfold internal. change (_path (self s5)) with (length (heap s2)).
    change (_current_position (self s5)) with c.
    rewrite (deref_trajectory_intro _ _ [c] [zeros (_dim (self s))] Ep5).
    + unfold deref_vec. rewrite Ec5. reflexivity.
    + apply deref_all_lists. repeat constructor. exact Ec5.
  - unfold deref_vec. change (heap s5) with (heap s4 ++ [PyList (zeros (_dim (self s)))]).
    rewrite list_lookup_middle by reflexivity. reflexivity.
  - change (_current_position (self s5)) with c. unfold c.
    change (heap s4) with ((heap s ++ [PyList (zeros (_dim (self s)))]) ++ [PySeq [c]]).
    rewrite !length_app. simpl. lia.
  - intros l o E. apply lookup_app_l_Some, lookup_alloc_old, lookup_alloc_old, E.
Qed.

(** X7. [restart()] puts the cursor on a new origin and returns a copy of
    it; the path object and the value of the trajectory are as they
    were, and so is every older object. *)
Theorem restart_keeps_path (s : State) (t : trajectory) :
  deref_trajectory (heap s) (_path (self s)) = Ok t ->
  exists q s',
    restart s = Done q s'
    /\ internal s' = (Ok t, Ok (zeros (_dim (self s))))
    /\ deref_vec (heap s') q = Ok (zeros (_dim (self s)))
    /\ q <> _current_position (self s')
    /\ settings (self s') = settings (self s)
    /\ _path (self s') = _path (self s)
    /\ (forall l o, heap s !! l = Some o -> heap s' !! l = Some o).
Proof.
  intros Et. unfold restart. rewrite bind_getself.
  rewrite (bind_done _ _ _ _ _ (alloc_done _ s)).
  rewrite (bind_done _ _ _ _ _ (set_position_done _ _)).
  set (c := length (heap s)).
  set (s2 := s_cursor (s_alloc s (PyList (zeros (_dim (self s))))) c).
  assert (Ec : heap s2 !! c = Some (PyList (zeros (_dim (self s)))))
    by apply lookup_alloc.
  rewrite (slice_all_list _ _ _ Ec).
  set (s3 := {| heap := heap s2 ++ _ |}).
  eexists _, _. split; [reflexivity|].
  split; [|split; [|split; [|split; [reflexivity|split; [reflexivity|]]]]].
  - unfold internal. change (_path (self s3)) with (_path (self s)).
    change (_current_position (self s3)) with c.
    change (heap s3) with ((heap s ++ [PyList (zeros (_dim (self s)))])
                             ++ [PyList (zeros (_dim (self s)))]).
    rewrite (deref_trajectory_app _ _ _ _ (deref_trajectory_app _ _ _ _ Et)).
    f_equal. apply (deref_vec_app _ [PyList (zeros (_dim (self s)))]).
    unfold deref_vec. rewrite list_lookup_middle by reflexivity. reflexivity.
  - unfold deref_vec. change (heap s3) with (heap s2 ++ [PyList (zeros (_dim (self s)))]).
    rewrite list_lookup_middle by reflexivity. reflexivity.
  - change (_current_position (self s3)) with c. unfold c.
    change (heap s2) with (heap s ++ [PyList (zeros (_dim (self s)))]).
    rewrite length_app. simpl. lia.
  - intros l o E. apply lookup_app_l_Some, lookup_alloc_old, E.
Qed.

(** ** set_path *)

Lemma set_path_done s path items :
  heap s !! path = Some (PySeq items) -> items <> [] ->
  exists final,
    list.last items = Some final
    /\ set_path path s
       = Done tt (s_cursor (s_path (s_alloc s (PySeq items)) (length (heap s)))
                           final).
Proof.
  intros E Hne. unfold set_path.
  rewrite (bind_done _ _ _ _ _ (load_seq_done _ _ _ E)).
  destruct (Nat.eqb_spec (length items) 0) as [Hlen|_];
    [destruct items; [congruence|discriminate]|].
  rewrite (bind_done _ _ _ _ _ (alloc_done _ s)).
  rewrite (bind_done _ _ _ _ _ (set_path_ref_done _ _)).
  destruct (list.last items) as [final|] eqn:El;
    [|apply last_None in El; congruence].
  exists final. split; [reflexivity|].
  rewrite last_lookup in El.
  replace (Init.Nat.pred (length items)) with (length items - 1)%nat in El by lia.
  unfold lift at 1. rewrite (index_Some _ _ _ El). reflexivity.
Qed.

(** X8. [set_path(path)] raises ValueError on an empty list and leaves
    the walker as it was; on any other list it gives the walker a new
    list of the same point objects, puts the cursor on the last point
    object of the caller's list, and changes no object of the store. *)
Theorem set_path_adopts (s : State) (path : loc) (items : list loc) :
  heap s !! path = Some (PySeq items) ->
  (items = [] -> set_path path s = Throw ValueError s)
  /\ (items <> [] ->
      exists s' final,
        set_path path s = Done tt s'
        /\ list.last items = Some final
        /\ _current_position (self s') = final
        /\ _path (self s') <> path
        /\ heap s' !! _path (self s') = Some (PySeq items)
        /\ (forall l o, heap s !! l = Some o -> heap s' !! l = Some o)
        /\ settings (self s') = settings (self s)).
Proof.
  intros E. split.
  - intros ->. unfold set_path.
    rewrite (bind_done _ _ _ _ _ (load_seq_done _ _ _ E)). reflexivity.
  - intros Hne. destruct (set_path_done s path items E Hne) as (final & El & Es).
    eexists _, final. split; [exact Es|]. split; [exact El|].
    cbn [self heap s_cursor s_path s_alloc _current_position _path].
    split; [reflexivity|]. split.
    { apply lookup_lt_Some in E. lia. }
    split; [apply list_lookup_middle; reflexivity|].
    split; [|reflexivity]. intros l o. apply lookup_app_l_Some.
Qed.

(** ** Walker.walk: the trajectory grows at its end *)

(** X9. From a state in which the walker is valid, a walk that returns
    has extended the trajectory: its value is the previous points, as
    they were, followed by [steps] new points of the walker's
    dimension. No list of numbers in the store has changed, nor any
    list of references but the path, and the settings are as they
    were. *)
Theorem walk_extends_trajectory (fuel : nat) (steps : Z) (s s' : State)
    (items : list loc) (t : trajectory) :
  valid_walker (self s) -> gates_ok s -> cursor_ok s ->
  heap s !! _path (self s) = Some (PySeq items) ->
  Forall2 (fun l p => heap s !! l = Some (PyList p)) items t ->
  walk fuel steps s = Done tt s' ->
  exists t',
    deref_trajectory (heap s') (_path (self s')) = Ok (t ++ t')
    /\ Z.of_nat (length t') = steps
    /\ Forall (fun p => length p = Z.to_nat (_dim (self s))) t'
    /\ (forall l xs, heap s !! l = Some (PyList xs) ->
                     heap s' !! l = Some (PyList xs))
    /\ (forall l its, l <> _path (self s) ->
                      heap s !! l = Some (PySeq its) ->
                      heap s' !! l = Some (PySeq its))
    /\ _path (self s') = _path (self s)
    /\ settings (self s') = settings (self s).
Proof.
  intros Hv Hg Hc Epath Ht. unfold walk.
  destruct (Z.leb_spec steps 0) as [|Hsteps]; [discriminate|]. intros E.
  destruct (walk_loop_trace _ _ _ _ _ Hv Hg Hc Epath E)
    as (added & Epath' & Hlen & Hadded & K & Q & P & S & _ & _).
  destruct (deref_all_vec s' added Hadded) as (t' & Et' & Hlen' & Hall).
  assert (Hdim : _dim (self s') = _dim (self s))
    by (unfold settings in S; congruence).
  exists t'. split; [|split; [|split; [|split; [|auto]]]].
  - apply (deref_trajectory_intro _ _ (items ++ added)); [exact Epath'|].
    apply deref_all_concat; [|exact Et'].
    apply deref_all_lists. apply (lists_kept s); assumption.
  - rewrite Hlen', Hlen, length_range. lia.
  - rewrite <- Hdim. exact Hall.
  - intros l xs El. destruct (K _ _ El) as (o' & El' & Hs). simpl in Hs.
    congruence.
Qed.

(** ** Simulation.run and the statistics *)


Lemma set_path_recorded steps s l :
  recorded steps s l ->
  exists s1 t o,
    set_path l s = Done tt s1
    /\ deref_trajectory (heap s1) (_path (self s1))
       = Ok (zeros (_dim (self s)) :: t)
    /\ Z.of_nat (length t) = steps
    /\ Forall (fun p => length p = Z.to_nat (_dim (self s))) t
    /\ heap s1 = heap s ++ [o]
    /\ settings (self s1) = settings (self s).
Proof.
  intros Hl. destruct (recorded_value _ _ _ Hl) as (t & Et & Hlen & Hall).
  destruct Hl as (first & rest & El & _).
  destruct (set_path_done s l (first :: rest) El ltac:(discriminate))
    as (final & _ & Es).
  eexists _, t, _. split; [exact Es|].
  cbn [self heap s_cursor s_path s_alloc _path].
  split; [|split; [exact Hlen|split; [exact Hall|split; reflexivity]]].
  apply deref_trajectory_inv in Et as (items & El' & Et).
  pose proof (eq_trans (eq_sym El) El') as [= <-].
  apply (deref_trajectory_intro _ _ (first :: rest)).
  - apply list_lookup_middle. reflexivity.
  - apply deref_all_app, Et.
Qed.

Lemma recorded_app steps s s1 o l :
  heap s1 = heap s ++ [o] -> settings (self s1) = settings (self s) ->
  recorded steps s l -> recorded steps s1 l.
Proof.
  intros Hheap Hset Hl. apply (recorded_mono _ s); [exact Hl| | |].
  - apply (kept_app _ _ [o]), Hheap.
  - intros its E. rewrite Hheap. apply lookup_app_l_Some, E.
  - unfold settings in Hset. congruence.
Qed.

(** A statistic that reads the path, over the recorded trials. *)
Lemma apply_loop_recorded {A : Type} (func : M A) (f : trajectory -> result A)
    (P : A -> Prop) (steps dim : Z) (sims : list loc) (s : State) :
  (forall s1 t, deref_trajectory (heap s1) (_path (self s1)) = Ok t ->
                _dim (self s1) = dim -> func s1 = lift (f t) s1) ->
  (forall t, Z.of_nat (length t) = steps ->
             Forall (fun p => length p = Z.to_nat dim) t ->
             exists r, f (zeros dim :: t) = Ok r /\ P r) ->
  _dim (self s) = dim ->
  Forall (recorded steps s) sims ->
  exists rs s',
    apply_loop sims func s = Done rs s'
    /\ length rs = length sims /\ Forall P rs.
Proof.
  intros Hfunc Hf. revert s. induction sims as [|l sims IH]; intros s Hdim Hrec; simpl.
  - exists [], s. auto.
  - apply list.Forall_cons in Hrec as [Hl Hrec].
    destruct (set_path_recorded _ _ _ Hl)
      as (s1 & t & o & Es & Et & Hlen & Hall & Hheap & Hset).
    rewrite Hdim in Et, Hall.
    assert (Hdim1 : _dim (self s1) = dim)
      by (unfold settings in Hset; congruence).
    rewrite (bind_done _ _ _ _ _ Es).
    destruct (Hf t Hlen Hall) as (r & Er & Hr).
    assert (Efunc : func s1 = Done r s1).
    { rewrite (Hfunc _ _ Et Hdim1). unfold lift. rewrite Er. reflexivity. }
    rewrite (bind_done _ _ _ _ _ Efunc).
    destruct (IH s1 Hdim1) as (rs & s' & E & Hlenrs & Hrs).
    { revert Hrec. apply Forall_impl. intros l'.
      apply (recorded_app _ _ _ _ _ Hheap Hset). }
    rewrite (bind_done _ _ _ _ _ E).
    exists (r :: rs), s'. split; [reflexivity|].
    split; [simpl; congruence|constructor; assumption].
Qed.

Lemma apply_loop_raises {A : Type} (func : M A) (f : trajectory -> result A)
    (e : exn) (steps : Z) (l : loc) (sims : list loc) (s : State) :
  (forall s1 t, deref_trajectory (heap s1) (_path (self s1)) = Ok t ->
                func s1 = lift (f t) s1) ->
  (forall t, Z.of_nat (length t) = steps ->
             f (zeros (_dim (self s)) :: t) = Raise e) ->
  recorded steps s l ->
  exists s', apply_loop (l :: sims) func s = Throw e s'.
Proof.
  intros Hfunc Hf Hl. simpl.
  destruct (set_path_recorded _ _ _ Hl)
    as (s1 & t & o & Es & Et & Hlen & _ & _ & _).
  rewrite (bind_done _ _ _ _ _ Es).
  exists s1. unfold mbind at 1, M_bind at 1.
  rewrite (Hfunc _ _ Et). unfold lift. rewrite (Hf t Hlen). reflexivity.
Qed.

Lemma Forall_eq_repeat {A : Type} (x : A) (l : list A) :
  Forall (fun y => y = x) l -> l = repeat x (length l).
Proof. induction 1 as [|y l -> _ IH]; simpl; congruence. Qed.





(** ** get_avg_path after a run *)

Lemma add_point_total row point js :
  Forall (fun j => (j < length row)%nat /\ (j < length point)%nat) js ->
  exists row', add_point row point js = Ok row'.
Proof.
  revert row. induction js as [|j js IH]; intros row Hjs; simpl; [eauto|].
  apply list.Forall_cons in Hjs as [[Hr Hp] Hjs].
  destruct (lookup_lt_is_Some_2 row j Hr) as [a Ea].
  destruct (lookup_lt_is_Some_2 point j Hp) as [b Eb].
  rewrite (index_Some _ _ _ Ea), (index_Some _ _ _ Eb). cbn [mbind result_bind].
  apply IH. revert Hjs. apply Forall_impl. intros j'.
  rewrite length_insert. auto.
Qed.

Lemma add_sim_total d avg (sim : trajectory) rows js :
  rows_of d avg -> Forall (fun p => length p = d) sim ->
  Forall (fun j => (j < d)%nat) js ->
  Forall (fun i => (i < length avg)%nat /\ (i < length sim)%nat) rows ->
  exists avg', add_sim avg sim rows js = Ok avg'.
Proof.
  intros Havg Hsim Hjs. revert avg Havg.
  induction rows as [|i rows IH]; intros avg Havg Hrows; simpl; [eauto|].
  apply list.Forall_cons in Hrows as [[Ha Hs] Hrows].
  destruct (lookup_lt_is_Some_2 avg i Ha) as [row Erow].
  destruct (lookup_lt_is_Some_2 sim i Hs) as [point Epoint].
  rewrite (index_Some _ _ _ Erow), (index_Some _ _ _ Epoint).
  cbn [mbind result_bind].
  pose proof (proj1 (Forall_lookup _ _) Havg _ _ Erow) as Hrow.
  pose proof (proj1 (Forall_lookup _ _) Hsim _ _ Epoint) as Hpoint.
  simpl in Hrow, Hpoint.
  destruct (add_point_total row point js) as [row' Erow'].
  { revert Hjs. apply Forall_impl. intros j. lia. }
  rewrite Erow'. cbn [mbind result_bind]. apply IH.
  - apply rows_of_insert; [exact Havg|].
    rewrite (add_point_length _ _ _ _ Erow'). exact Hrow.
  - revert Hrows. apply Forall_impl. intros i'. rewrite length_insert. auto.
Qed.

Lemma add_sims_total d avg (sims : list trajectory) js :
  rows_of d avg -> Forall (fun j => (j < d)%nat) js ->
  Forall (fun sim : trajectory =>
            (length sim <= length avg)%nat
            /\ Forall (fun p => length p = d) sim) sims ->
  exists avg', add_sims avg sims js = Ok avg'.
Proof.
  intros Havg Hjs. revert avg Havg.
  induction sims as [|sim sims IH]; intros avg Havg Hsims; simpl; [eauto|].
  apply list.Forall_cons in Hsims as [[Hlen Hsim] Hsims].
  assert (H1 : exists avg1,
             match sim with
             | [] => Ok avg
             | _ :: _ => add_sim avg sim (seq 0 (length sim)) js
             end = Ok avg1
             /\ length avg1 = length avg /\ rows_of d avg1).
  { destruct sim as [|pt sim]; [eauto|].
    destruct (add_sim_total d avg (pt :: sim) (seq 0 (length (pt :: sim))) js)
      as [avg1 E1]; try assumption.
    - apply Forall_seq. intros i Hi. lia.
    - exists avg1. split; [exact E1|]. eapply add_sim_shape; eassumption. }
  destruct H1 as (avg1 & E1 & Hlen1 & Havg1). rewrite E1.
  cbn [mbind result_bind]. apply IH; [exact Havg1|].
  revert Hsims. apply Forall_impl. intros sim'. rewrite Hlen1. auto.
Qed.

Lemma divide_row_total row n js :
  n <> 0 -> Forall (fun j => (j < length row)%nat) js ->
  exists row', divide_row row n js = Ok row'.
Proof.
  intros Hn. revert row. induction js as [|j js IH]; intros row Hjs; simpl; [eauto|].
  apply list.Forall_cons in Hjs as [Hj Hjs].
  destruct (lookup_lt_is_Some_2 row j Hj) as [a Ea].
  rewrite (index_Some _ _ _ Ea). cbn [mbind result_bind].
  destruct (Z.eqb_spec n 0); [contradiction|].
  apply IH. revert Hjs. apply Forall_impl. intros j'.
  rewrite length_insert. auto.
Qed.

Lemma divide_rows_total d avg n rows js :
  n <> 0 -> rows_of d avg -> Forall (fun j => (j < d)%nat) js ->
  Forall (fun i => (i < length avg)%nat) rows ->
  exists avg', divide_rows avg n rows js = Ok avg'.
Proof.
  intros Hn Havg Hjs. revert avg Havg.
  induction rows as [|i rows IH]; intros avg Havg Hrows; simpl; [eauto|].
  apply list.Forall_cons in Hrows as [Hi Hrows].
  destruct (lookup_lt_is_Some_2 avg i Hi) as [row Erow].
  rewrite (index_Some _ _ _ Erow). cbn [mbind result_bind].
  pose proof (proj1 (Forall_lookup _ _) Havg _ _ Erow) as Hrow. simpl in Hrow.
  destruct (divide_row_total row n js Hn) as [row' Erow'].
  { rewrite Hrow. exact Hjs. }
  rewrite Erow'. cbn [mbind result_bind]. apply IH.
  - apply rows_of_insert; [exact Havg|].
    rewrite (divide_row_length _ _ _ _ Erow'). exact Hrow.
  - revert Hrows. apply Forall_impl. intros i'. rewrite length_insert. auto.
Qed.

Lemma avg_path_of_total (num_of_steps dim : Z) (sims : list trajectory) :
  sims <> [] ->
  Forall (fun sim : trajectory =>
            Z.of_nat (length sim) <= 2 * num_of_steps
            /\ Forall (fun p => length p = Z.to_nat dim) sim) sims ->
  exists avg, avg_path_of num_of_steps dim sims = Ok avg.
Proof.
  intros Hne Hsims. unfold avg_path_of.
  set (avg0 := repeat (zeros dim) (Z.to_nat num_of_steps)
               ++ repeat (zeros dim) (Z.to_nat num_of_steps)).
  assert (Hz : rows_of (Z.to_nat dim) avg0).
  { apply Forall_app. split; apply Forall_repeat_intro; apply repeat_length. }
  assert (Hjs : Forall (fun j => (j < Z.to_nat dim)%nat) (seq 0 (Z.to_nat dim))).
  { apply Forall_seq. intros j Hj. lia. }
  destruct (add_sims_total (Z.to_nat dim) avg0 sims (seq 0 (Z.to_nat dim)) Hz Hjs)
    as [avg1 E1].
  { revert Hsims. apply Forall_impl. intros sim [Hlen Hall]. split; [|exact Hall].
    unfold avg0. rewrite length_app, !repeat_length. lia. }
  rewrite E1. cbn [mbind result_bind].
  destruct (add_sims_shape _ _ _ _ _ E1 Hz) as [_ Havg1].
  apply (divide_rows_total (Z.to_nat dim)); try assumption.
  - destruct sims; [congruence|simpl; lia].
  - apply Forall_seq. intros i Hi. lia.
Qed.

Lemma read_sims_recorded steps s sims :
  Forall (recorded steps s) sims ->
  exists ts : list trajectory,
    read_sims (heap s) sims = Ok ts
    /\ length ts = length sims
    /\ Forall (fun t : trajectory =>
                 Z.of_nat (length t) = steps + 1
                 /\ Forall (fun p => length p = Z.to_nat (_dim (self s))) t) ts.
Proof.
  induction 1 as [|l sims Hl _ (ts & Ets & Hlen & Hall)]; simpl.
  - exists []. auto.
  - destruct (recorded_value _ _ _ Hl) as (t & Et & Hlent & Ht).
    rewrite Et. cbn [mbind result_bind]. rewrite Ets. cbn [mbind result_bind].
    eexists. split; [reflexivity|]. split; [simpl; congruence|].
    constructor; [|exact Hall]. split.
    + simpl. unfold trajectory, position in *. lia.
    + constructor; [apply repeat_length|exact Ht].
Qed.


(** ** One step on the grid, obstacles and gates *)

Lemma store_item_list s l xs i a :
  heap s !! l = Some (PyList xs) -> (i < length xs)%nat ->
  store_item l i a s = Done tt (s_save s l (PyList (<[i := a]> xs))).
Proof.
  intros E Hi. unfold store_item.
  rewrite (bind_done _ _ _ _ _ (load_done _ _ _ E)).
  destruct (Nat.ltb_spec i (length xs)); [reflexivity|lia].
Qed.

(** X16. A grid step from a list cursor changes one coordinate by 1 or
    by -1, in a new list that becomes the cursor and is what the step
    returns; the list that was the cursor, and every other object, is
    as it was. *)
Theorem RandomGridWalker_step_unit_move (s : State) (xs : list num) :
  1 <= _dim (self s) ->
  heap s !! _current_position (self s) = Some (PyList xs) ->
  length xs = Z.to_nat (_dim (self s)) ->
  exists (d : nat) (x : num) (sign : Z) (g : rng),
    xs !! d = Some x /\ (sign = -1 \/ sign = 1)
    /\ RandomGridWalker_step s
       = Done (length (heap s))
              {| heap := heap s ++ [PyList (<[d := add x (of_int sign)]> xs)];
                 gen := g;
                 self := self (s_cursor s (length (heap s))) |}.
Proof.
  intros Hdim Ecur Hlen. unfold RandomGridWalker_step. rewrite bind_getself.
  rewrite (bind_done _ _ _ _ _ (slice_all_list _ _ _ Ecur)).
  set (c := length (heap s)).
  rewrite (bind_done _ _ _ _ _ (set_position_done _ _)).
  set (s1 := s_cursor _ c).
  destruct (random_choice_done [-1; 1] s1 ltac:(discriminate)) as (sign & g1 & Esign).
  pose proof (random_choice_inv _ _ _ _ Esign) as [Hsign _].
  rewrite (bind_done _ _ _ _ _ Esign).
  destruct (random_randint_done 0 (_dim (self s) - 1) (s_gen s1 g1) ltac:(lia))
    as (z & g2 & Ez & Hz).
  change (_dim (self s1)) with (_dim (self s)).
  rewrite (bind_done _ _ _ _ _ Ez). cbv zeta.
  set (s3 := s_gen (s_gen s1 g1) g2).
  assert (Ec : heap s3 !! c = Some (PyList xs)).
  { apply list_lookup_middle. reflexivity. }
  rewrite (bind_done _ _ _ _ _ (load_vec_list _ _ _ Ec)).
  destruct (lookup_lt_is_Some_2 xs (Z.to_nat z)) as [x Ex]; [lia|].
  unfold lift at 1. rewrite (index_Some _ _ _ Ex).
  destruct (basis_entry (_dim (self s)) (Z.to_nat z)) as (row & Erow & Ev); [lia|].
  unfold mbind at 1, M_bind at 1.
  unfold lift at 1. rewrite Erow. unfold mbind at 1, M_bind at 1.
  unfold lift at 1. rewrite Ev. unfold mbind at 1, M_bind at 1.
  exists (Z.to_nat z), x, sign, g2. split; [exact Ex|]. split.
  { apply elem_of_cons in Hsign as [->|Hsign]; [auto|].
    apply list_elem_of_singleton in Hsign as ->. auto. }
  rewrite (bind_done _ _ _ _ _
             (store_item_list s3 c xs (Z.to_nat z) _ Ec ltac:(lia))).
  cbn [mret M_ret]. f_equal.
  rewrite Z.mul_1_r. unfold s_save, s3, s1. cbn [heap gen self s_gen s_cursor].
  f_equal. rewrite insert_app_r_alt by (unfold c; lia).
  unfold c. rewrite Nat.sub_diag. reflexivity.
Qed.


Lemma query_ball_point_none tree xs r :
  query_ball_point tree xs r = Ok [] ->
  Forall (fun p => leb (norm (zip_with sub p xs)) r <> true) (kd_data tree).
Proof.
  unfold query_ball_point. destruct (negb _); [discriminate|].
  intros [= E]. apply map_eq_nil in E.
  apply list.Forall_forall. intros p Hp Hle.
  apply list_elem_of_lookup_1 in Hp as [i Hi].
  apply (filter_nil_not_elem_of _ _ (i, p) E); [exact Hle|].
  apply (elem_of_lookup_imap_2 (fun i p => (i, p)) _ _ _ Hi).
Qed.

Lemma resample_clear fuel tree pos s pos' s' :
  resample fuel tree pos s = Done pos' s' ->
  exists xs, deref_vec (heap s') pos' = Ok xs
             /\ query_ball_point tree xs one = Ok [].
Proof.
  revert pos s. induction fuel as [|fuel IH]; intros pos s; simpl;
    intros (xs & s1 & [-> Exs]%load_vec_inv & E)%bind_inv;
    apply bind_inv in E as (found & s2 & E2 & E);
    unfold lift in E2;
    (destruct (query_ball_point tree xs one) as [found'|] eqn:Eq; [|discriminate]);
    injection E2 as <- <-;
    (destruct found' as [|hit hits]; [injection E as <- <-; eauto|]).
  - discriminate.
  - apply bind_inv in E as (pos1 & s1 & _ & E). apply (IH _ _ E).
Qed.


(** The constructor's check of the gates gives [gates_ok]. *)
Lemma all_of_dim_vec σ items (ps : list position) n_dim :
  deref_all σ items = Ok ps -> all_of_dim n_dim ps = true ->
  Forall (fun l => exists o, σ !! l = Some o /\ is_vec (Z.to_nat n_dim) o) items.
Proof.
  revert ps. induction items as [|l items IH]; intros ps; simpl; [constructor|].
  unfold deref_vec at 1. destruct (σ !! l) as [o|] eqn:El; [|discriminate].
  intros E Hall.
  assert (Hcase : exists xs ps', deref_all σ items = Ok ps' /\ ps = xs :: ps'
                                 /\ is_vec (length xs) o).
  { destruct o as [xs|xs|its]; [| |discriminate]; simpl in E;
      (destruct (deref_all σ items) as [ps'|]; [|discriminate]);
      injection E as <-; exists xs, ps'; simpl; auto. }
  destruct Hcase as (xs & ps' & Eps' & -> & Hvec).
  unfold all_of_dim in Hall. simpl in Hall.
  apply andb_true_iff in Hall as [Hxs Hall]. apply Z.eqb_eq in Hxs.
  constructor; [|apply (IH ps' Eps' Hall)].
  exists o. split; [exact El|].
  replace (Z.to_nat n_dim) with (length xs) by (unfold position in *; lia).
  exact Hvec.
Qed.

Lemma Walker_init_gates_ok variant σ name n_dim placements dests obstacles
    chance every w σ' g :
  Walker_init variant σ name n_dim placements dests obstacles chance every
  = Ok (w, σ') ->
  gates_ok (born w σ' g).
Proof.
  unfold Walker_init. intros E.
  apply bind_ok_inv in E as (ds & Eds & E).
  apply seq_ok_inv in E as [_ E].
  apply seq_ok_inv in E as [_ E].
  apply seq_ok_inv in E as [_ E].
  apply seq_ok_inv in E as [Hgates E].
  apply seq_ok_inv in E as [_ E].
  injection E as <- <-.
  intros d Ed. cbn in Ed. subst dests.
  apply bind_ok_inv in Eds as (ps & Eps & [= <-]).
  apply deref_trajectory_inv in Eps as (items & Ei & Eps).
  unfold validate_gates in Hgates.
  apply seq_ok_inv in Hgates as [_ Hgates].
  apply seq_ok_inv in Hgates as [Hd%check_inv _].
  exists items. cbn [heap born]. split; [apply lookup_app_l_Some, Ei|].
  pose proof (all_of_dim_vec _ _ _ _ Eps Hd) as Hall.
  revert Hall. apply Forall_impl. intros l (o & El & Hvec).
  exists o. split; [apply lookup_app_l_Some, El|exact Hvec].
Qed.

(** ** The statistics move the walker, and runs add up *)

Lemma apply_loop_final {A : Type} (func : M A) (f : trajectory -> result A)
    (steps dim : Z) (sims : list loc) (l : loc) (s : State) :
  (forall s1 t, deref_trajectory (heap s1) (_path (self s1)) = Ok t ->
                _dim (self s1) = dim -> func s1 = lift (f t) s1) ->
  (forall t, Z.of_nat (length t) = steps ->
             Forall (fun p => length p = Z.to_nat dim) t ->
             exists r, f (zeros dim :: t) = Ok r) ->
  _dim (self s) = dim ->
  Forall (recorded steps s) (sims ++ [l]) ->
  exists rs s1 s',
    apply_loop (sims ++ [l]) func s = Done rs s'
    /\ set_path l s1 = Done tt s'
    /\ recorded steps s1 l.
Proof.
  intros Hfunc Hf. revert s.
  induction sims as [|l0 sims IH]; intros s Hdim Hrec; simpl.
  - apply list.Forall_cons in Hrec as [Hl _].
    destruct (set_path_recorded _ _ _ Hl)
      as (s1 & t & o & Es & Et & Hlen & Hall & Hheap & Hset).
    rewrite Hdim in Et, Hall.
    assert (Hdim1 : _dim (self s1) = dim)
      by (unfold settings in Hset; congruence).
    rewrite (bind_done _ _ _ _ _ Es).
    destruct (Hf t Hlen Hall) as (r & Er).
    assert (Efunc : func s1 = Done r s1).
    { rewrite (Hfunc _ _ Et Hdim1). unfold lift. rewrite Er. reflexivity. }
    rewrite (bind_done _ _ _ _ _ Efunc).
    exists [r], s, s1. split; [reflexivity|]. split; [exact Es|exact Hl].
  - apply list.Forall_cons in Hrec as [Hl Hrec].
    destruct (set_path_recorded _ _ _ Hl)
      as (s1 & t & o & Es & Et & Hlen & Hall & Hheap & Hset).
    rewrite Hdim in Et, Hall.
    assert (Hdim1 : _dim (self s1) = dim)
      by (unfold settings in Hset; congruence).
    rewrite (bind_done _ _ _ _ _ Es).
    destruct (Hf t Hlen Hall) as (r & Er).
    assert (Efunc : func s1 = Done r s1).
    { rewrite (Hfunc _ _ Et Hdim1). unfold lift. rewrite Er. reflexivity. }
    rewrite (bind_done _ _ _ _ _ Efunc).
    destruct (IH s1 Hdim1) as (rs & s2 & s' & E & Es' & Hl').
    { revert Hrec. apply Forall_impl. intros l'.
      apply (recorded_app _ _ _ _ _ Hheap Hset). }
    rewrite (bind_done _ _ _ _ _ E).
    exists (r :: rs), s2, s'. split; [reflexivity|]. split; [exact Es'|exact Hl'].
Qed.

(** X19. A statistic leaves the walker on the last recorded trajectory:
    when the recorded trials are lists of [steps + 1] vectors that
    start at the origin, whatever path and cursor the walker had,
    after [get_distances_from_origin_after(n)] with [0 <= n <= steps]
    its path is a new list of the points of the last trial and its
    cursor is the last point object of that trial. *)
Theorem get_distances_from_origin_after_moves_walker (sim : Simulation)
    (steps n : Z) (earlier : list loc) (l : loc) (s : State) :
  get_sims sim = earlier ++ [l] ->
  Forall (recorded steps s) (get_sims sim) ->
  0 <= n <= steps ->
  exists ds s' items final,
    get_distances_from_origin_after sim (AnInt n) s = Done ds s'
    /\ heap s' !! l = Some (PySeq items)
    /\ heap s' !! _path (self s') = Some (PySeq items)
    /\ _path (self s') <> l
    /\ list.last items = Some final
    /\ _current_position (self s') = final.
Proof.
  unfold get_sims. intros Esims Hrec Hn. rewrite Esims in Hrec.
  unfold get_distances_from_origin_after, _apply_to_sims. rewrite Esims.
  destruct (apply_loop_final (Walker_dist_from_origin_after (AnInt n))
              (fun p => dist_from_origin_after p (AnInt n))
              steps (_dim (self s)) earlier l s)
    as (ds & s1 & s' & E & Es & Hl); try assumption; try reflexivity.
  - intros s1 t Et _. apply Walker_dist_from_origin_after_eq, Et.
  - intros t Hlent _. unfold dist_from_origin_after, arg_negative, arg_at_least.
    destruct (Z.ltb_spec n 0); [lia|].
    destruct (Z.leb_spec (Z.of_nat (length (zeros (_dim (self s)) :: t))) n) as [Hle|_].
    { simpl in Hle. unfold trajectory, position in *. lia. }
    destruct (lookup_lt_is_Some_2 (zeros (_dim (self s)) :: t) (Z.to_nat n))
      as [p Ep]; [simpl; unfold trajectory, position in *; lia|].
    rewrite (index_Some _ _ _ Ep). eexists. reflexivity.
  - destruct Hl as (first & rest & El & _).
    destruct (set_path_done s1 l (first :: rest) El ltac:(discriminate))
      as (final & Hlast & Es').
    rewrite Es in Es'. injection Es' as ->.
    eexists ds, _, (first :: rest), final.
    split; [exact E|].
    cbn [self heap s_cursor s_path s_alloc _current_position _path].
    split; [apply lookup_app_l_Some, El|].
    split; [apply list_lookup_middle; reflexivity|].
    split; [apply lookup_lt_Some in El; lia|].
    split; [exact Hlast|reflexivity].
Qed.

(** X20. [run()] adds to what is recorded: a second [run()] keeps the
    trajectories of the first in their places and appends
    [times_to_run] more, so that [get_times_run()] is twice
    [times_to_run]; every trajectory, old or new, is a list of
    [num_of_steps + 1] points that starts at the origin. *)
Theorem run_accumulates (fuel : nat) (s : State)
    (times_to_run num_of_steps : Z) (axis : list num) (radius : num)
    (sim sim1 sim2 : Simulation) (s1 s2 : State) :
  valid_walker (self s) -> gates_ok s ->
  Simulation_init times_to_run num_of_steps axis radius s = Done sim s ->
  run fuel sim s = Done sim1 s1 ->
  run fuel sim1 s1 = Done sim2 s2 ->
  get_times_run sim1 = times_to_run
  /\ get_times_run sim2 = 2 * times_to_run
  /\ (exists new, get_sims sim2 = get_sims sim1 ++ new)
  /\ Forall (fun l =>
               exists t,
                 deref_trajectory (heap s2) l = Ok (zeros (_dim (self s)) :: t)
                 /\ Z.of_nat (length t) = num_of_steps)
            (get_sims sim2).
Proof.
  intros Hv Hg Einit E1 E2.
  destruct (Simulation_init_cases s times_to_run num_of_steps axis radius)
    as [[_ Ei]|[Hok Ei]]; rewrite Ei in Einit; [discriminate|].
  injection Einit as <-. clear Ei.
  assert (Hsteps : 1 <= num_of_steps) by (unfold init_rejects in Hok; lia).
  assert (Htimes : 1 <= times_to_run) by (unfold init_rejects in Hok; lia).
  unfold run in E1. cbn [__times_to_run] in E1.
  set (sim := {| __axis := axis; __radius := radius;
                 __times_to_run := times_to_run;
                 __num_of_steps := num_of_steps; __sims := [] |}) in *.
  destruct (run_loop_trace _ _ sim _ _ _ Hsteps Hv Hg (Forall_nil _) E1)
    as (Hrec1 & Hlen1 & _ & Hn1 & Ht1 & _ & _ & Hset1 & _ & _ & Hg1).
  cbn [__sims __num_of_steps __times_to_run sim] in Hrec1, Hlen1, Hn1, Ht1.
  unfold run in E2. rewrite Ht1 in E2.
  rewrite <- Hn1 in Hrec1, Hsteps.
  destruct (run_loop_trace _ _ sim1 _ _ _ Hsteps
              (valid_walker_settings _ _ Hset1 Hv) Hg1 Hrec1 E2)
    as (Hrec2 & Hlen2 & Hnew & _ & _ & _ & _ & Hset2 & _).
  assert (Hdim : _dim (self s2) = _dim (self s))
    by (unfold settings in Hset1, Hset2; congruence).
  unfold get_times_run, get_sims. simpl in Hlen1.
  split; [lia|]. split; [lia|]. split; [exact Hnew|].
  revert Hrec2. apply Forall_impl. intros l Hl.
  destruct (recorded_value _ _ _ Hl) as (t & Et & Hlent & _).
  rewrite Hdim in Et. exists t. split; [exact Et|congruence].
Qed.

(** Without obstacles a run over a valid walker returns. *)
Lemma run_returns fuel sim s :
  1 <= __num_of_steps sim -> valid_walker (self s) -> dests_ok s ->
  _obstacles (self s) = None ->
  exists sim' s', run fuel sim s = Done sim' s'.
Proof.
  intros Hsteps Hv Hd Hobs. unfold run.
  pose proof (run_loop_ok fuel (Z.to_nat (__times_to_run sim)) sim s Hsteps Hv Hd)
    as Hrun.
  destruct (run_loop fuel _ sim s) as [sim' s'|e s'|];
    simpl in Hrun; [eauto|destruct Hrun|congruence].
Qed.

End MachineProperties.

(** * The properties on concrete walkers

    Python floats are binary64 here and the random draws come from a
    tape, so every statement below is checked by running the model. *)

Module Examples.
Import Float64 Tape Inputs.

Lemma walker_A_constructed :
  RandomGridWalker_init [] "A" 2 None None None 0%float 1
  = Ok (walker_A, heap_A).
Proof. reflexivity. Qed.

Lemma walker_A_ready (g : list nat) : ready (start g).
Proof. apply (RandomGridWalker_init_ready _ _ _ _ _ _ _ _ _ _ _ walker_A_constructed). Qed.

(** C1. After [Simulation(2, 3, RandomGridWalker("A"), [0, 1], 10).run()]
    the average path has six points, twice [steps]: the four means of the
    recorded positions and two more points at the origin. *)
Theorem get_avg_path_twice_steps :
  returned (average_of_two_trials
              (start [1; 0; 0; 1; 1; 1; 0; 0; 1; 0; 0; 0]%nat))
  = Some (3, [[0; 0]; [0; 0]; [-0.5; 0.5]; [-1.5; 0.5]; [0; 0]; [0; 0]]%float).
Proof. vm_compute. reflexivity. Qed.

(** The guard of [get_avg_path] looks at the walker's path, not at the
    recorded runs: with no run it can give ZeroDivisionError. *)
Lemma get_avg_path_unguarded :
  exists s', average_before_any_run (start [1; 0; 0]%nat)
             = Throw ZeroDivisionError s'.
Proof. eexists. vm_compute. reflexivity. Qed.

(** C2, as the claim has it, fails: writing into a point of the returned
    sequence changes the walker's trajectory and its cursor. *)
Lemma get_path_shares_points :
  returned (write_into_returned_point (start []))
  = Some ([[0; 0]], [[5; 0]], [5; 0])%float.
Proof. vm_compute. reflexivity. Qed.

(** The same walker: two calls of [get_path()] give two lists of one
    value. *)
Lemma get_path_shallow_copy_witness :
  internal (start []) = (Ok [[0; 0]], Ok [0; 0])%float
  /\ exists p s1 p' s2,
       get_path (start []) = Done p s1
       /\ get_path s1 = Done p' s2
       /\ p <> p'
       /\ deref_trajectory (heap s2) p = Ok [[0; 0]]%float
       /\ deref_trajectory (heap s2) p' = Ok [[0; 0]]%float.
Proof.
  split; [reflexivity|].
  destruct (get_path_shallow_copy (start [])
              [[0; 0]]%float [0; 0]%float eq_refl)
    as (p & s1 & p' & s2 & E1 & E2 & Hne & D1 & D2 & _).
  exists p, s1, p', s2. auto.
Defined.

(** A walk of three steps from the new walker. *)
Lemma walk_appends_steps_witness :
  exists s' points,
    walk 0 3 (start [1; 0; 0]%nat) = Done tt s'
    /\ heap s' !! _path (self s') = Some (PySeq points)
    /\ length points = 4%nat.
Proof.
  destruct (walk_returns 0 3 (start [1; 0; 0]%nat))
    as (s' & E & _); [lia|apply walker_A_ready|reflexivity|].
  destruct (proj2 (walk_appends_steps 0 3 (start [1; 0; 0]%nat))
              ltac:(lia) [0%nat] s' eq_refl E) as (added & Ep & Hlen & _).
  exists s', ([0%nat] ++ added). split; [exact E|]. split; [exact Ep|].
  apply Nat2Z.inj. rewrite Hlen. reflexivity.
Defined.

(** The point (3, 4) is the first of its path outside the radius 2. *)
Lemma exited_radius_at_first_witness :
  [[0; 0]; [3; 4]; [6; 8]]%float <> []
  /\ exited_radius_at [[0; 0]; [3; 4]; [6; 8]]%float 2%float = Ok 1.
Proof.
  split; [discriminate|].
  refine (proj1 (proj2 (proj2 (exited_radius_at_first
            [[0; 0]; [3; 4]; [6; 8]]%float 2%float _) _))
            1%nat [3; 4]%float _ _ _).
  - discriminate.
  - reflexivity.
  - reflexivity.
  - reflexivity.
  - intros [|j] q Hj Hq; [|lia]. injection Hq as <-. reflexivity.
Defined.

(** Among the first three points the second coordinate goes 1, -1, 0:
    down once and up once. *)
Lemma times_crossed_y_axis_after_witness :
  Forall (fun p : list num => (2 <= length p)%nat) zigzag
  /\ times_crossed_y_axis_after zigzag (AnInt 3) = Ok 2.
Proof.
  assert (Hdim : Forall (fun p : list num => (2 <= length p)%nat) zigzag)
    by (repeat constructor).
  split; [exact Hdim|].
  rewrite (proj1 (times_crossed_y_axis_after_counts zigzag (AnInt 3) Hdim)
             3 eq_refl).
  - reflexivity.
  - simpl. lia.
Defined.

(** The axis (0, 2) has norm 2. *)
Lemma dist_from_axis_after_non_unit_witness :
  eqb (norm [0; 2]%float) one = false
  /\ dist_from_axis_after 2 [[0; 0]]%float [0; 2]%float (AnInt 0)
     = Raise ValueError.
Proof.
  split; [reflexivity|].
  apply dist_from_axis_after_non_unit. reflexivity.
Defined.

(** A path that stays within the radius 10. *)
Lemma exited_radius_at_zero_witness :
  ltb zero 10%float = true
  /\ exited_radius_at (zeros 2 :: [[1; 0]; [1; 1]]%float) 10%float = Ok 0.
Proof.
  split; [reflexivity|].
  apply (proj1 (@exited_radius_at_zero_iff_never float_PyNum 2
                  [[1; 0]; [1; 1]]%float 10%float eq_refl)).
  repeat constructor.
Defined.


(** ** The further properties, each at an input *)

Lemma walker_A_gates_ok (g : list nat) : gates_ok (start g).
Proof. intros d Ed. discriminate Ed. Qed.

Lemma walker_A_cursor_ok (g : list nat) : cursor_ok (start g).
Proof. destruct (walker_A_ready g) as (_ & _ & Hc & _). exact Hc. Qed.

Lemma walker_A_valid (g : list nat) : valid_walker (self (start g)).
Proof. destruct (walker_A_ready g) as (Hv & _). exact Hv. Qed.

Lemma trial_sim_made (g : list nat) :
  Simulation_init 2 3 [0; 1]%float 10%float (start g) = Done trial_sim (start g).
Proof. reflexivity. Qed.

Lemma trial_sim_runs (g : list nat) :
  exists sim' s', run 0 trial_sim (start g) = Done sim' s'.
Proof.
  apply run_returns; [simpl; lia|apply walker_A_valid| |reflexivity].
  apply gates_ok_dests_ok, walker_A_gates_ok.
Qed.

(** The point (3, 4) is at index 1 and outside the radius 2. *)
Lemma exited_radius_at_sound_witness :
  exited_radius_at [[0; 0]; [3; 4]; [6; 8]]%float 2%float = Ok 1
  /\ exists p, [[0; 0]; [3; 4]; [6; 8]]%float !! 1%nat = Some p
               /\ ltb 2%float (norm p) = true.
Proof.
  split; [reflexivity|].
  destruct (proj1 (proj2 (@exited_radius_at_sound float_PyNum
                            [[0; 0]; [3; 4]; [6; 8]]%float 2%float 1
                            eq_refl eq_refl)) ltac:(discriminate))
    as (p & Ep & Hp & _).
  exists p. split; [exact Ep|exact Hp].
Defined.

(** Among the first three points of the zigzag there are at most two
    crossings. *)
Lemma times_crossed_y_axis_after_bounds_witness :
  exists c, times_crossed_y_axis_after zigzag (AnInt 3) = Ok c /\ 0 <= c <= 2.
Proof.
  destruct (@times_crossed_y_axis_after_bounds float_PyNum zigzag 3)
    as (c & E & Hb & _).
  - repeat constructor.
  - simpl. lia.
  - exists c. split; [exact E|]. lia.
Defined.

(** The new walker A is at the origin of the plane. *)
Lemma Walker_init_origin_witness :
  internal (start []) = (Ok [zeros 2], Ok (zeros 2)).
Proof.
  exact (proj1 (@Walker_init_origin float_PyNum tape_source RandomGridWalker
                  [] "A" 2 None None None 0%float 1 walker_A heap_A
                  walker_A_constructed) ([] : tape)).
Defined.

(** [restart()] on the new walker A. *)
Lemma restart_keeps_path_witness :
  exists q s', restart (start []) = Done q s'
               /\ internal s' = (Ok [[0; 0]%float], Ok (zeros 2)).
Proof.
  destruct (@restart_keeps_path float_PyNum tape_source (start [])
              [[0; 0]%float] eq_refl) as (q & s' & E & Hi & _).
  exists q, s'. split; [exact E|exact Hi].
Defined.

(** The walker A is given its own path. *)
Lemma set_path_adopts_witness :
  exists s', set_path 1%nat (start []) = Done tt s'
             /\ _current_position (self s') = 0%nat
             /\ _path (self s') <> 1%nat.
Proof.
  destruct (proj2 (@set_path_adopts float_PyNum tape_source (start [])
                     1%nat [0%nat] eq_refl) ltac:(discriminate))
    as (s' & final & E & Hlast & Hcur & Hpath & _).
  exists s'. split; [exact E|]. split; [|exact Hpath].
  rewrite Hcur. injection Hlast as <-. reflexivity.
Defined.

(** A walk of three steps from the new walker A. *)
Lemma walk_extends_trajectory_witness :
  exists s' t',
    walk 0 3 (start [1; 0; 0]%nat) = Done tt s'
    /\ deref_trajectory (heap s') (_path (self s')) = Ok ([[0; 0]%float] ++ t')
    /\ Z.of_nat (length t') = 3.
Proof.
  destruct (walk_returns 0 3 (start [1; 0; 0]%nat))
    as (s' & E & _); [lia|apply walker_A_ready|reflexivity|].
  destruct (@walk_extends_trajectory float_PyNum tape_source 0 3
              (start [1; 0; 0]%nat) s' [0%nat] [[0; 0]%float]
              (walker_A_valid _) (walker_A_gates_ok _) (walker_A_cursor_ok _)
              eq_refl ltac:(repeat constructor) E)
    as (t' & Et & Hlen & _).
  exists s', t'. split; [exact E|]. split; [exact Et|exact Hlen].
Defined.







(** The first step of the walker A. *)
Lemma RandomGridWalker_step_unit_move_witness :
  exists pos s',
    RandomGridWalker_step (start [1; 0]%nat) = Done pos s'
    /\ heap s' !! 0%nat = Some (PyList [0; 0]%float)
    /\ _current_position (self s') = pos.
Proof.
  destruct (@RandomGridWalker_step_unit_move float_PyNum tape_source
              (start [1; 0]%nat) [0; 0]%float ltac:(simpl; lia) eq_refl eq_refl)
    as (d & x & sign & g & _ & _ & E).
  eexists _, _. split; [exact E|]. split; reflexivity.
Defined.



End Examples.
